(** * ascii_drone: gesture state machine, key selector and audio engine

    A shallow embedding of the core of the installation:
    - [HandDetector] (src/handDetection.js): the per-hand gesture classifier
      and the per-frame hold-to-activate state machine;
    - [KeyOverlay] (src/keyOverlay.js): the circle-of-fifths hit test;
    - [AudioEngine] (src/audioEngine.js): the engine's state machine, its
      parameter setters and the key change.
    The rest of the page is embedded after them:
    - in [KeyOverlay], the overlay's fade, rotation and hide timer;
    - [AsciiRenderer] (src/unnamed/part_000): the two effect parameters and
      the colour of a pixel;
    - [Main] (src/main.js): the gesture callback on the three components.

    JavaScript numbers are IEEE doubles.  They are modelled here by the real
    numbers of the Standard Library: [Math.sqrt] is [sqrt], [Math.atan2] is
    the mathematical two-argument arctangent built from [atan], [Math.max]
    and [Math.min] are [Rmax] and [Rmin].  Rounding, signed zeros and
    overflow are outside this model; the special values NaN and the
    infinities appear only where the code tests for them (the audio engine's
    [_validateNumber]), as constructors of [Js.Number] and [Js.Value]. *)

From Stdlib Require Import Reals Lra Lia ZArith List String Ascii Bool.
Import ListNotations.

Local Open Scope R_scope.

(** ** JavaScript numeric primitives over the reals *)

Module Js.

(** Comparison operators, as booleans. *)
Definition lt (a b : R) : bool := if Rlt_dec a b then true else false.
Definition gt (a b : R) : bool := if Rgt_dec a b then true else false.
Definition ge (a b : R) : bool := if Rge_dec a b then true else false.

(** [Math.atan2(y, x)] on finite arguments, in radians, with
    [atan2(0, 0) = 0] as in JavaScript. *)
Definition atan2 (y x : R) : R :=
  if Rlt_dec 0 x then atan (y / x)
  else if Rlt_dec x 0 then
    if Rle_dec 0 y then atan (y / x) + PI else atan (y / x) - PI
  else if Rlt_dec 0 y then PI / 2
  else if Rlt_dec y 0 then - (PI / 2)
  else 0.

(** [Math.floor] and [Math.trunc], as integers. *)
Definition floor (x : R) : Z := Int_part x.
Definition trunc (x : R) : Z :=
  if Rle_dec 0 x then Int_part x else (- Int_part (- x))%Z.

(** The remainder operator [a % b]: the result has the sign of [a]. *)
Definition rem (a b : R) : R := a - b * IZR (trunc (a / b)).

(** A number as [typeof], [isNaN] and [isFinite] tell them apart, and the
    values that are not numbers. *)
Inductive Number :=
| Finite (r : R)
| NaN
| Infinity
| NegInfinity.

Definition isNaN (n : Number) : bool :=
  match n with NaN => true | _ => false end.

Definition isFinite (n : Number) : bool :=
  match n with Finite _ => true | _ => false end.

Inductive Value :=
| Num (n : Number)
| Undefined
| Null
| Bool (b : bool)
| Str (s : string).

Definition num (r : R) : Value := Num (Finite r).

(** [s.endsWith('m')], [s.slice(0, -1)] and [s.toLowerCase()] (ASCII). *)
Fixpoint endsWith_m (s : string) : bool :=
  match s with
  | EmptyString => false
  | String c EmptyString => Ascii.eqb c "m"%char
  | String _ rest => endsWith_m rest
  end.

Fixpoint slice_0_m1 (s : string) : string :=
  match s with
  | EmptyString => EmptyString
  | String _ EmptyString => EmptyString
  | String c rest => String c (slice_0_m1 rest)
  end.

Definition lower_ascii (c : ascii) : ascii :=
  let n := nat_of_ascii c in
  if (Nat.leb 65 n && Nat.leb n 90)%bool then ascii_of_nat (n + 32) else c.

Fixpoint toLowerCase (s : string) : string :=
  match s with
  | EmptyString => EmptyString
  | String c rest => String (lower_ascii c) (toLowerCase rest)
  end.

End Js.

(** A point [{x, y}]: a landmark, or a pinch position, in normalized
    image coordinates. *)
Record Point := { x : R; y : R }.

(** ** src/handDetection.js *)

Module HandDetector.

Definition PINCH_THRESHOLD : R := 0.05.
Definition HOLD_DURATION_MS : R := 450.

(** One hand's landmarks, read as [landmarks[i]].  The detector delivers
    21 points; the classifier reads indices 0 to 20 only. *)
Definition Landmarks := nat -> Point.

(** *** Gesture classifier *)

(** The angle before [calculateHandRotation]'s final clamp: degrees,
    rotated by +90 and wrapped once. *)
Definition wrappedAngle (landmarks : Landmarks) : R :=
  let wrist := landmarks 0%nat in
  let middleFingerTip := landmarks 12%nat in
  let dx := x middleFingerTip - x wrist in
  let dy := y middleFingerTip - y wrist in
  let angle := Js.atan2 dy dx * (180 / PI) + 90 in
  let angle := if Js.lt angle (-180) then angle + 360 else angle in
  let angle := if Js.gt angle 180 then angle - 360 else angle in
  angle.

Definition calculateHandRotation (landmarks : Landmarks) : R :=
  Rmax (-90) (Rmin 90 (wrappedAngle landmarks)).

Definition fingerTips : list nat := [4; 8; 12; 16; 20]%nat.
Definition fingerMCPs : list nat := [2; 5; 9; 13; 17]%nat.

(** The loop of [isFist]: the number of fingers whose tip lies below its
    MCP joint in image coordinates. *)
Fixpoint foldedFingers (landmarks : Landmarks) (tips mcps : list nat) : nat :=
  match tips, mcps with
  | t :: tips', m :: mcps' =>
      (if Js.gt (y (landmarks t)) (y (landmarks m)) then 1 else 0)
      + foldedFingers landmarks tips' mcps'
  | _, _ => 0
  end%nat.

Definition isFist (landmarks : Landmarks) : bool :=
  Nat.leb 4 (foldedFingers landmarks fingerTips fingerMCPs).

Definition isPinch (landmarks : Landmarks) : bool :=
  let thumbTip := landmarks 4%nat in
  let indexTip := landmarks 8%nat in
  let dx := x thumbTip - x indexTip in
  let dy := y thumbTip - y indexTip in
  let distance := sqrt (dx * dx + dy * dy) in
  Js.lt distance PINCH_THRESHOLD && negb (isFist landmarks).

Definition getPinchPosition (landmarks : Landmarks) : Point :=
  let thumbTip := landmarks 4%nat in
  let indexTip := landmarks 8%nat in
  {| x := (x thumbTip + x indexTip) / 2;
     y := (y thumbTip + y indexTip) / 2 |}.

(** *** Gesture state machine *)

Record Handedness := { label : string; score : R }.

(** One detected hand: [results.multiHandedness[index]] together with
    [results.multiHandLandmarks[index]].  A frame's [results] is the list
    of its hands in the detector's order; a frame without the two arrays
    is the empty list (the [forEach] then runs no iteration and
    [handsDetected] is 0). *)
Record Hand := { handedness : Handedness; handLandmarks : Landmarks }.

Record PinchData := { position : Point; hand : string }.

Record Sides (A : Type) := { left : A; right : A }.
Arguments left {A} _.
Arguments right {A} _.

(** The detector's fields that the frame handler reads or writes.  The
    canvas, the camera handle and the frame-rate counters are left out. *)
Record State := {
  hand1Rotation : R;
  hand2Rotation : R;
  lastLeftRotation : R;
  lastRightRotation : R;
  isInitialized : bool;
  noDetectionCount : nat;
  maxNoDetection : nat;
  pinchActive : bool;
  pinchPosition : option Point;
  pinchHand : option string;
  fistHoldStart : Sides (option R);
  pinchHoldStart : option R;
  fistActive : Sides bool;
  pinchActiveConfirmed : bool
}.

(** The constructor's field values. *)
Definition constructed : State := {|
  hand1Rotation := 0; hand2Rotation := 0;
  lastLeftRotation := 0; lastRightRotation := 0;
  isInitialized := false; noDetectionCount := 0; maxNoDetection := 300;
  pinchActive := false; pinchPosition := None; pinchHand := None;
  fistHoldStart := {| left := None; right := None |};
  pinchHoldStart := None;
  fistActive := {| left := false; right := false |};
  pinchActiveConfirmed := false
|}.

(** Field assignments [this.f = v]. *)
Definition set_hand1Rotation (v : R) (this : State) : State :=
  {| hand1Rotation := v; hand2Rotation := hand2Rotation this;
     lastLeftRotation := lastLeftRotation this; lastRightRotation := lastRightRotation this;
     isInitialized := isInitialized this; noDetectionCount := noDetectionCount this;
     maxNoDetection := maxNoDetection this;
     pinchActive := pinchActive this; pinchPosition := pinchPosition this;
     pinchHand := pinchHand this; fistHoldStart := fistHoldStart this;
     pinchHoldStart := pinchHoldStart this; fistActive := fistActive this;
     pinchActiveConfirmed := pinchActiveConfirmed this |}.

Definition set_hand2Rotation (v : R) (this : State) : State :=
  {| hand1Rotation := hand1Rotation this; hand2Rotation := v;
     lastLeftRotation := lastLeftRotation this; lastRightRotation := lastRightRotation this;
     isInitialized := isInitialized this; noDetectionCount := noDetectionCount this;
     maxNoDetection := maxNoDetection this;
     pinchActive := pinchActive this; pinchPosition := pinchPosition this;
     pinchHand := pinchHand this; fistHoldStart := fistHoldStart this;
     pinchHoldStart := pinchHoldStart this; fistActive := fistActive this;
     pinchActiveConfirmed := pinchActiveConfirmed this |}.

Definition set_lastLeftRotation (v : R) (this : State) : State :=
  {| hand1Rotation := hand1Rotation this; hand2Rotation := hand2Rotation this;
     lastLeftRotation := v; lastRightRotation := lastRightRotation this;
     isInitialized := isInitialized this; noDetectionCount := noDetectionCount this;
     maxNoDetection := maxNoDetection this;
     pinchActive := pinchActive this; pinchPosition := pinchPosition this;
     pinchHand := pinchHand this; fistHoldStart := fistHoldStart this;
     pinchHoldStart := pinchHoldStart this; fistActive := fistActive this;
     pinchActiveConfirmed := pinchActiveConfirmed this |}.

Definition set_lastRightRotation (v : R) (this : State) : State :=
  {| hand1Rotation := hand1Rotation this; hand2Rotation := hand2Rotation this;
     lastLeftRotation := lastLeftRotation this; lastRightRotation := v;
     isInitialized := isInitialized this; noDetectionCount := noDetectionCount this;
     maxNoDetection := maxNoDetection this;
     pinchActive := pinchActive this; pinchPosition := pinchPosition this;
     pinchHand := pinchHand this; fistHoldStart := fistHoldStart this;
     pinchHoldStart := pinchHoldStart this; fistActive := fistActive this;
     pinchActiveConfirmed := pinchActiveConfirmed this |}.

Definition set_noDetectionCount (v : nat) (this : State) : State :=
  {| hand1Rotation := hand1Rotation this; hand2Rotation := hand2Rotation this;
     lastLeftRotation := lastLeftRotation this; lastRightRotation := lastRightRotation this;
     isInitialized := isInitialized this; noDetectionCount := v;
     maxNoDetection := maxNoDetection this;
     pinchActive := pinchActive this; pinchPosition := pinchPosition this;
     pinchHand := pinchHand this; fistHoldStart := fistHoldStart this;
     pinchHoldStart := pinchHoldStart this; fistActive := fistActive this;
     pinchActiveConfirmed := pinchActiveConfirmed this |}.

(** [this.pinchActive], [this.pinchPosition] and [this.pinchHand] are
    always assigned together. *)
Definition set_pinch (a : bool) (p : option Point) (h : option string)
    (this : State) : State :=
  {| hand1Rotation := hand1Rotation this; hand2Rotation := hand2Rotation this;
     lastLeftRotation := lastLeftRotation this; lastRightRotation := lastRightRotation this;
     isInitialized := isInitialized this; noDetectionCount := noDetectionCount this;
     maxNoDetection := maxNoDetection this;
     pinchActive := a; pinchPosition := p; pinchHand := h;
     fistHoldStart := fistHoldStart this;
     pinchHoldStart := pinchHoldStart this; fistActive := fistActive this;
     pinchActiveConfirmed := pinchActiveConfirmed this |}.

Definition set_fistHoldStart (v : Sides (option R)) (this : State) : State :=
  {| hand1Rotation := hand1Rotation this; hand2Rotation := hand2Rotation this;
     lastLeftRotation := lastLeftRotation this; lastRightRotation := lastRightRotation this;
     isInitialized := isInitialized this; noDetectionCount := noDetectionCount this;
     maxNoDetection := maxNoDetection this;
     pinchActive := pinchActive this; pinchPosition := pinchPosition this;
     pinchHand := pinchHand this; fistHoldStart := v;
     pinchHoldStart := pinchHoldStart this; fistActive := fistActive this;
     pinchActiveConfirmed := pinchActiveConfirmed this |}.

Definition set_pinchHoldStart (v : option R) (this : State) : State :=
  {| hand1Rotation := hand1Rotation this; hand2Rotation := hand2Rotation this;
     lastLeftRotation := lastLeftRotation this; lastRightRotation := lastRightRotation this;
     isInitialized := isInitialized this; noDetectionCount := noDetectionCount this;
     maxNoDetection := maxNoDetection this;
     pinchActive := pinchActive this; pinchPosition := pinchPosition this;
     pinchHand := pinchHand this; fistHoldStart := fistHoldStart this;
     pinchHoldStart := v; fistActive := fistActive this;
     pinchActiveConfirmed := pinchActiveConfirmed this |}.

Definition set_fistActive (v : Sides bool) (this : State) : State :=
  {| hand1Rotation := hand1Rotation this; hand2Rotation := hand2Rotation this;
     lastLeftRotation := lastLeftRotation this; lastRightRotation := lastRightRotation this;
     isInitialized := isInitialized this; noDetectionCount := noDetectionCount this;
     maxNoDetection := maxNoDetection this;
     pinchActive := pinchActive this; pinchPosition := pinchPosition this;
     pinchHand := pinchHand this; fistHoldStart := fistHoldStart this;
     pinchHoldStart := pinchHoldStart this; fistActive := v;
     pinchActiveConfirmed := pinchActiveConfirmed this |}.

Definition set_pinchActiveConfirmed (v : bool) (this : State) : State :=
  {| hand1Rotation := hand1Rotation this; hand2Rotation := hand2Rotation this;
     lastLeftRotation := lastLeftRotation this; lastRightRotation := lastRightRotation this;
     isInitialized := isInitialized this; noDetectionCount := noDetectionCount this;
     maxNoDetection := maxNoDetection this;
     pinchActive := pinchActive this; pinchPosition := pinchPosition this;
     pinchHand := pinchHand this; fistHoldStart := fistHoldStart this;
     pinchHoldStart := pinchHoldStart this; fistActive := fistActive this;
     pinchActiveConfirmed := v |}.

Definition set_fistHoldStart_left (v : option R) (this : State) : State :=
  set_fistHoldStart {| left := v; right := right (fistHoldStart this) |} this.
Definition set_fistHoldStart_right (v : option R) (this : State) : State :=
  set_fistHoldStart {| left := left (fistHoldStart this); right := v |} this.
Definition set_fistActive_left (v : bool) (this : State) : State :=
  set_fistActive {| left := v; right := right (fistActive this) |} this.
Definition set_fistActive_right (v : bool) (this : State) : State :=
  set_fistActive {| left := left (fistActive this); right := v |} this.

(** The [let] variables of [getHandRotationAngle] that the [forEach]
    callback assigns. *)
Record Locals := {
  leftFistDetected : bool;
  rightFistDetected : bool;
  pinchDetected : bool;
  pinchData : option PinchData
}.

Definition locals0 : Locals :=
  {| leftFistDetected := false; rightFistDetected := false;
     pinchDetected := false; pinchData := None |}.

(** The [forEach] callback, for one hand. *)
Definition forEachHand (acc : State * Locals) (h : Hand) : State * Locals :=
  let (this, loc) := acc in
  let landmarks := handLandmarks h in
  let rotation := calculateHandRotation landmarks in
  let isFist := isFist landmarks in
  let isPinch := isPinch landmarks in
  let label := label (handedness h) in
  (* Check for pinch gesture (takes priority) *)
  let loc :=
    if isPinch then
      {| leftFistDetected := leftFistDetected loc;
         rightFistDetected := rightFistDetected loc;
         pinchDetected := true;
         pinchData := Some {| position := getPinchPosition landmarks;
                              hand := Js.toLowerCase label |} |}
    else loc in
  (* Check for fist gesture (only if not pinching) *)
  if isFist && negb isPinch then
    if String.eqb label "Left" then
      (set_hand1Rotation rotation this,
       {| leftFistDetected := true;
          rightFistDetected := rightFistDetected loc;
          pinchDetected := pinchDetected loc; pinchData := pinchData loc |})
    else
      (set_hand2Rotation rotation this,
       {| leftFistDetected := leftFistDetected loc;
          rightFistDetected := true;
          pinchDetected := pinchDetected loc; pinchData := pinchData loc |})
  else (this, loc).

(** Process left fist hold-to-activate. *)
Definition processLeftFist (now : R) (detected : bool) (this : State) : State :=
  if detected then
    let this :=
      match left (fistHoldStart this) with
      | None => set_fistHoldStart_left (Some now) this
      | Some start =>
          if negb (left (fistActive this)) && Js.ge (now - start) HOLD_DURATION_MS
          then set_fistActive_left true this
          else this
      end in
    if left (fistActive this)
    then set_lastLeftRotation (hand1Rotation this) this
    else this
  else
    set_fistActive_left false (set_fistHoldStart_left None this).

(** Process right fist hold-to-activate. *)
Definition processRightFist (now : R) (detected : bool) (this : State) : State :=
  if detected then
    let this :=
      match right (fistHoldStart this) with
      | None => set_fistHoldStart_right (Some now) this
      | Some start =>
          if negb (right (fistActive this)) && Js.ge (now - start) HOLD_DURATION_MS
          then set_fistActive_right true this
          else this
      end in
    if right (fistActive this)
    then set_lastRightRotation (hand2Rotation this) this
    else this
  else
    set_fistActive_right false (set_fistHoldStart_right None this).

(** Process pinch hold-to-activate.  [data] is the local [pinchData]; it
    is read only where [pinchDetected] holds, and the loop sets both
    together. *)
Definition processPinch (now : R) (detected : bool) (data : option PinchData)
    (this : State) : State :=
  if detected then
    let this :=
      match pinchHoldStart this with
      | None => set_pinchActiveConfirmed false (set_pinchHoldStart (Some now) this)
      | Some start =>
          if negb (pinchActiveConfirmed this) && Js.ge (now - start) HOLD_DURATION_MS
          then set_pinchActiveConfirmed true this
          else this
      end in
    if pinchActiveConfirmed this
    then set_pinch true (option_map position data) (option_map hand data) this
    else set_pinch false None None this
  else
    set_pinch false None None
      (set_pinchActiveConfirmed false (set_pinchHoldStart None this)).

(** [getHandRotationAngle(results)], with [performance.now()] read as
    [now]: the new detector state and the returned [{left, right}]. *)
Definition getHandRotationAngle (this : State) (now : R) (results : list Hand)
    : State * Sides R :=
  let (this, loc) := fold_left forEachHand results (this, locals0) in
  let this := processLeftFist now (leftFistDetected loc) this in
  let this := processRightFist now (rightFistDetected loc) this in
  let this := processPinch now (pinchDetected loc) (pinchData loc) this in
  (this, {| left := lastLeftRotation this; right := lastRightRotation this |}).

(** The Gesture Event handed to the registered callback. *)
Module Event.
Record Pinch := { active : bool; position : option Point; hand : option string }.
Record t := {
  handsDetected : nat;
  leftRotation : R;
  rightRotation : R;
  pinch : Pinch
}.
End Event.

Record FrameOutput := {
  next : State;
  emitted : option Event.t;     (* the argument of [onResultsCallback] *)
  restartCamera : bool          (* whether [restartCamera()] was called *)
}.

(** [onResults(results)] for one frame.  Drawing on the canvas, the
    frame-rate counter and the debug status text are left out. *)
Definition onResults (this : State) (now : R) (results : list Hand) : FrameOutput :=
  if negb (isInitialized this) then
    {| next := this; emitted := None; restartCamera := false |}
  else
    let (this, rotations) := getHandRotationAngle this now results in
    let this := set_hand1Rotation (left rotations) this in
    let this := set_hand2Rotation (right rotations) this in
    let handsDetected := List.length results in
    let this_restart :=
      if Nat.eqb handsDetected 0 then
        let this := set_noDetectionCount (S (noDetectionCount this)) this in
        (this, Nat.leb (maxNoDetection this) (noDetectionCount this))
      else (set_noDetectionCount 0 this, false) in
    let this := fst this_restart in
    {| next := this;
       emitted := Some {|
         Event.handsDetected := handsDetected;
         Event.leftRotation := hand1Rotation this;
         Event.rightRotation := hand2Rotation this;
         Event.pinch := {| Event.active := pinchActive this;
                           Event.position := pinchPosition this;
                           Event.hand := pinchHand this |} |};
       restartCamera := snd this_restart |}.

(** A frame as the detector delivers it: the clock reading and the hands. *)
Record Frame := { time : R; hands : list Hand }.

Definition frame (this : State) (f : Frame) : State :=
  next (onResults this (time f) (hands f)).

Definition frames (this : State) (fs : list Frame) : State :=
  fold_left frame fs this.

(** What one frame's hands amount to for each gesture slot. *)
Definition isLeftFist (h : Hand) : bool :=
  isFist (handLandmarks h) && negb (isPinch (handLandmarks h))
  && String.eqb (label (handedness h)) "Left".

Definition isRightFist (h : Hand) : bool :=
  isFist (handLandmarks h) && negb (isPinch (handLandmarks h))
  && negb (String.eqb (label (handedness h)) "Left").

Definition isPinching (h : Hand) : bool := isPinch (handLandmarks h).

(** The last hand of the list that satisfies [p], if any. *)
Definition lastHand (p : Hand -> bool) (results : list Hand) : option Hand :=
  fold_left (fun found h => if p h then Some h else found) results None.

(** The rotation that the loop leaves in [hand1Rotation] (with
    [isLeftFist]) or [hand2Rotation] (with [isRightFist]): that of the
    last such hand of the frame, or the field's old value. *)
Definition latestRotation (p : Hand -> bool) (results : list Hand) (old : R) : R :=
  match lastHand p results with
  | Some h => calculateHandRotation (handLandmarks h)
  | None => old
  end.

(** The [pinchData] object that the loop builds for a pinching hand. *)
Definition pinchDataOf (h : Hand) : PinchData :=
  {| position := getPinchPosition (handLandmarks h);
     hand := Js.toLowerCase (label (handedness h)) |}.

(** The detector once [init()] has set [this.isInitialized = true]. *)
Definition started : State := {|
  hand1Rotation := 0; hand2Rotation := 0;
  lastLeftRotation := 0; lastRightRotation := 0;
  isInitialized := true; noDetectionCount := 0; maxNoDetection := 300;
  pinchActive := false; pinchPosition := None; pinchHand := None;
  fistHoldStart := {| left := None; right := None |};
  pinchHoldStart := None;
  fistActive := {| left := false; right := false |};
  pinchActiveConfirmed := false
|}.

(** The clock never runs backwards: each frame's [performance.now()] is
    at least the previous one's. *)
Fixpoint ascending (previous : R) (fs : list Frame) : Prop :=
  match fs with
  | [] => True
  | f :: rest => previous <= time f /\ ascending (time f) rest
  end.

(** The clock reading of the last frame of [fs], or [t0] if there is
    none. *)
Definition lastTime (t0 : R) (fs : list Frame) : R :=
  fold_left (fun _ f => time f) fs t0.

(** The hands of the last frame of [fs], or [h0] if there is none. *)
Definition lastHands (h0 : list Hand) (fs : list Frame) : list Hand :=
  fold_left (fun _ f => hands f) fs h0.

(** The detectors that a running program can hold: the started one,
    after any sequence of frames. *)
Definition reachable (this : State) : Prop := exists fs, this = frames started fs.

(** The three debounced gesture slots, and what each keeps in the
    detector. *)
Inductive Slot := LeftFist | RightFist | Pinch.

Definition holdStartOf (slot : Slot) (this : State) : option R :=
  match slot with
  | LeftFist => left (fistHoldStart this)
  | RightFist => right (fistHoldStart this)
  | Pinch => pinchHoldStart this
  end.

Definition confirmedOf (slot : Slot) (this : State) : bool :=
  match slot with
  | LeftFist => left (fistActive this)
  | RightFist => right (fistActive this)
  | Pinch => pinchActiveConfirmed this
  end.

(** The raw gesture of a slot, on one hand and in one frame. *)
Definition rawOn (slot : Slot) (h : Hand) : bool :=
  match slot with
  | LeftFist => isLeftFist h
  | RightFist => isRightFist h
  | Pinch => isPinching h
  end.

Definition rawPresent (slot : Slot) (results : list Hand) : bool :=
  existsb (rawOn slot) results.

(** Whether the slot's effect is live in the detector: a fist slot's flag
    lets the rotation through, the pinch slot's is published as
    [pinchActive]. *)
Definition liveOf (slot : Slot) (this : State) : bool :=
  match slot with
  | LeftFist => left (fistActive this)
  | RightFist => right (fistActive this)
  | Pinch => pinchActive this
  end.

(** The two hands' published rotations. *)
Inductive Side := OnLeft | OnRight.

Definition fistSlot (side : Side) : Slot :=
  match side with OnLeft => LeftFist | OnRight => RightFist end.

Definition publishedRotation (side : Side) (this : State) : R :=
  match side with
  | OnLeft => lastLeftRotation this
  | OnRight => lastRightRotation this
  end.

(** *** Sample hands *)

(** Thumb and index tips touching, no finger folded: every landmark at
    the point [p]. *)
Definition pinchingAt (p : Point) : Landmarks := fun _ => p.

(** A closed fist held below the wrist: the five fingertips at
    (0.5, 0.6), every other landmark at (0.5, 0.5). *)
Definition fistDown : Landmarks :=
  fun i => if existsb (Nat.eqb i) fingerTips
           then {| x := 0.5; y := 0.6 |}
           else {| x := 0.5; y := 0.5 |}.

Definition handOf (side : string) (landmarks : Landmarks) : Hand :=
  {| handedness := {| label := side; score := 0.9 |}; handLandmarks := landmarks |}.

(** *** The rest of the detector's life cycle *)

Definition set_isInitialized (v : bool) (this : State) : State :=
  {| hand1Rotation := hand1Rotation this; hand2Rotation := hand2Rotation this;
     lastLeftRotation := lastLeftRotation this; lastRightRotation := lastRightRotation this;
     isInitialized := v; noDetectionCount := noDetectionCount this;
     maxNoDetection := maxNoDetection this;
     pinchActive := pinchActive this; pinchPosition := pinchPosition this;
     pinchHand := pinchHand this; fistHoldStart := fistHoldStart this;
     pinchHoldStart := pinchHoldStart this; fistActive := fistActive this;
     pinchActiveConfirmed := pinchActiveConfirmed this |}.

(** [init()] is [async]: what it does once [await this.camera.start()] has
    resolved, or in its [catch] block when it has not. *)
Definition init_afterCameraStart (ok : bool) (this : State) : State :=
  if ok then set_isInitialized true this else this.

(** [restartCamera()] is [async] too: once the camera has stopped and
    started again it clears the counter; its [catch] block changes
    nothing. *)
Definition restartCamera_afterStart (ok : bool) (this : State) : State :=
  if ok then set_noDetectionCount 0 this else this.

(** A hand pointing straight up: the middle fingertip at (0.5, 0.2), every
    other landmark at (0.5, 0.5). *)
Definition upright : Landmarks :=
  fun i => if Nat.eqb i 12
           then {| x := 0.5; y := 0.2 |}
           else {| x := 0.5; y := 0.5 |}.

(** The vector from the wrist to the middle fingertip, as
    [calculateHandRotation] computes it. *)
Definition tipDx (landmarks : Landmarks) : R := x (landmarks 12%nat) - x (landmarks 0%nat).
Definition tipDy (landmarks : Landmarks) : R := y (landmarks 12%nat) - y (landmarks 0%nat).

End HandDetector.

(** ** src/keyOverlay.js *)

Module KeyOverlay.

(** Circle of fifths order (clockwise from top). *)
Definition MAJOR_KEYS : list string :=
  ["C"; "G"; "D"; "A"; "E"; "B"; "F#"; "Db"; "Ab"; "Eb"; "Bb"; "F"]%string.
Definition MINOR_KEYS : list string :=
  ["Am"; "Em"; "Bm"; "F#m"; "C#m"; "G#m"; "Ebm"; "Bbm"; "Fm"; "Cm"; "Gm"; "Dm"]%string.

(** Layout constants (fractions of min dimension). *)
Definition CENTER_RADIUS : R := 0.12.
Definition INNER_RADIUS : R := 0.25.
Definition OUTER_RADIUS : R := 0.42.

(** What [getKeyAtPosition] can return: [null], a key name, or
    [undefined] when the segment index falls outside the table. *)
Inductive KeyResult :=
| Null
| Undefined
| Key (name : string).

(** [table[i]] for an integral index. *)
Definition index (table : list string) (i : Z) : KeyResult :=
  if (i <? 0)%Z then Undefined
  else match nth_error table (Z.to_nat i) with
       | Some name => Key name
       | None => Undefined
       end.

(** The fields that the hit test reads; fade and rotation animation state
    is left out. *)
Record State := {
  canvasWidth : R;
  canvasHeight : R;
  centerX : R;
  centerY : R;
  minDim : R;
  rotationOffset : R     (* radians to rotate so current key is at top *)
}.

(** [resize()], with the window's inner size as arguments. *)
Definition resize (innerWidth innerHeight : R) (this : State) : State :=
  {| canvasWidth := innerWidth;
     canvasHeight := innerHeight;
     centerX := innerWidth / 2;
     centerY := innerHeight / 2;
     minDim := Rmin innerWidth innerHeight;
     rotationOffset := rotationOffset this |}.

(** The overlay as its constructor leaves it, in a window of the given
    inner size: no rotation yet, and one [resize()]. *)
Definition constructed (innerWidth innerHeight : R) : State :=
  resize innerWidth innerHeight
    {| canvasWidth := 0; canvasHeight := 0; centerX := 0; centerY := 0;
       minDim := 0; rotationOffset := 0 |}.

Definition getKeyAtPosition (this : State) (normalizedPos : option Point) : KeyResult :=
  match normalizedPos with
  | None => Null
  | Some normalizedPos =>
      let x := x normalizedPos * canvasWidth this in
      let y := y normalizedPos * canvasHeight this in
      (* Get distance and angle from center *)
      let dx := x - centerX this in
      let dy := y - centerY this in
      let distance := sqrt (dx * dx + dy * dy) in
      (* Calculate radii in pixels *)
      let centerRadius := CENTER_RADIUS * minDim this in
      let innerRadius := INNER_RADIUS * minDim this in
      let outerRadius := OUTER_RADIUS * minDim this in
      (* Check if in center (no change) *)
      if Js.lt distance centerRadius then Null
      else
        (* Calculate angle (0 = top, clockwise positive) *)
        let angle := Js.atan2 dx (- dy) in
        let angle := if Js.lt angle 0 then angle + PI * 2 else angle in
        (* Adjust for current rotation offset *)
        let angle := Js.rem (angle - rotationOffset this + PI * 2) (PI * 2) in
        (* Calculate segment index (12 segments, 30 degrees each) *)
        let segmentIndex := Js.floor (angle / (PI * 2 / 12)) in
        (* Determine which ring *)
        if Js.lt distance innerRadius then index MINOR_KEYS segmentIndex
        else if Js.lt distance outerRadius then index MAJOR_KEYS segmentIndex
        else Null
  end.

(** The two local values of [getKeyAtPosition] that decide its result,
    named so that statements can refer to them. *)
Definition distanceOf (this : State) (normalizedPos : Point) : R :=
  let dx := x normalizedPos * canvasWidth this - centerX this in
  let dy := y normalizedPos * canvasHeight this - centerY this in
  sqrt (dx * dx + dy * dy).

Definition segmentIndexOf (this : State) (normalizedPos : Point) : Z :=
  let dx := x normalizedPos * canvasWidth this - centerX this in
  let dy := y normalizedPos * canvasHeight this - centerY this in
  let angle := Js.atan2 dx (- dy) in
  let angle := if Js.lt angle 0 then angle + PI * 2 else angle in
  let angle := Js.rem (angle - rotationOffset this + PI * 2) (PI * 2) in
  Js.floor (angle / (PI * 2 / 12)).

(** *** The overlay's own state: visibility, fade, rotation

    The canvas, the drawing calls, the glitch seeds and the texture are left
    out.  [performance.now()] is the argument [now] of the methods that read
    the clock. *)

(** Animation. *)
Definition FADE_DURATION : R := 200.
Definition ROTATION_DURATION : R := 300.
Definition HIDE_DELAY : R := 1500.   (* delay before hiding after key change (ms) *)

Record View := {
  geometry : State;              (* canvas size, centre, minDim, rotationOffset *)
  visible : bool;
  opacity : R;
  currentKey : string;
  hoveredKey : KeyResult;
  targetRotationOffset : R;
  pinchPosition : option Point;  (* pinch position for the visual indicator *)
  fadeStartTime : option R;
  fadeDirection : Z;             (* 1 = fading in, -1 = fading out *)
  rotationStartTime : option R;
  rotationStartOffset : R;
  hideTimeout : option R         (* the pending timer, with the time it is due *)
}.

(** Field assignments [this.f = v]. *)
Definition set_geometry (v : State) (this : View) : View :=
  {| geometry := v; visible := visible this; opacity := opacity this; currentKey :=
     currentKey this; hoveredKey := hoveredKey this; targetRotationOffset :=
     targetRotationOffset this; pinchPosition := pinchPosition this; fadeStartTime :=
     fadeStartTime this; fadeDirection := fadeDirection this; rotationStartTime :=
     rotationStartTime this; rotationStartOffset := rotationStartOffset this;
     hideTimeout := hideTimeout this |}.

Definition set_visible (v : bool) (this : View) : View :=
  {| geometry := geometry this; visible := v; opacity := opacity this; currentKey :=
     currentKey this; hoveredKey := hoveredKey this; targetRotationOffset :=
     targetRotationOffset this; pinchPosition := pinchPosition this; fadeStartTime :=
     fadeStartTime this; fadeDirection := fadeDirection this; rotationStartTime :=
     rotationStartTime this; rotationStartOffset := rotationStartOffset this;
     hideTimeout := hideTimeout this |}.

Definition set_opacity (v : R) (this : View) : View :=
  {| geometry := geometry this; visible := visible this; opacity := v; currentKey :=
     currentKey this; hoveredKey := hoveredKey this; targetRotationOffset :=
     targetRotationOffset this; pinchPosition := pinchPosition this; fadeStartTime :=
     fadeStartTime this; fadeDirection := fadeDirection this; rotationStartTime :=
     rotationStartTime this; rotationStartOffset := rotationStartOffset this;
     hideTimeout := hideTimeout this |}.

Definition set_currentKey (v : string) (this : View) : View :=
  {| geometry := geometry this; visible := visible this; opacity := opacity this;
     currentKey := v; hoveredKey := hoveredKey this; targetRotationOffset :=
     targetRotationOffset this; pinchPosition := pinchPosition this; fadeStartTime :=
     fadeStartTime this; fadeDirection := fadeDirection this; rotationStartTime :=
     rotationStartTime this; rotationStartOffset := rotationStartOffset this;
     hideTimeout := hideTimeout this |}.

Definition set_hoveredKey (v : KeyResult) (this : View) : View :=
  {| geometry := geometry this; visible := visible this; opacity := opacity this;
     currentKey := currentKey this; hoveredKey := v; targetRotationOffset :=
     targetRotationOffset this; pinchPosition := pinchPosition this; fadeStartTime :=
     fadeStartTime this; fadeDirection := fadeDirection this; rotationStartTime :=
     rotationStartTime this; rotationStartOffset := rotationStartOffset this;
     hideTimeout := hideTimeout this |}.

Definition set_targetRotationOffset (v : R) (this : View) : View :=
  {| geometry := geometry this; visible := visible this; opacity := opacity this;
     currentKey := currentKey this; hoveredKey := hoveredKey this; targetRotationOffset
     := v; pinchPosition := pinchPosition this; fadeStartTime := fadeStartTime this;
     fadeDirection := fadeDirection this; rotationStartTime := rotationStartTime this;
     rotationStartOffset := rotationStartOffset this; hideTimeout := hideTimeout this
     |}.

Definition set_pinchPosition (v : option Point) (this : View) : View :=
  {| geometry := geometry this; visible := visible this; opacity := opacity this;
     currentKey := currentKey this; hoveredKey := hoveredKey this; targetRotationOffset
     := targetRotationOffset this; pinchPosition := v; fadeStartTime := fadeStartTime
     this; fadeDirection := fadeDirection this; rotationStartTime := rotationStartTime
     this; rotationStartOffset := rotationStartOffset this; hideTimeout := hideTimeout
     this |}.

Definition set_fadeStartTime (v : option R) (this : View) : View :=
  {| geometry := geometry this; visible := visible this; opacity := opacity this;
     currentKey := currentKey this; hoveredKey := hoveredKey this; targetRotationOffset
     := targetRotationOffset this; pinchPosition := pinchPosition this; fadeStartTime :=
     v; fadeDirection := fadeDirection this; rotationStartTime := rotationStartTime
     this; rotationStartOffset := rotationStartOffset this; hideTimeout := hideTimeout
     this |}.

Definition set_fadeDirection (v : Z) (this : View) : View :=
  {| geometry := geometry this; visible := visible this; opacity := opacity this;
     currentKey := currentKey this; hoveredKey := hoveredKey this; targetRotationOffset
     := targetRotationOffset this; pinchPosition := pinchPosition this; fadeStartTime :=
     fadeStartTime this; fadeDirection := v; rotationStartTime := rotationStartTime
     this; rotationStartOffset := rotationStartOffset this; hideTimeout := hideTimeout
     this |}.

Definition set_rotationStartTime (v : option R) (this : View) : View :=
  {| geometry := geometry this; visible := visible this; opacity := opacity this;
     currentKey := currentKey this; hoveredKey := hoveredKey this; targetRotationOffset
     := targetRotationOffset this; pinchPosition := pinchPosition this; fadeStartTime :=
     fadeStartTime this; fadeDirection := fadeDirection this; rotationStartTime := v;
     rotationStartOffset := rotationStartOffset this; hideTimeout := hideTimeout this
     |}.

Definition set_rotationStartOffset (v : R) (this : View) : View :=
  {| geometry := geometry this; visible := visible this; opacity := opacity this;
     currentKey := currentKey this; hoveredKey := hoveredKey this; targetRotationOffset
     := targetRotationOffset this; pinchPosition := pinchPosition this; fadeStartTime :=
     fadeStartTime this; fadeDirection := fadeDirection this; rotationStartTime :=
     rotationStartTime this; rotationStartOffset := v; hideTimeout := hideTimeout this
     |}.

Definition set_hideTimeout (v : option R) (this : View) : View :=
  {| geometry := geometry this; visible := visible this; opacity := opacity this;
     currentKey := currentKey this; hoveredKey := hoveredKey this; targetRotationOffset
     := targetRotationOffset this; pinchPosition := pinchPosition this; fadeStartTime :=
     fadeStartTime this; fadeDirection := fadeDirection this; rotationStartTime :=
     rotationStartTime this; rotationStartOffset := rotationStartOffset this;
     hideTimeout := v |}.

Definition set_rotationOffset (v : R) (this : View) : View :=
  set_geometry
    {| canvasWidth := canvasWidth (geometry this);
       canvasHeight := canvasHeight (geometry this);
       centerX := centerX (geometry this); centerY := centerY (geometry this);
       minDim := minDim (geometry this); rotationOffset := v |} this.

(** The overlay as its constructor leaves it. *)
Definition constructedView (innerWidth innerHeight : R) : View :=
  {| geometry := constructed innerWidth innerHeight;
     visible := false; opacity := 0; currentKey := "C"; hoveredKey := Null;
     targetRotationOffset := 0; pinchPosition := None;
     fadeStartTime := None; fadeDirection := 0;
     rotationStartTime := None; rotationStartOffset := 0; hideTimeout := None |}.

(** The [resize] handler. *)
Definition resizeView (innerWidth innerHeight : R) (this : View) : View :=
  set_geometry (resize innerWidth innerHeight (geometry this)) this.

Definition show (now : R) (this : View) : View :=
  if visible this && (fadeDirection this >=? 0)%Z then this
  else
    (* Clear any pending hide timeout *)
    let this :=
      match hideTimeout this with
      | Some _ => set_hideTimeout None this
      | None => this
      end in
    let this := set_visible true this in
    let this := set_fadeDirection 1 this in
    set_fadeStartTime (Some now) this.

Definition hide (now : R) (this : View) : View :=
  if negb (visible this) && (fadeDirection this <=? 0)%Z then this
  else
    let this := set_fadeDirection (-1) this in
    set_fadeStartTime (Some now) this.

(** [hideWithDelay(delay)], called at time [now]: any pending timer is
    cleared and a new one is due [delay] later. *)
Definition hideWithDelay (now delay : R) (this : View) : View :=
  set_hideTimeout (Some (now + delay)) this.

(** The timer's callback, run by the browser at [now]. *)
Definition hideTimeoutCallback (now : R) (this : View) : View :=
  let this := hide now this in
  set_hideTimeout None this.

Definition setPinchPosition (normalizedPos : option Point) (this : View) : View :=
  set_pinchPosition normalizedPos this.

(** [table.indexOf(name)]. *)
Fixpoint indexOf (table : list string) (name : string) : Z :=
  match table with
  | [] => -1
  | key :: rest =>
      if String.eqb key name then 0
      else let i := indexOf rest name in
           if (i =? -1)%Z then -1 else (i + 1)
  end%Z.

Definition getKeyIndex (keyName : string) : Z :=
  (* Find index in major or minor keys array *)
  let index := indexOf MAJOR_KEYS keyName in
  if (index =? -1)%Z then indexOf MINOR_KEYS keyName else index.

Definition setCurrentKey (now : R) (keyName : string) (this : View) : View :=
  if String.eqb keyName (currentKey this) then this
  else
    let this := set_currentKey keyName this in
    (* Calculate rotation offset to put current key at top *)
    let keyIndex := getKeyIndex keyName in
    if negb (keyIndex =? -1)%Z then
      let this := set_rotationStartOffset (rotationOffset (geometry this)) this in
      let this := set_targetRotationOffset (- IZR keyIndex * (PI * 2 / 12)) this in
      set_rotationStartTime (Some now) this
    else this.

Definition setHoveredKey (keyName : KeyResult) (this : View) : View :=
  set_hoveredKey keyName this.

(** The state updates of [render()]. *)
Definition renderFade (now : R) (this : View) : View :=
  match fadeStartTime this with
  | Some start =>
      let elapsed := now - start in
      let progress := Rmin 1 (elapsed / FADE_DURATION) in
      let this :=
        if (fadeDirection this >? 0)%Z then set_opacity progress this
        else set_opacity (1 - progress) this in
      if Js.ge progress 1 then
        let this := set_fadeStartTime None this in
        if (fadeDirection this <? 0)%Z then set_visible false this else this
      else this
  | None => this
  end.

Definition renderRotation (now : R) (this : View) : View :=
  match rotationStartTime this with
  | Some start =>
      let elapsed := now - start in
      let progress := Rmin 1 (elapsed / ROTATION_DURATION) in
      (* Ease out *)
      let eased := 1 - (1 - progress) ^ 3 in
      let this :=
        set_rotationOffset
          (rotationStartOffset this
           + (targetRotationOffset this - rotationStartOffset this) * eased) this in
      if Js.ge progress 1 then
        let this := set_rotationStartTime None this in
        set_rotationOffset (targetRotationOffset this) this
      else this
  | None => this
  end.

Definition render (now : R) (this : View) : View :=
  renderRotation now (renderFade now this).

(** Whether [render] draws the overlay. *)
Definition drawn (this : View) : bool := visible this || Js.gt (opacity this) 0.

(** The hit test of the overlay. *)
Definition keyAt (this : View) (normalizedPos : option Point) : KeyResult :=
  getKeyAtPosition (geometry this) normalizedPos.

(** *** Vocabulary of the statements *)

(** [drawRing]: the angles, on the canvas, at which segment [i] of a ring
    starts and at which its label is drawn. *)
Definition segmentAngle : R := PI * 2 / 12.

Definition startAngle (this : View) (i : Z) : R :=
  IZR i * segmentAngle + rotationOffset (geometry this) - PI / 2 - segmentAngle / 2.

Definition midAngle (this : View) (i : Z) : R := startAngle this i + segmentAngle / 2.

(** The point of the canvas at angle [a] and distance [r] from the
    centre, found as [drawRing] finds the place of a label, in the
    normalized coordinates that the hit test takes. *)
Definition wheelPoint (this : View) (a r : R) : Point :=
  {| x := (centerX (geometry this) + cos a * r) / canvasWidth (geometry this);
     y := (centerY (geometry this) + sin a * r) / canvasHeight (geometry this) |}.

(** The rotation offsets that [setCurrentKey] computes: from eleven
    segments counter-clockwise to none. *)
Definition inTurn (offset : R) : Prop := - (11 * segmentAngle) <= offset <= 0.

(** A key name of one of the two tables, or no key. *)
Definition tableKey (k : KeyResult) : Prop :=
  match k with
  | Key name => In name (MAJOR_KEYS ++ MINOR_KEYS)
  | Null => True
  | Undefined => False
  end.

(** What holds of the overlay at clock time [t]. *)
Definition steady (t : R) (this : View) : Prop :=
  0 <= minDim (geometry this)
  /\ inTurn (rotationOffset (geometry this))
  /\ inTurn (targetRotationOffset this)
  /\ inTurn (rotationStartOffset this)
  /\ 0 <= opacity this <= 1
  /\ (forall start, fadeStartTime this = Some start -> start <= t)
  /\ (forall start, rotationStartTime this = Some start -> start <= t)
  /\ In (currentKey this) (MAJOR_KEYS ++ MINOR_KEYS)
  /\ targetRotationOffset this = - IZR (getKeyIndex (currentKey this)) * (PI * 2 / 12)
  /\ (rotationStartTime this = None ->
      rotationOffset (geometry this) = targetRotationOffset this)
  /\ tableKey (hoveredKey this).

End KeyOverlay.

(** ** src/audioEngine.js *)

Module AudioEngine.

Local Open Scope string_scope.

Inductive STATE :=
| UNINITIALIZED
| INITIALIZING
| INITIALIZED
| ERROR.

Definition STATE_eqb (a b : STATE) : bool :=
  match a, b with
  | UNINITIALIZED, UNINITIALIZED | INITIALIZING, INITIALIZING
  | INITIALIZED, INITIALIZED | ERROR, ERROR => true
  | _, _ => false
  end.

(** Root frequencies for all keys (octave 3). *)
Definition ROOT_FREQUENCIES : list (string * R) :=
  [("C", 130.81); ("C#", 138.59); ("Db", 138.59);
   ("D", 146.83); ("D#", 155.56); ("Eb", 155.56);
   ("E", 164.81); ("F", 174.61); ("F#", 185.00);
   ("Gb", 185.00); ("G", 196.00); ("G#", 207.65);
   ("Ab", 207.65); ("A", 220.00); ("A#", 233.08);
   ("Bb", 233.08); ("B", 246.94)].

(** [ROOT_FREQUENCIES[rootName]]; [None] is [undefined].  The table is
    read by its own 17 keys.  A JavaScript object also answers to the
    names it inherits from [Object.prototype] ([constructor], [toString],
    ...), with a value that is not a number: such names are outside this
    model, and the statements below about key changes speak of the keys
    of the table. *)
Fixpoint lookup (name : string) (table : list (string * R)) : option R :=
  match table with
  | [] => None
  | (k, v) :: rest => if String.eqb k name then Some v else lookup name rest
  end.

(** Interval ratios for chord voicing: root, fifth, octave, third+octave. *)
Definition MAJOR_INTERVALS : list R := [1; 1.5; 2; 2.52].
Definition MINOR_INTERVALS : list R := [1; 1.5; 2; 2.4].

(** *** The synthesis library, as seen from the engine

    Tone.js is an external collaborator.  Its nodes are named by the role
    the engine gives them, and every call the engine makes into the
    library (and every [console.warn]) is appended to the engine's
    [effects], oldest first. *)
Inductive Node :=
| MasterGain | Reverb | StereoWidener | Chorus | Filter | VoiceMixer
| RoundedGain | SaturatedGain
| RoundedVoice (i : nat) | SaturatedVoice (i : nat)
| RoundedLFO (i : nat) | SaturatedLFO (i : nat).

Inductive Effect :=
| ToneStart
| New (n : Node) (options : list (string * Js.Value))
| ToDestination (n : Node)
| Connect (src : Node) (dst : option Node)
| ConnectDetune (src dst : Node)
| Start (n : Node)
| Generate (n : Node)
| RampTo (n : Node) (param : string) (value : Js.Value) (rampTime : R)
| SetProp (n : Node) (prop : string) (value : R)
| ConsoleWarn (message : string).

(** The node fields of the engine. *)
Record Nodes := {
  roundedVoices : list Node;
  saturatedVoices : list Node;
  roundedGain : option Node;
  saturatedGain : option Node;
  roundedLFOs : list Node;
  saturatedLFOs : list Node;
  voiceMixer : option Node;
  filter : option Node;
  chorus : option Node;
  stereoWidener : option Node;
  reverb : option Node;
  masterGain : option Node
}.

(** Where the [async] function [_doInit] is suspended, if it is. *)
Inductive Suspension :=
| NotSuspended
| AwaitToneStart
| AwaitReverbGenerate.

Record Engine := {
  nodes : Nodes;
  state : STATE;
  initPromise : bool;                 (* [false] is [null] *)
  pendingIntensity : option R;
  pendingWidth : option R;
  lastValidIntensity : R;
  lastValidWidth : R;
  currentKey : string;
  isMinor : bool;
  glideTime : R;
  baseFreqs : list R;
  suspended : Suspension;
  effects : list Effect
}.

(** The constructor's field values. *)
Definition constructed : Engine := {|
  nodes := {| roundedVoices := []; saturatedVoices := [];
              roundedGain := None; saturatedGain := None;
              roundedLFOs := []; saturatedLFOs := [];
              voiceMixer := None; filter := None; chorus := None;
              stereoWidener := None; reverb := None; masterGain := None |};
  state := UNINITIALIZED;
  initPromise := false;
  pendingIntensity := None;
  pendingWidth := None;
  lastValidIntensity := 0;
  lastValidWidth := 0;
  currentKey := "C";
  isMinor := false;
  glideTime := 0.5;
  baseFreqs := [130.81; 196.00; 261.63; 329.63];
  suspended := NotSuspended;
  effects := []
|}.

(** Field assignments [this.f = v]. *)
Definition set_nodes (v : Nodes) (this : Engine) : Engine :=
  {| nodes := v; state := state this; initPromise := initPromise this;
     pendingIntensity := pendingIntensity this; pendingWidth := pendingWidth this;
     lastValidIntensity := lastValidIntensity this; lastValidWidth := lastValidWidth this;
     currentKey := currentKey this; isMinor := isMinor this; glideTime := glideTime this;
     baseFreqs := baseFreqs this; suspended := suspended this; effects := effects this |}.

Definition set_state (v : STATE) (this : Engine) : Engine :=
  {| nodes := nodes this; state := v; initPromise := initPromise this;
     pendingIntensity := pendingIntensity this; pendingWidth := pendingWidth this;
     lastValidIntensity := lastValidIntensity this; lastValidWidth := lastValidWidth this;
     currentKey := currentKey this; isMinor := isMinor this; glideTime := glideTime this;
     baseFreqs := baseFreqs this; suspended := suspended this; effects := effects this |}.

Definition set_initPromise (v : bool) (this : Engine) : Engine :=
  {| nodes := nodes this; state := state this; initPromise := v;
     pendingIntensity := pendingIntensity this; pendingWidth := pendingWidth this;
     lastValidIntensity := lastValidIntensity this; lastValidWidth := lastValidWidth this;
     currentKey := currentKey this; isMinor := isMinor this; glideTime := glideTime this;
     baseFreqs := baseFreqs this; suspended := suspended this; effects := effects this |}.

Definition set_pendingIntensity (v : option R) (this : Engine) : Engine :=
  {| nodes := nodes this; state := state this; initPromise := initPromise this;
     pendingIntensity := v; pendingWidth := pendingWidth this;
     lastValidIntensity := lastValidIntensity this; lastValidWidth := lastValidWidth this;
     currentKey := currentKey this; isMinor := isMinor this; glideTime := glideTime this;
     baseFreqs := baseFreqs this; suspended := suspended this; effects := effects this |}.

Definition set_pendingWidth (v : option R) (this : Engine) : Engine :=
  {| nodes := nodes this; state := state this; initPromise := initPromise this;
     pendingIntensity := pendingIntensity this; pendingWidth := v;
     lastValidIntensity := lastValidIntensity this; lastValidWidth := lastValidWidth this;
     currentKey := currentKey this; isMinor := isMinor this; glideTime := glideTime this;
     baseFreqs := baseFreqs this; suspended := suspended this; effects := effects this |}.

Definition set_lastValidIntensity (v : R) (this : Engine) : Engine :=
  {| nodes := nodes this; state := state this; initPromise := initPromise this;
     pendingIntensity := pendingIntensity this; pendingWidth := pendingWidth this;
     lastValidIntensity := v; lastValidWidth := lastValidWidth this;
     currentKey := currentKey this; isMinor := isMinor this; glideTime := glideTime this;
     baseFreqs := baseFreqs this; suspended := suspended this; effects := effects this |}.

Definition set_lastValidWidth (v : R) (this : Engine) : Engine :=
  {| nodes := nodes this; state := state this; initPromise := initPromise this;
     pendingIntensity := pendingIntensity this; pendingWidth := pendingWidth this;
     lastValidIntensity := lastValidIntensity this; lastValidWidth := v;
     currentKey := currentKey this; isMinor := isMinor this; glideTime := glideTime this;
     baseFreqs := baseFreqs this; suspended := suspended this; effects := effects this |}.

(** [this.currentKey], [this.isMinor] and [this.baseFreqs] are assigned
    together, by [setKey] only. *)
Definition set_key (k : string) (m : bool) (f : list R) (this : Engine) : Engine :=
  {| nodes := nodes this; state := state this; initPromise := initPromise this;
     pendingIntensity := pendingIntensity this; pendingWidth := pendingWidth this;
     lastValidIntensity := lastValidIntensity this; lastValidWidth := lastValidWidth this;
     currentKey := k; isMinor := m; glideTime := glideTime this;
     baseFreqs := f; suspended := suspended this; effects := effects this |}.

Definition set_suspended (v : Suspension) (this : Engine) : Engine :=
  {| nodes := nodes this; state := state this; initPromise := initPromise this;
     pendingIntensity := pendingIntensity this; pendingWidth := pendingWidth this;
     lastValidIntensity := lastValidIntensity this; lastValidWidth := lastValidWidth this;
     currentKey := currentKey this; isMinor := isMinor this; glideTime := glideTime this;
     baseFreqs := baseFreqs this; suspended := v; effects := effects this |}.

(** A call into the library, or several in order. *)
Definition emit (es : list Effect) (this : Engine) : Engine :=
  {| nodes := nodes this; state := state this; initPromise := initPromise this;
     pendingIntensity := pendingIntensity this; pendingWidth := pendingWidth this;
     lastValidIntensity := lastValidIntensity this; lastValidWidth := lastValidWidth this;
     currentKey := currentKey this; isMinor := isMinor this; glideTime := glideTime this;
     baseFreqs := baseFreqs this; suspended := suspended this;
     effects := (effects this ++ es)%list |}.

(** *** Fallible methods

    A method either returns or throws; in both cases the assignments made
    so far stay on the object. *)
Inductive Outcome :=
| Return (this : Engine)
| Throw (this : Engine) (error : string).

Definition andThen (o : Outcome) (k : Engine -> Outcome) : Outcome :=
  match o with
  | Return this => k this
  | Throw this error => Throw this error
  end.

Notation "o >>= k" := (andThen o k) (at level 50, left associativity).

(** [node.param.rampTo(value, rampTime)] and [node.prop = value] on a
    node field that may still be [null]. *)
Definition rampTo (node : option Node) (param : string) (value rampTime : R)
    (this : Engine) : Outcome :=
  match node with
  | Some n => Return (emit [RampTo n param (Js.num value) rampTime] this)
  | None => Throw this "TypeError"
  end.

Definition setProp (node : option Node) (prop : string) (value : R)
    (this : Engine) : Outcome :=
  match node with
  | Some n => Return (emit [SetProp n prop value] this)
  | None => Throw this "TypeError"
  end.

(** Convenience getter for backwards compatibility. *)
Definition isInitialized (this : Engine) : bool :=
  STATE_eqb (state this) INITIALIZED.

(** Validate a number, returning fallback if NaN/undefined.  The fallback
    is always one of the two [lastValid] fields, which hold 0 or an
    earlier result of this function: a finite number. *)
Definition _validateNumber (value : Js.Value) (fallback : R) : R :=
  match value with
  | Js.Num n =>
      if Js.isNaN n || negb (Js.isFinite n) then fallback
      else match n with Js.Finite r => r | _ => fallback end
  | _ => fallback          (* typeof value !== 'number' *)
  end.

(** Clamp value to range. *)
Definition _clamp (value min max : R) : R := Rmax min (Rmin max value).

Definition setWidth (widthAmount : Js.Value) (this : Engine) : Outcome :=
  (* Validate input (0-1 range) *)
  let validWidth := _validateNumber widthAmount (lastValidWidth this) in
  let this := set_lastValidWidth validWidth this in
  (* Queue if not initialized *)
  if negb (isInitialized this) then
    Return (set_pendingWidth (Some validWidth) this)
  else
    let w := _clamp validWidth 0 1 in
    (* FatOscillator spread: 10-50 cents (apply to both voice banks) *)
    let spread := 10 + (w * 40) in
    let allVoices := (roundedVoices (nodes this) ++ saturatedVoices (nodes this))%list in
    let this := emit (map (fun voice => SetProp voice "spread" spread) allVoices) this in
    (* Chorus frequency: 1-6 Hz *)
    let chorusFreq := 1 + (w * 5) in
    rampTo (chorus (nodes this)) "frequency" chorusFreq 0.1 this >>= fun this =>
    (* LFO depth: +-2 to +-15 cents (apply to both LFO banks) *)
    let lfoDepth := 2 + (w * 13) in
    let allLFOs := (roundedLFOs (nodes this) ++ saturatedLFOs (nodes this))%list in
    let this :=
      emit (flat_map (fun lfo => [SetProp lfo "min" (- lfoDepth);
                                  SetProp lfo "max" lfoDepth]) allLFOs) this in
    (* Stereo width: 0.3-1.0 *)
    let stereoWidth := 0.3 + (w * 0.7) in
    rampTo (stereoWidener (nodes this)) "width" stereoWidth 0.1 this.

Definition setIntensity (intensityAmount : Js.Value) (this : Engine) : Outcome :=
  (* Validate input (0-1 range) *)
  let validIntensity := _validateNumber intensityAmount (lastValidIntensity this) in
  let this := set_lastValidIntensity validIntensity this in
  (* Queue if not initialized *)
  if negb (isInitialized this) then
    Return (set_pendingIntensity (Some validIntensity) this)
  else
    let i := _clamp validIntensity 0 1 in
    (* Crossfade between voice banks: rounded fades out, saturated fades in *)
    rampTo (roundedGain (nodes this)) "gain" (1 - i) 0.1 this >>= fun this =>
    rampTo (saturatedGain (nodes this)) "gain" i 0.1 this >>= fun this =>
    (* Filter cutoff: 300-5000 Hz *)
    let filterFreq := 300 + (i * 4700) in
    rampTo (filter (nodes this)) "frequency" filterFreq 0.1 this >>= fun this =>
    (* Filter Q: 1-3 *)
    let filterQ := 1 + (i * 2) in
    rampTo (filter (nodes this)) "Q" filterQ 0.1 this >>= fun this =>
    (* Chorus depth: 0.3-0.8 *)
    let chorusDepth := 0.3 + (i * 0.5) in
    setProp (chorus (nodes this)) "depth" chorusDepth this.

(** [voices.forEach((voice, i) => voice.frequency.rampTo(newFreqs[i], t))];
    [newFreqs[i]] past the end of the array is [undefined]. *)
Definition glideVoices (voices : list Node) (newFreqs : list R) (t : R) : list Effect :=
  map (fun '(i, voice) =>
         RampTo voice "frequency"
           match nth_error newFreqs i with
           | Some f => Js.num f
           | None => Js.Undefined
           end t)
      (combine (seq 0 (List.length voices)) voices).

Definition setKey (keyName : string) (this : Engine) : Engine :=
  (* Parse key name (e.g., 'Am' -> root='A', minor=true) *)
  let isMinor := Js.endsWith_m keyName in
  let rootName := if isMinor then Js.slice_0_m1 keyName else keyName in
  (* Get root frequency *)
  match lookup rootName ROOT_FREQUENCIES with
  | None => emit [ConsoleWarn ("Unknown key: " ++ keyName)] this
  | Some rootFreq =>
      (* Calculate chord frequencies *)
      let intervals := if isMinor then MINOR_INTERVALS else MAJOR_INTERVALS in
      let newFreqs := map (fun ratio => rootFreq * ratio) intervals in
      (* Update state *)
      let this := set_key keyName isMinor newFreqs this in
      (* If not initialized, frequencies will be applied on init *)
      if negb (isInitialized this) then this
      else
        (* Glide all oscillators to new frequencies *)
        let this :=
          emit (glideVoices (roundedVoices (nodes this)) newFreqs (glideTime this)) this in
        emit (glideVoices (saturatedVoices (nodes this)) newFreqs (glideTime this)) this
  end.

Definition getCurrentKey (this : Engine) : string := currentKey this.

(** *** Initialization

    [_doInit] is an [async] function with two [await]s.  It is cut at
    them: [_doInit] runs up to [await Tone.start()],
    [_doInit_afterToneStart] from there to [await this.reverb.generate()],
    [_doInit_afterGenerate] to the end of the [try] block ([built] is its
    first part), and [_doInit_catch] is the [catch] block. *)
Definition _doInit (this : Engine) : Engine :=
  set_suspended AwaitToneStart (emit [ToneStart] this).

Definition _doInit_afterToneStart (this : Engine) : Engine :=
  let n := nodes this in
  (* Master gain -> Destination *)
  let this := emit [New MasterGain [("gain", Js.num 0.25)]; ToDestination MasterGain] this in
  (* Reverb -> Master gain (choir ambience) *)
  let this :=
    emit [New Reverb [("decay", Js.num 4); ("wet", Js.num 0.35)];
          Connect Reverb (Some MasterGain)] this in
  let this :=
    set_nodes {| roundedVoices := roundedVoices n; saturatedVoices := saturatedVoices n;
                 roundedGain := roundedGain n; saturatedGain := saturatedGain n;
                 roundedLFOs := roundedLFOs n; saturatedLFOs := saturatedLFOs n;
                 voiceMixer := voiceMixer n; filter := filter n; chorus := chorus n;
                 stereoWidener := stereoWidener n;
                 reverb := Some Reverb; masterGain := Some MasterGain |} this in
  set_suspended AwaitReverbGenerate (emit [Generate Reverb] this).

(** One bank's [baseFreqs.forEach((freq, i) => ...)]: the calls made for
    voice [i]. *)
Definition createVoice (voice lfo : nat -> Node) (type : string) (gain : Node)
    (lfoBase : R) (i : nat) (freq : R) : list Effect :=
  [New (voice i) [("type", Js.Str type); ("frequency", Js.num freq);
                  ("count", Js.num 3); ("spread", Js.num 20)];
   Connect (voice i) (Some gain);
   New (lfo i) [("type", Js.Str "sine"); ("frequency", Js.num (lfoBase + INR i * 0.02));
                ("min", Js.num (-3)); ("max", Js.num 3)];
   ConnectDetune (lfo i) (voice i);
   Start (voice i);
   Start (lfo i)].

Definition createBank (voice lfo : nat -> Node) (type : string) (gain : Node)
    (lfoBase : R) (freqs : list R) : list Effect :=
  flat_map (fun '(i, freq) => createVoice voice lfo type gain lfoBase i freq)
           (combine (seq 0 (List.length freqs)) freqs).

(** The graph construction of [_doInit], from the stereo widener up to and
    including [this.state = INITIALIZED].  The node fields are assigned
    as the nodes are created; no field is read in between except
    [this.reverb], [this.baseFreqs] and the gains just assigned. *)
Definition built (this : Engine) : Engine :=
  let n := nodes this in
  let indices := seq 0 (List.length (baseFreqs this)) in
  let this :=
    emit [ (* Stereo widener -> Reverb *)
           New StereoWidener [("width", Js.num 0.5)];
           Connect StereoWidener (reverb n);
           (* Chorus -> Stereo widener *)
           New Chorus [("frequency", Js.num 2.5); ("delayTime", Js.num 3.5);
                       ("depth", Js.num 0.5); ("wet", Js.num 0.6)];
           Connect Chorus (Some StereoWidener);
           Start Chorus;
           (* Filter -> Chorus *)
           New Filter [("type", Js.Str "lowpass"); ("frequency", Js.num 400);
                       ("Q", Js.num 1.5)];
           Connect Filter (Some Chorus);
           (* Voice mixer -> Filter *)
           New VoiceMixer [("gain", Js.num 0.6)];
           Connect VoiceMixer (Some Filter);
           (* Create gain nodes for dual-channel crossfade *)
           New RoundedGain [("gain", Js.num 1.0)];
           Connect RoundedGain (Some VoiceMixer);
           New SaturatedGain [("gain", Js.num 0.0)];
           Connect SaturatedGain (Some VoiceMixer) ] this in
  (* Create rounded voices (triangle - warm, mellow) *)
  let this :=
    emit (createBank RoundedVoice RoundedLFO "triangle" RoundedGain 0.08
                     (baseFreqs this)) this in
  (* Create saturated voices (sawtooth - bright, aggressive) *)
  let this :=
    emit (createBank SaturatedVoice SaturatedLFO "sawtooth" SaturatedGain 0.09
                     (baseFreqs this)) this in
  let this :=
    set_nodes {| roundedVoices := (roundedVoices n ++ map RoundedVoice indices)%list;
                 saturatedVoices := (saturatedVoices n ++ map SaturatedVoice indices)%list;
                 roundedGain := Some RoundedGain; saturatedGain := Some SaturatedGain;
                 roundedLFOs := (roundedLFOs n ++ map RoundedLFO indices)%list;
                 saturatedLFOs := (saturatedLFOs n ++ map SaturatedLFO indices)%list;
                 voiceMixer := Some VoiceMixer; filter := Some Filter;
                 chorus := Some Chorus; stereoWidener := Some StereoWidener;
                 reverb := reverb n; masterGain := masterGain n |} this in
  set_state INITIALIZED this.

Definition _doInit_afterGenerate (this : Engine) : Outcome :=
  let this := built this in
  (* Apply any queued parameters *)
  (match pendingWidth this with
   | Some w => setWidth (Js.num w) this >>= fun this =>
               Return (set_pendingWidth None this)
   | None => Return this
   end) >>= fun this =>
  (match pendingIntensity this with
   | Some i => setIntensity (Js.num i) this >>= fun this =>
               Return (set_pendingIntensity None this)
   | None => Return this
   end) >>= fun this =>
  Return (set_suspended NotSuspended this).

Definition _doInit_catch (this : Engine) : Engine :=
  let this := set_state ERROR this in
  let this := set_initPromise false this in   (* Allow retry *)
  set_suspended NotSuspended this.

(** The synchronous part of [init()]. *)
Definition init (this : Engine) : Engine :=
  (* Already initialized *)
  if STATE_eqb (state this) INITIALIZED then this
  (* Currently initializing - return existing promise (mutex) *)
  else if STATE_eqb (state this) INITIALIZING && initPromise this then this
  else
    (* Start initialization *)
    let this := set_state INITIALIZING this in
    let this := _doInit this in
    set_initPromise true this.

(** The awaited promise settles: fulfilled ([ok = true]) or rejected. *)
Definition settle (ok : bool) (this : Engine) : Engine :=
  match suspended this with
  | NotSuspended => this
  | AwaitToneStart =>
      if ok then _doInit_afterToneStart this else _doInit_catch this
  | AwaitReverbGenerate =>
      if ok then
        match _doInit_afterGenerate this with
        | Return this => this
        | Throw this _ => _doInit_catch this
        end
      else _doInit_catch this
  end.

(** *** The engine driven from outside *)

(** What can happen to an engine: a call of one of its methods, or the
    promise that [_doInit] awaits settling. *)
Inductive Op :=
| CallInit
| Settle (ok : bool)
| CallSetIntensity (v : Js.Value)
| CallSetWidth (v : Js.Value)
| CallSetKey (keyName : string).

(** The engine after the operation; a setter that throws leaves the
    engine as it was at the throw. *)
Definition after (o : Outcome) : Engine :=
  match o with Return this => this | Throw this _ => this end.

Definition step (this : Engine) (op : Op) : Engine :=
  match op with
  | CallInit => init this
  | Settle ok => settle ok this
  | CallSetIntensity v => after (setIntensity v this)
  | CallSetWidth v => after (setWidth v this)
  | CallSetKey k => setKey k this
  end.

Definition run (this : Engine) (ops : list Op) : Engine := fold_left step ops this.

(** The engines that a program can hold: a new one, driven by any
    sequence of operations. *)
Definition reachable (this : Engine) : Prop := exists ops, this = run constructed ops.

(** *** Vocabulary of the statements *)

(** The calls that [setIntensity] makes for a clamped intensity [i]. *)
Definition intensityMapping (i : R) : list Effect :=
  [RampTo RoundedGain "gain" (Js.num (1 - i)) 0.1;
   RampTo SaturatedGain "gain" (Js.num i) 0.1;
   RampTo Filter "frequency" (Js.num (300 + (i * 4700))) 0.1;
   RampTo Filter "Q" (Js.num (1 + (i * 2))) 0.1;
   SetProp Chorus "depth" (0.3 + (i * 0.5))].

(** The calls that [setWidth] makes for a clamped width [w], given the
    engine's voices and LFOs. *)
Definition widthMapping (n : Nodes) (w : R) : list Effect :=
  (map (fun voice => SetProp voice "spread" (10 + (w * 40)))
       (roundedVoices n ++ saturatedVoices n)
   ++ [RampTo Chorus "frequency" (Js.num (1 + (w * 5))) 0.1]
   ++ flat_map (fun lfo => [SetProp lfo "min" (- (2 + (w * 13)));
                            SetProp lfo "max" (2 + (w * 13))])
               (roundedLFOs n ++ saturatedLFOs n)
   ++ [RampTo StereoWidener "width" (Js.num (0.3 + (w * 0.7))) 0.1])%list.

(** The audio parameters that intensity drives: the two bank gains, the
    filter's cutoff and resonance, the chorus depth. *)
Definition isIntensityEffect (e : Effect) : bool :=
  match e with
  | RampTo RoundedGain param _ _ | RampTo SaturatedGain param _ _ =>
      String.eqb param "gain"
  | RampTo Filter param _ _ => String.eqb param "frequency" || String.eqb param "Q"
  | SetProp Chorus prop _ => String.eqb prop "depth"
  | _ => false
  end.

Definition intensityEffects (es : list Effect) : list Effect :=
  List.filter isIntensityEffect es.

(** A value that [_validateNumber] rejects: not a number, NaN, or
    infinite. *)
Definition invalid (v : Js.Value) : bool :=
  match v with
  | Js.Num (Js.Finite _) => false
  | _ => true
  end.

(** The node fields that the setters dereference, once [_doInit] has
    built the graph. *)
Definition wired (n : Nodes) : Prop :=
  roundedGain n = Some RoundedGain
  /\ saturatedGain n = Some SaturatedGain
  /\ filter n = Some Filter
  /\ chorus n = Some Chorus
  /\ stereoWidener n = Some StereoWidener.

(** An initialized engine has no [_doInit] in flight and its graph is
    built. *)
Definition settled (this : Engine) : Prop :=
  isInitialized this = true ->
  suspended this = NotSuspended /\ wired (nodes this).

Definition isOtherThanSetIntensity (op : Op) : bool :=
  match op with CallSetIntensity _ => false | _ => true end.

(** *** More vocabulary *)

(** The root name that [setKey] looks up, and whether it finds it. *)
Definition rootNameOf (keyName : string) : string :=
  if Js.endsWith_m keyName then Js.slice_0_m1 keyName else keyName.

Definition known (keyName : string) : bool :=
  match lookup (rootNameOf keyName) ROOT_FREQUENCIES with
  | Some _ => true
  | None => false
  end.

(** The chord that [setKey] computes for a key name with root frequency
    [rootFreq]. *)
Definition chordOf (keyName : string) (rootFreq : R) : list R :=
  map (fun ratio => rootFreq * ratio)
      (if Js.endsWith_m keyName then MINOR_INTERVALS else MAJOR_INTERVALS).

Definition isWarning (e : Effect) : bool :=
  match e with ConsoleWarn _ => true | _ => false end.

Definition isCallSetKey (op : Op) : bool :=
  match op with CallSetKey _ => true | _ => false end.

(** The ranges that the comments of [setIntensity] and [setWidth] give for
    the audio parameters they drive: gains 0 to 1, filter cutoff 300 to
    5000 Hz, filter Q 1 to 3, chorus depth 0.3 to 0.8, oscillator spread 10
    to 50 cents, chorus frequency 1 to 6 Hz, LFO depth 2 to 15 cents on
    either side, stereo width 0.3 to 1.  Calls on other parameters are not
    constrained. *)
Definition within (lo hi : R) (value : Js.Value) : Prop :=
  match value with
  | Js.Num (Js.Finite v) => lo <= v <= hi
  | _ => False
  end.

Definition inRange (e : Effect) : Prop :=
  match e with
  | RampTo RoundedGain param value _ | RampTo SaturatedGain param value _ =>
      if String.eqb param "gain" then within 0 1 value else True
  | RampTo Filter param value _ =>
      if String.eqb param "frequency" then within 300 5000 value
      else if String.eqb param "Q" then within 1 3 value
      else True
  | RampTo Chorus param value _ =>
      if String.eqb param "frequency" then within 1 6 value else True
  | RampTo StereoWidener param value _ =>
      if String.eqb param "width" then within 0.3 1 value else True
  | SetProp Chorus prop value =>
      if String.eqb prop "depth" then 0.3 <= value <= 0.8 else True
  | SetProp (RoundedVoice _) prop value | SetProp (SaturatedVoice _) prop value =>
      if String.eqb prop "spread" then 10 <= value <= 50 else True
  | SetProp (RoundedLFO _) prop value | SetProp (SaturatedLFO _) prop value =>
      if String.eqb prop "min" then -15 <= value <= -2
      else if String.eqb prop "max" then 2 <= value <= 15
      else True
  | _ => True
  end.

(** The voices and LFOs of a bank of four. *)
Definition four (node : nat -> Node) : list Node := map node (seq 0 4).

(** What [setKey] asks of the eight voices for a chord [freqs], with the
    glide time of the constructor. *)
Definition glides (freqs : list R) : list Effect :=
  (map (fun '(i, f) => RampTo (RoundedVoice i) "frequency" (Js.num f) 0.5)
       (combine (seq 0 4) freqs)
   ++ map (fun '(i, f) => RampTo (SaturatedVoice i) "frequency" (Js.num f) 0.5)
          (combine (seq 0 4) freqs))%list.

(** The shape of an engine that a program can hold: four chord tones; no
    voice before initialization; after it four voices and four LFOs in each
    bank and an empty queue. *)
Definition shaped (this : Engine) : Prop :=
  List.length (baseFreqs this) = 4%nat
  /\ glideTime this = 0.5
  /\ if isInitialized this
     then roundedVoices (nodes this) = four RoundedVoice
          /\ saturatedVoices (nodes this) = four SaturatedVoice
          /\ roundedLFOs (nodes this) = four RoundedLFO
          /\ saturatedLFOs (nodes this) = four SaturatedLFO
          /\ pendingIntensity this = None
          /\ pendingWidth this = None
     else roundedVoices (nodes this) = []
          /\ saturatedVoices (nodes this) = []
          /\ roundedLFOs (nodes this) = []
          /\ saturatedLFOs (nodes this) = [].

(** The two replays at the end of [_doInit], on an engine whose graph is
    built: what the queued width and the queued intensity leave behind. *)
Definition replayedWidth (this : Engine) : Engine :=
  match pendingWidth this with
  | Some w =>
      set_pendingWidth None
        (emit (widthMapping (nodes this) (_clamp w 0 1)) (set_lastValidWidth w this))
  | None => this
  end.

Definition replayedIntensity (this : Engine) : Engine :=
  match pendingIntensity this with
  | Some i =>
      set_pendingIntensity None
        (emit (intensityMapping (_clamp i 0 1)) (set_lastValidIntensity i this))
  | None => this
  end.

(** The effect chain that [_doInit] creates after the reverb is ready,
    from the stereo widener to the two bank gains. *)
Definition chainCreated (reverb : option Node) : list Effect :=
  [New StereoWidener [("width", Js.num 0.5)];
   Connect StereoWidener reverb;
   New Chorus [("frequency", Js.num 2.5); ("delayTime", Js.num 3.5);
               ("depth", Js.num 0.5); ("wet", Js.num 0.6)];
   Connect Chorus (Some StereoWidener);
   Start Chorus;
   New Filter [("type", Js.Str "lowpass"); ("frequency", Js.num 400);
               ("Q", Js.num 1.5)];
   Connect Filter (Some Chorus);
   New VoiceMixer [("gain", Js.num 0.6)];
   Connect VoiceMixer (Some Filter);
   New RoundedGain [("gain", Js.num 1.0)];
   Connect RoundedGain (Some VoiceMixer);
   New SaturatedGain [("gain", Js.num 0.0)];
   Connect SaturatedGain (Some VoiceMixer)].

(** The two banks that [_doInit] creates for a chord [freqs]. *)
Definition voicesCreated (freqs : list R) : list Effect :=
  (createBank RoundedVoice RoundedLFO "triangle" RoundedGain 0.08 freqs
   ++ createBank SaturatedVoice SaturatedLFO "sawtooth" SaturatedGain 0.09 freqs)%list.

(** The key of the last [setKey] call of a sequence, [start] when there is
    none. *)
Definition lastKeySet (start : string) (ops : list Op) : string :=
  fold_left (fun key op => match op with CallSetKey k => k | _ => key end) ops start.

Definition setsKnownKeys (ops : list Op) : Prop :=
  Forall (fun op => match op with CallSetKey k => known k = true | _ => True end) ops.

(** What the engine holds about its key: the name, the mode and the chord. *)
Definition keyOf (this : Engine) : string * bool * list R :=
  (currentKey this, isMinor this, baseFreqs this).

Definition quiet (e : Effect) : Prop := isWarning e = false.

(** How many times [Tone.start()] was called. *)
Definition countToneStart (es : list Effect) : nat :=
  List.length (List.filter (fun e => match e with ToneStart => true | _ => false end) es).

(** One [_doInit] at most is in flight, and exactly while the state is
    [INITIALIZING]. *)
Definition inFlight (this : Engine) : Prop :=
  match state this with
  | INITIALIZING => initPromise this = true /\ suspended this <> NotSuspended
  | _ => suspended this = NotSuspended
  end.

End AudioEngine.

(** ** src/unnamed/part_000: the effect parameters of [AsciiRenderer] *)

Module AsciiRenderer.

Record State := {
  saturationMultiplier : R;   (* 0 = grayscale by default *)
  baseDrift : R;              (* small constant warble *)
  driftAmount : R
}.

Definition constructed : State :=
  {| saturationMultiplier := 0; baseDrift := 2; driftAmount := 2 |}.

(** Set saturation from left hand rotation. *)
Definition setSaturation (leftRotation : R) (this : State) : State :=
  {| saturationMultiplier := Rabs leftRotation / 45;
     baseDrift := baseDrift this; driftAmount := driftAmount this |}.

(** Set drift from right hand rotation. *)
Definition setDrift (rightRotation : R) (this : State) : State :=
  {| saturationMultiplier := saturationMultiplier this;
     baseDrift := baseDrift this;
     driftAmount := baseDrift this + Rabs rightRotation / 3.6 |}.

(** *** Colour of a pixel *)

(** ASCII characters from dark to light. *)
Definition chars : string :=
  (" .'`^" ++ String "034"%char
     ",:;Il!i><~+_-?][}{1)(|/tfjrxnuvczXYUJCLQ0OZmwqpdbkhao*#MW&8%B@$")%string.

(** [a === b] on numbers, and [Math.round]. *)
Definition same (a b : R) : bool := if Req_dec_T a b then true else false.
Definition round (v : R) : Z := Js.floor (v + 0.5).

(** RGB to HSL conversion.  The [switch] tries [r], [g] and [b] in this
    order; [max] is one of the three, so the last case is the one left. *)
Definition rgbToHsl (r g b : R) : R * R * R :=
  let r := r / 255 in
  let g := g / 255 in
  let b := b / 255 in
  let max := Rmax (Rmax r g) b in
  let min := Rmin (Rmin r g) b in
  let l := (max + min) / 2 in
  if same max min then (0, 0, l)
  else
    let d := max - min in
    let s := if Js.gt l 0.5 then d / (2 - max - min) else d / (max + min) in
    let h :=
      if same max r then ((g - b) / d + (if Js.lt g b then 6 else 0)) / 6
      else if same max g then ((b - r) / d + 2) / 6
      else ((r - g) / d + 4) / 6 in
    (h, s, l).

(** The same function with its divisions watched.  In JavaScript [a / b]
    with [b] zero is [NaN] or an infinity, which would then flow into the
    colour of the span: [divide] gives [None] there, and [rgbToHslFinite]
    is [None] as soon as one of the divisions that the call evaluates has
    a zero divisor. *)
Definition divide (a b : R) : option R :=
  if same b 0 then None else Some (a / b).

Definition finite {A B : Type} (m : option A) (k : A -> option B) : option B :=
  match m with
  | Some a => k a
  | None => None
  end.

Definition rgbToHslFinite (r g b : R) : option (R * R * R) :=
  finite (divide r 255) (fun r =>
  finite (divide g 255) (fun g =>
  finite (divide b 255) (fun b =>
  let max := Rmax (Rmax r g) b in
  let min := Rmin (Rmin r g) b in
  finite (divide (max + min) 2) (fun l =>
  if same max min then Some (0, 0, l)
  else
    let d := max - min in
    finite (if Js.gt l 0.5 then divide d (2 - max - min) else divide d (max + min))
      (fun s =>
    finite
      (if same max r then
         finite (divide (g - b) d) (fun q =>
         divide (q + (if Js.lt g b then 6 else 0)) 6)
       else if same max g then
         finite (divide (b - r) d) (fun q => divide (q + 2) 6)
       else
         finite (divide (r - g) d) (fun q => divide (q + 4) 6))
      (fun h => Some (h, s, l))))))).

Definition hue2rgb (p q t : R) : R :=
  let t := if Js.lt t 0 then t + 1 else t in
  let t := if Js.gt t 1 then t - 1 else t in
  if Js.lt t (1 / 6) then p + (q - p) * 6 * t
  else if Js.lt t (1 / 2) then q
  else if Js.lt t (2 / 3) then p + (q - p) * (2 / 3 - t) * 6
  else p.

(** HSL to RGB conversion. *)
Definition hslToRgb (h s l : R) : Z * Z * Z :=
  let '(r, g, b) :=
    if same s 0 then (l, l, l)
    else
      let q := if Js.lt l 0.5 then l * (1 + s) else l + s - l * s in
      let p := 2 * l - q in
      (hue2rgb p q (h + 1 / 3), hue2rgb p q h, hue2rgb p q (h - 1 / 3)) in
  (round (r * 255), round (g * 255), round (b * 255)).

(** Adjust saturation of RGB color. *)
Definition adjustSaturation (r g b multiplier : R) : Z * Z * Z :=
  let '(h, s, l) := rgbToHsl r g b in
  let newS := Rmin 1 (s * multiplier) in
  hslToRgb h newS l.

(** What [render] computes for one pixel of the frame: the index of its
    character in [chars] and the colour of its span. *)
Definition brightnessOf (r g b : R) : R := (r * 0.299 + g * 0.587 + b * 0.114) / 255.

Definition renderPixel (this : State) (r g b : R) : Z * (Z * Z * Z) :=
  (* Calculate brightness for character selection *)
  let brightness := brightnessOf r g b in
  let charIndex := Js.floor (brightness * (INR (String.length chars) - 1)) in
  (* Apply saturation adjustment (0 = grayscale, >1 = hypersaturated) *)
  let colour :=
    if same (saturationMultiplier this) 0 then
      (* Grayscale: use brightness for all channels *)
      let gray := round (brightness * 255) in
      (gray, gray, gray)
    else adjustSaturation r g b (saturationMultiplier this) in
  (charIndex, colour).

(** A colour channel as the canvas stores it, and as [rgb(...)] takes
    it. *)
Definition channel (v : R) : Prop := 0 <= v <= 255.
Definition byte (v : Z) : Prop := (0 <= v <= 255)%Z.

End AsciiRenderer.

(** ** src/main.js: the gesture callback

    The module-level variables of main.js are the fields of [App].  The
    three components are [null] until the [load] handler creates them; the
    detector, and with it the callback, is created last.  Logging is left
    out. *)

Module Main.

Import HandDetector.

Record App := {
  asciiRenderer : option AsciiRenderer.State;
  audioEngine : option AudioEngine.Engine;
  keyOverlay : option KeyOverlay.View;
  (* Key selection state *)
  currentKey : string;
  hoveredKey : KeyOverlay.KeyResult;
  wasPinching : bool
}.

Definition set_asciiRenderer (v : option AsciiRenderer.State) (this : App) : App :=
  {| asciiRenderer := v; audioEngine := audioEngine this; keyOverlay := keyOverlay this;
     currentKey := currentKey this; hoveredKey := hoveredKey this; wasPinching :=
     wasPinching this |}.

Definition set_audioEngine (v : option AudioEngine.Engine) (this : App) : App :=
  {| asciiRenderer := asciiRenderer this; audioEngine := v; keyOverlay := keyOverlay this;
     currentKey := currentKey this; hoveredKey := hoveredKey this; wasPinching :=
     wasPinching this |}.

Definition set_keyOverlay (v : option KeyOverlay.View) (this : App) : App :=
  {| asciiRenderer := asciiRenderer this; audioEngine := audioEngine this; keyOverlay :=
     v; currentKey := currentKey this; hoveredKey := hoveredKey this; wasPinching :=
     wasPinching this |}.

Definition set_currentKey (v : string) (this : App) : App :=
  {| asciiRenderer := asciiRenderer this; audioEngine := audioEngine this; keyOverlay :=
     keyOverlay this; currentKey := v; hoveredKey := hoveredKey this; wasPinching :=
     wasPinching this |}.

Definition set_hoveredKey (v : KeyOverlay.KeyResult) (this : App) : App :=
  {| asciiRenderer := asciiRenderer this; audioEngine := audioEngine this; keyOverlay :=
     keyOverlay this; currentKey := currentKey this; hoveredKey := v; wasPinching :=
     wasPinching this |}.

Definition set_wasPinching (v : bool) (this : App) : App :=
  {| asciiRenderer := asciiRenderer this; audioEngine := audioEngine this; keyOverlay :=
     keyOverlay this; currentKey := currentKey this; hoveredKey := hoveredKey this;
     wasPinching := v |}.

(** The variables after the [load] handler has run without an exception, in
    a window of the given inner size. *)
Definition loaded (innerWidth innerHeight : R) : App :=
  {| asciiRenderer := Some AsciiRenderer.constructed;
     audioEngine := Some AudioEngine.constructed;
     keyOverlay := Some (KeyOverlay.constructedView innerWidth innerHeight);
     currentKey := "C"; hoveredKey := KeyOverlay.Null; wasPinching := false |}.

(** Validate rotation value, defaulting to 0 if invalid. *)
Definition validateRotation (value : Js.Value) : R :=
  match value with
  | Js.Num n =>
      if Js.isNaN n || negb (Js.isFinite n) then 0
      else match n with Js.Finite r => r | _ => 0 end
  | _ => 0
  end.

(** The callback returns, or an exception leaves it. *)
Inductive Result :=
| Done (app : App)
| Thrown (app : App).

Definition appAfter (r : Result) : App :=
  match r with Done app => app | Thrown app => app end.

(** [wasPinching && hoveredKey && hoveredKey !== currentKey], with the key
    to change to. *)
Definition keyChange (app : App) : option string :=
  if wasPinching app then
    match hoveredKey app with
    | KeyOverlay.Key name =>
        if negb (String.eqb name "") && negb (String.eqb name (currentKey app))
        then Some name else None
    | _ => None
    end
  else None.

Definition onOverlay (f : KeyOverlay.View -> KeyOverlay.View) (app : App) : App :=
  match keyOverlay app with
  | Some overlay => set_keyOverlay (Some (f overlay)) app
  | None => app
  end.

(** Hand results callback, called at time [now]. *)
Definition onHandResults (now : R) (results : Event.t) (app : App) : Result :=
  (* Validate inputs before use *)
  let leftRotation := validateRotation (Js.num (Event.leftRotation results)) in
  let rightRotation := validateRotation (Js.num (Event.rightRotation results)) in
  (* Handle pinch gesture for key selection *)
  let isPinching := Event.active (Event.pinch results) in
  if isPinching then
    match Event.position (Event.pinch results) with
    | None => Thrown app      (* reading [x] of [null] *)
    | Some position =>
        (* Flip x coordinate to match mirrored video *)
        let flippedPosition := {| x := 1 - x position; y := y position |} in
        (* Show overlay and track hovered key *)
        let app :=
          match keyOverlay app with
          | Some overlay =>
              let overlay := KeyOverlay.show now overlay in
              let overlay := KeyOverlay.setPinchPosition (Some flippedPosition) overlay in
              let hovered := KeyOverlay.keyAt overlay (Some flippedPosition) in
              let overlay := KeyOverlay.setHoveredKey hovered overlay in
              set_hoveredKey hovered (set_keyOverlay (Some overlay) app)
          | None => app
          end in
        Done (set_wasPinching isPinching app)
    end
  else
    (* Pinch just released - check if we should change key *)
    let app :=
      match keyChange app with
      | Some key =>
          (* Confirm key change *)
          let app := set_currentKey key app in
          let app :=
            match audioEngine app with
            | Some engine => set_audioEngine (Some (AudioEngine.setKey key engine)) app
            | None => app
            end in
          (* Hide overlay after delay to show new key *)
          onOverlay (fun overlay =>
                       KeyOverlay.hideWithDelay now KeyOverlay.HIDE_DELAY
                         (KeyOverlay.setCurrentKey now key overlay)) app
      | None =>
          if wasPinching app then
            (* No key change, hide immediately *)
            onOverlay (KeyOverlay.hide now) app
          else app
      end in
    (* Clear pinch position *)
    let app := onOverlay (KeyOverlay.setPinchPosition None) app in
    let app := set_hoveredKey KeyOverlay.Null app in
    (* Only update effects when not pinching *)
    let app :=
      match asciiRenderer app with
      | Some renderer =>
          set_asciiRenderer
            (Some (AsciiRenderer.setDrift rightRotation
                     (AsciiRenderer.setSaturation leftRotation renderer))) app
      | None => app
      end in
    match audioEngine app with
    | Some engine =>
        (* Map left rotation (0-90) to intensity (0-1), right rotation to width *)
        match AudioEngine.andThen
                (AudioEngine.setIntensity (Js.num (Rabs leftRotation / 90)) engine)
                (AudioEngine.setWidth (Js.num (Rabs rightRotation / 90))) with
        | AudioEngine.Return engine =>
            Done (set_wasPinching isPinching (set_audioEngine (Some engine) app))
        | AudioEngine.Throw engine _ => Thrown (set_audioEngine (Some engine) app)
        end
    | None => Done (set_wasPinching isPinching app)
    end.

(** [startAudio], up to its [await]: the click or key handler. *)
Definition startAudio (app : App) : App :=
  match audioEngine app with
  | None => app
  | Some engine =>
      (* Skip if already initialized *)
      if AudioEngine.isInitialized engine then app
      else set_audioEngine (Some (AudioEngine.init engine)) app
  end.

(** What happens to the page after loading. *)
Inductive Input :=
| Gesture (now : R) (results : Event.t)   (* the detector calls the callback *)
| HideTimer (now : R)                     (* the overlay's timer runs out *)
| OverlayRender (now : R)                 (* [keyOverlay.render()] *)
| WindowResize (innerWidth innerHeight : R)
| StartAudio                              (* click or key press *)
| AudioSettled (ok : bool).               (* the promise awaited by [_doInit] settles *)

(** The time an input reads from the clock, if it reads it. *)
Definition clock (i : Input) : option R :=
  match i with
  | Gesture now _ | HideTimer now | OverlayRender now => Some now
  | _ => None
  end.

Definition step (app : App) (i : Input) : App :=
  match i with
  | Gesture now results => appAfter (onHandResults now results app)
  | HideTimer now =>
      onOverlay (fun overlay =>
                   match KeyOverlay.hideTimeout overlay with
                   | Some due =>
                       if Js.ge now due then KeyOverlay.hideTimeoutCallback now overlay
                       else overlay
                   | None => overlay
                   end) app
  | OverlayRender now => onOverlay (KeyOverlay.render now) app
  | WindowResize w h => onOverlay (KeyOverlay.resizeView w h) app
  | StartAudio => startAudio app
  | AudioSettled ok =>
      match audioEngine app with
      | Some engine => set_audioEngine (Some (AudioEngine.settle ok engine)) app
      | None => app
      end
  end.

Definition run (app : App) (inputs : list Input) : App := fold_left step inputs app.

(** The detector's events: what a started detector hands to the callback. *)
Definition detected (results : Event.t) : Prop :=
  exists this now hands,
    HandDetector.reachable this
    /\ emitted (onResults this now hands) = Some results.

(** The inputs that can occur: gestures come from the detector, and a
    window has no negative size. *)
Definition possible (i : Input) : Prop :=
  match i with
  | Gesture _ results => detected results
  | WindowResize innerWidth innerHeight => 0 <= innerWidth /\ 0 <= innerHeight
  | _ => True
  end.

(** The clock after an input, [t] being the clock before it. *)
Definition clockAfter (t : R) (i : Input) : R :=
  match clock i with Some now => now | None => t end.

(** The pages that can be observed at time [t]: loaded in a window of some
    size, then driven by the detector, the browser and the user, with a
    clock that never runs backwards. *)
Inductive reachableAt : R -> App -> Prop :=
| at_load (t innerWidth innerHeight : R) :
    0 <= innerWidth -> 0 <= innerHeight ->
    reachableAt t (loaded innerWidth innerHeight)
| at_step (t : R) (app : App) (i : Input) :
    reachableAt t app ->
    possible i ->
    t <= clockAfter t i ->
    reachableAt (clockAfter t i) (step app i).

Definition reachable (app : App) : Prop := exists t, reachableAt t app.

(** The detector and the page together: [onResults] processes a frame and
    hands its event to the callback, which reads the clock at [later]. *)
Definition deliver (later : R) (f : Frame) (system : HandDetector.State * App)
    : HandDetector.State * App :=
  let out := onResults (fst system) (time f) (hands f) in
  (next out,
   match emitted out with
   | Some results => appAfter (onHandResults later results (snd system))
   | None => snd system
   end).

(** The event that a detector in state [this] publishes, for a frame of
    [n] hands. *)
Definition published (this : HandDetector.State) (n : nat) : Event.t :=
  {| Event.handsDetected := n;
     Event.leftRotation := lastLeftRotation this;
     Event.rightRotation := lastRightRotation this;
     Event.pinch := {| Event.active := pinchActive this;
                       Event.position := pinchPosition this;
                       Event.hand := pinchHand this |} |}.

(** Flip x coordinate to match mirrored video. *)
Definition flipped (position : Point) : Point :=
  {| x := 1 - x position; y := y position |}.

(** The event of a frame without hands, on a detector that has not seen
    a fist yet, and a page that has received it after a click. *)
Definition idleEvent : Event.t :=
  {| Event.handsDetected := 0;
     Event.leftRotation := 0;
     Event.rightRotation := 0;
     Event.pinch := {| Event.active := false; Event.position := None;
                       Event.hand := None |} |}.

Definition samplePage : App :=
  run (loaded 800 600) [StartAudio; Gesture 16 idleEvent].

(** What holds of the page at clock time [t]: the three components are
    there, they agree on the current key, the engine has not warned, and
    the overlay is steady. *)
Definition consistent (t : R) (app : App) : Prop :=
  exists renderer engine overlay,
    asciiRenderer app = Some renderer
    /\ audioEngine app = Some engine
    /\ keyOverlay app = Some overlay
    /\ AudioEngine.reachable engine
    /\ Forall AudioEngine.quiet (AudioEngine.effects engine)
    /\ AudioEngine.currentKey engine = currentKey app
    /\ KeyOverlay.currentKey overlay = currentKey app
    /\ KeyOverlay.steady t overlay
    /\ KeyOverlay.tableKey (hoveredKey app).

End Main.

(** ** Theorems *)

Section NumericFacts.

Lemma lt_true (a b : R) : a < b -> Js.lt a b = true.
Proof. intros H. unfold Js.lt. destruct (Rlt_dec a b); [reflexivity | contradiction]. Qed.

Lemma lt_false (a b : R) : b <= a -> Js.lt a b = false.
Proof. intros H. unfold Js.lt. destruct (Rlt_dec a b); [lra | reflexivity]. Qed.

Lemma gt_true (a b : R) : b < a -> Js.gt a b = true.
Proof. intros H. unfold Js.gt. destruct (Rgt_dec a b); [reflexivity | lra]. Qed.

Lemma gt_false (a b : R) : a <= b -> Js.gt a b = false.
Proof. intros H. unfold Js.gt. destruct (Rgt_dec a b); [lra | reflexivity]. Qed.

Lemma ge_true (a b : R) : b <= a -> Js.ge a b = true.
Proof. intros H. unfold Js.ge. destruct (Rge_dec a b); [reflexivity | lra]. Qed.

Lemma ge_false (a b : R) : a < b -> Js.ge a b = false.
Proof. intros H. unfold Js.ge. destruct (Rge_dec a b); [lra | reflexivity]. Qed.

Lemma atan_nonpos (t : R) : t <= 0 -> atan t <= 0.
Proof.
  intros [Ht | ->]; [| rewrite atan_0; lra].
  left. rewrite <- atan_0. apply atan_increasing. exact Ht.
Qed.

Lemma atan_pos (t : R) : 0 < t -> 0 < atan t.
Proof. intros Ht. rewrite <- atan_0. apply atan_increasing. exact Ht. Qed.

(** [Math.atan2] stays within a half turn on either side. *)
Lemma atan2_range (dy dx : R) : - PI <= Js.atan2 dy dx <= PI.
Proof.
  pose proof PI_RGT_0 as Hpi.
  pose proof (atan_bound (dy / dx)) as [Hlo Hhi].
  unfold Js.atan2.
  destruct (Rlt_dec 0 dx); [lra |].
  destruct (Rlt_dec dx 0) as [Hneg |].
  - assert (Hinv : / dx < 0) by (apply Rinv_lt_0_compat; exact Hneg).
    destruct (Rle_dec 0 dy) as [Hy | Hy].
    + assert (Hq : atan (dy / dx) <= 0).
      { apply atan_nonpos. unfold Rdiv. nra. }
      lra.
    + assert (Hq : 0 < atan (dy / dx)).
      { apply atan_pos. unfold Rdiv. nra. }
      lra.
  - destruct (Rlt_dec 0 dy); [lra |].
    destruct (Rlt_dec dy 0); lra.
Qed.

(** Radians to degrees. *)
Lemma degrees_range (a : R) : - PI <= a <= PI -> -180 <= a * (180 / PI) <= 180.
Proof.
  intros [Hlo Hhi]. pose proof PI_RGT_0 as Hpi.
  assert (Hk : 0 < 180 / PI) by (apply Rdiv_lt_0_compat; lra).
  assert (Hpk : PI * (180 / PI) = 180) by (field; lra).
  split; nra.
Qed.

End NumericFacts.

Section Classifier.

Import HandDetector.

Lemma wrappedAngle_range (landmarks : Landmarks) :
  -180 < wrappedAngle landmarks <= 180.
Proof.
  unfold wrappedAngle.
  set (dx := x (landmarks 12%nat) - x (landmarks 0%nat)).
  set (dy := y (landmarks 12%nat) - y (landmarks 0%nat)).
  pose proof (degrees_range _ (atan2_range dy dx)) as [Hlo Hhi].
  rewrite (lt_false _ (-180)) by lra.
  unfold Js.gt. destruct (Rgt_dec _ 180); lra.
Qed.

(** C6. For every landmark set the rotation classifier returns a value in
    [-90, 90]: the angle from [Math.atan2], turned by +90 degrees, is
    wrapped into (-180, 180] and the result is that angle clamped to
    [-90, 90]. *)
Theorem calculateHandRotation_clamped (landmarks : Landmarks) :
  -180 < wrappedAngle landmarks <= 180
  /\ calculateHandRotation landmarks = Rmax (-90) (Rmin 90 (wrappedAngle landmarks))
  /\ -90 <= calculateHandRotation landmarks <= 90.
Proof.
  split; [apply wrappedAngle_range |].
  split; [reflexivity |].
  unfold calculateHandRotation. split.
  - apply Rmax_l.
  - apply Rmax_lub; [lra | apply Rmin_l].
Qed.

(** The middle fingertip directly below the wrist (same x, larger y in
    image coordinates) is the input at which the unwrapped angle reaches
    180 degrees; the classifier returns 90 there. *)
Lemma calculateHandRotation_tip_below_wrist (landmarks : Landmarks) :
  x (landmarks 12%nat) = x (landmarks 0%nat) ->
  y (landmarks 0%nat) < y (landmarks 12%nat) ->
  calculateHandRotation landmarks = 90.
Proof.
  intros Hx Hy. pose proof PI_RGT_0 as Hpi.
  unfold calculateHandRotation, wrappedAngle.
  replace (x (landmarks 12%nat) - x (landmarks 0%nat)) with 0 by lra.
  unfold Js.atan2.
  destruct (Rlt_dec 0 0); [lra |].
  destruct (Rlt_dec 0 (y (landmarks 12%nat) - y (landmarks 0%nat))); [| lra].
  replace (PI / 2 * (180 / PI) + 90) with 180 by (field; lra).
  rewrite (lt_false 180 (-180)) by lra.
  rewrite (gt_false 180 180) by lra.
  rewrite Rmin_left by lra. rewrite Rmax_right by lra. reflexivity.
Qed.

End Classifier.

(** ** The gesture state machine *)

Section GestureLoop.

Import HandDetector.

Lemma lastHand_snoc (p : Hand -> bool) (results : list Hand) (h : Hand) :
  lastHand p (results ++ [h]) = if p h then Some h else lastHand p results.
Proof. unfold lastHand. rewrite fold_left_app. reflexivity. Qed.

Lemma latestRotation_snoc (p : Hand -> bool) (results : list Hand) (h : Hand) (old : R) :
  latestRotation p (results ++ [h]) old =
  if p h then calculateHandRotation (handLandmarks h)
  else latestRotation p results old.
Proof. unfold latestRotation. rewrite lastHand_snoc. destruct (p h); reflexivity. Qed.

Lemma existsb_snoc (p : Hand -> bool) (results : list Hand) (h : Hand) :
  existsb p (results ++ [h]) = existsb p results || p h.
Proof. rewrite existsb_app. simpl. rewrite orb_false_r. reflexivity. Qed.

(** What the [forEach] loop leaves behind: the three detection flags, the
    pinch candidate of the last pinching hand, and the raw rotations of
    the last fist on either side. *)
Lemma forEach_spec (this : State) (results : list Hand) :
  fold_left forEachHand results (this, locals0) =
  (set_hand2Rotation (latestRotation isRightFist results (hand2Rotation this))
     (set_hand1Rotation (latestRotation isLeftFist results (hand1Rotation this)) this),
   {| leftFistDetected := existsb isLeftFist results;
      rightFistDetected := existsb isRightFist results;
      pinchDetected := existsb isPinching results;
      pinchData := option_map pinchDataOf (lastHand isPinching results) |}).
Proof.
  induction results as [| h results IH] using rev_ind.
  - destruct this; reflexivity.
  - rewrite fold_left_app, IH. cbn [fold_left].
    rewrite !latestRotation_snoc, !existsb_snoc, lastHand_snoc.
    unfold forEachHand, isLeftFist, isRightFist, isPinching.
    cbn [leftFistDetected rightFistDetected pinchDetected pinchData].
    destruct (isFist (handLandmarks h)), (isPinch (handLandmarks h)),
      (String.eqb (label (handedness h)) "Left");
      cbn [andb negb orb option_map];
      rewrite ?orb_false_r, ?orb_true_r; reflexivity.
Qed.

(** Each debouncer block, as three assignments. *)
Lemma processLeftFist_eq (now : R) (detected : bool) (this : State) :
  processLeftFist now detected this =
  let start' :=
    if detected then
      match left (fistHoldStart this) with None => Some now | Some start => Some start end
    else None in
  let active' :=
    if detected then
      match left (fistHoldStart this) with
      | None => left (fistActive this)
      | Some start => left (fistActive this) || Js.ge (now - start) HOLD_DURATION_MS
      end
    else false in
  let rotation' :=
    if detected && active' then hand1Rotation this else lastLeftRotation this in
  set_lastLeftRotation rotation'
    (set_fistActive_left active' (set_fistHoldStart_left start' this)).
Proof.
  unfold processLeftFist.
  destruct this as [h1 h2 ll lr ini ndc mx pa pp ph [hl hr] phs [al ar] pc].
  destruct detected; [| reflexivity].
  destruct hl as [start |]; cbn.
  - destruct al; cbn; [reflexivity |].
    destruct (Js.ge (now - start) HOLD_DURATION_MS); reflexivity.
  - destruct al; reflexivity.
Qed.

Lemma processRightFist_eq (now : R) (detected : bool) (this : State) :
  processRightFist now detected this =
  let start' :=
    if detected then
      match right (fistHoldStart this) with None => Some now | Some start => Some start end
    else None in
  let active' :=
    if detected then
      match right (fistHoldStart this) with
      | None => right (fistActive this)
      | Some start => right (fistActive this) || Js.ge (now - start) HOLD_DURATION_MS
      end
    else false in
  let rotation' :=
    if detected && active' then hand2Rotation this else lastRightRotation this in
  set_lastRightRotation rotation'
    (set_fistActive_right active' (set_fistHoldStart_right start' this)).
Proof.
  unfold processRightFist.
  destruct this as [h1 h2 ll lr ini ndc mx pa pp ph [hl hr] phs [al ar] pc].
  destruct detected; [| reflexivity].
  destruct hr as [start |]; cbn.
  - destruct ar; cbn; [reflexivity |].
    destruct (Js.ge (now - start) HOLD_DURATION_MS); reflexivity.
  - destruct ar; reflexivity.
Qed.

Lemma processPinch_eq (now : R) (detected : bool) (data : option PinchData)
    (this : State) :
  processPinch now detected data this =
  let start' :=
    if detected then
      match pinchHoldStart this with None => Some now | Some start => Some start end
    else None in
  let confirmed' :=
    if detected then
      match pinchHoldStart this with
      | None => false
      | Some start => pinchActiveConfirmed this || Js.ge (now - start) HOLD_DURATION_MS
      end
    else false in
  set_pinch confirmed'
    (if confirmed' then option_map position data else None)
    (if confirmed' then option_map hand data else None)
    (set_pinchActiveConfirmed confirmed' (set_pinchHoldStart start' this)).
Proof.
  unfold processPinch.
  destruct this as [h1 h2 ll lr ini ndc mx pa pp ph hs phs fa pc].
  destruct detected; [| reflexivity].
  destruct phs as [start |]; cbn; [| reflexivity].
  destruct pc; cbn; [reflexivity |].
  destruct (Js.ge (now - start) HOLD_DURATION_MS); reflexivity.
Qed.

(** The detector after a processed frame: the three debouncers applied
    to the loop's result, then the assignments of [onResults]. *)
Lemma onResults_next (this : State) (now : R) (results : list Hand) :
  isInitialized this = true ->
  exists n,
    next (onResults this now results) =
    let looped :=
      set_hand2Rotation (latestRotation isRightFist results (hand2Rotation this))
        (set_hand1Rotation (latestRotation isLeftFist results (hand1Rotation this)) this) in
    let debounced :=
      processPinch now (existsb isPinching results)
        (option_map pinchDataOf (lastHand isPinching results))
        (processRightFist now (existsb isRightFist results)
           (processLeftFist now (existsb isLeftFist results) looped)) in
    set_noDetectionCount n
      (set_hand2Rotation (lastRightRotation debounced)
         (set_hand1Rotation (lastLeftRotation debounced) debounced)).
Proof.
  intros Hinit. unfold onResults, getHandRotationAngle.
  rewrite Hinit, forEach_spec. cbn [negb].
  cbn [leftFistDetected rightFistDetected pinchDetected pinchData left right].
  destruct (Nat.eqb (List.length results) 0); eexists; reflexivity.
Qed.

Section OneFrame.

Variables (this : State) (now : R) (results : list Hand).
Hypothesis Hinit : isInitialized this = true.

Let out := onResults this now results.
Let this' := next out.

Ltac projection :=
  subst this' out;
  destruct (onResults_next this now results Hinit) as [n ->];
  cbv zeta;
  rewrite processPinch_eq, processRightFist_eq, processLeftFist_eq;
  reflexivity.

Lemma frame_isInitialized : isInitialized this' = true.
Proof. rewrite <- Hinit. projection. Qed.

(** A slot's timer after the frame. *)
Lemma frame_holdStart (slot : Slot) :
  holdStartOf slot this' =
  if rawPresent slot results then
    match holdStartOf slot this with
    | None => Some now
    | Some start => Some start
    end
  else None.
Proof. destruct slot; projection. Qed.

(** A slot's confirmation flag after the frame. *)
Lemma frame_confirmed (slot : Slot) :
  confirmedOf slot this' =
  if rawPresent slot results then
    match holdStartOf slot this with
    | None => match slot with Pinch => false | _ => confirmedOf slot this end
    | Some start => confirmedOf slot this || Js.ge (now - start) HOLD_DURATION_MS
    end
  else false.
Proof. destruct slot; projection. Qed.

(** The published pinch follows the pinch slot's flag. *)
Lemma frame_pinchActive : pinchActive this' = pinchActiveConfirmed this'.
Proof. projection. Qed.

Lemma frame_live (slot : Slot) : liveOf slot this' = confirmedOf slot this'.
Proof. destruct slot; [reflexivity | reflexivity | apply frame_pinchActive]. Qed.

Lemma frame_pinchPosition :
  pinchPosition this' =
  if pinchActive this'
  then option_map position (option_map pinchDataOf (lastHand isPinching results))
  else None.
Proof. projection. Qed.

Lemma frame_pinchHand :
  pinchHand this' =
  if pinchActive this'
  then option_map hand (option_map pinchDataOf (lastHand isPinching results))
  else None.
Proof. projection. Qed.

(** A hand's published rotation after the frame: the raw rotation of
    the frame's last fist on that side if the slot is confirmed, the old
    published value otherwise. *)
Lemma frame_rotation (side : Side) :
  publishedRotation side this' =
  if rawPresent (fistSlot side) results && confirmedOf (fistSlot side) this'
  then latestRotation (rawOn (fistSlot side)) results
         match side with
         | OnLeft => hand1Rotation this
         | OnRight => hand2Rotation this
         end
  else publishedRotation side this.
Proof. destruct side; projection. Qed.

(** [onResults] copies the published values into [hand1Rotation] and
    [hand2Rotation]. *)
Lemma frame_handRotation (side : Side) :
  match side with
  | OnLeft => hand1Rotation this'
  | OnRight => hand2Rotation this'
  end = publishedRotation side this'.
Proof. destruct side; projection. Qed.

(** The Gesture Event carries the published values. *)
Lemma frame_emitted :
  emitted out =
  Some {| Event.handsDetected := List.length results;
          Event.leftRotation := lastLeftRotation this';
          Event.rightRotation := lastRightRotation this';
          Event.pinch := {| Event.active := pinchActive this';
                            Event.position := pinchPosition this';
                            Event.hand := pinchHand this' |} |}.
Proof.
  subst this' out. unfold onResults, getHandRotationAngle.
  rewrite Hinit. cbn [negb].
  destruct (fold_left forEachHand results (this, locals0)) as [looped loc].
  destruct (Nat.eqb (List.length results) 0); reflexivity.
Qed.

End OneFrame.

Lemma lastHand_present (p : Hand -> bool) (results : list Hand) :
  existsb p results = true ->
  exists h, lastHand p results = Some h /\ p h = true /\ In h results.
Proof.
  induction results as [| h results IH] using rev_ind; [discriminate |].
  rewrite existsb_snoc, lastHand_snoc. intros Hex.
  destruct (p h) eqn:Hp.
  - exists h. repeat split; [exact Hp | apply in_or_app; right; left; reflexivity].
  - rewrite orb_false_r in Hex. destruct (IH Hex) as (h' & Hl & Hp' & Hin).
    exists h'. repeat split; [exact Hl | exact Hp' | apply in_or_app; left; exact Hin].
Qed.

Lemma frames_snoc (this : State) (fs : list Frame) (f : Frame) :
  frames this (fs ++ [f]) = frame (frames this fs) f.
Proof. unfold frames. rewrite fold_left_app. reflexivity. Qed.

Lemma frames_isInitialized (fs : list Frame) (this : State) :
  isInitialized this = true -> isInitialized (frames this fs) = true.
Proof.
  revert this. induction fs as [| f fs IH]; intros this Hinit; [exact Hinit |].
  apply IH. apply frame_isInitialized. exact Hinit.
Qed.

Lemma reachable_isInitialized (this : State) :
  reachable this -> isInitialized this = true.
Proof. intros [fs ->]. apply frames_isInitialized. reflexivity. Qed.

(** A slot without a running timer is not confirmed. *)
Lemma reachable_idle (slot : Slot) (this : State) :
  reachable this -> holdStartOf slot this = None -> confirmedOf slot this = false.
Proof.
  intros [fs ->]. induction fs as [| f fs IH] using rev_ind.
  - destruct slot; reflexivity.
  - rewrite frames_snoc. unfold frame.
    assert (Hinit : isInitialized (frames started fs) = true)
      by (apply frames_isInitialized; reflexivity).
    rewrite frame_holdStart, frame_confirmed by exact Hinit.
    destruct (rawPresent slot (hands f)); [| reflexivity].
    destruct (holdStartOf slot (frames started fs)); discriminate.
Qed.

(** While the raw gesture stays, the timer keeps its start and the slot is
    confirmed exactly when the hold duration has elapsed. *)
Lemma held_slot (slot : Slot) (t0 : R) (fs : list Frame) :
  forall (this : State) (tcur : R),
    isInitialized this = true ->
    holdStartOf slot this = Some t0 ->
    confirmedOf slot this = Js.ge (tcur - t0) HOLD_DURATION_MS ->
    ascending tcur fs ->
    Forall (fun f => rawPresent slot (hands f) = true) fs ->
    holdStartOf slot (frames this fs) = Some t0
    /\ confirmedOf slot (frames this fs) = Js.ge (lastTime tcur fs - t0) HOLD_DURATION_MS.
Proof.
  induction fs as [| f fs IH]; intros this tcur Hinit Hstart Hconf Hasc Hraw.
  - split; assumption.
  - destruct Hasc as [Hle Hasc]. inversion Hraw as [| ? ? Hf Hfs]; subst.
    change (frames this (f :: fs)) with (frames (frame this f) fs).
    change (lastTime tcur (f :: fs)) with (lastTime (time f) fs).
    apply IH; try assumption.
    + apply frame_isInitialized. exact Hinit.
    + unfold frame. rewrite frame_holdStart by exact Hinit.
      rewrite Hf, Hstart. reflexivity.
    + unfold frame. rewrite frame_confirmed by exact Hinit.
      rewrite Hf, Hstart, Hconf.
      unfold Js.ge, HOLD_DURATION_MS.
      destruct (Rge_dec (tcur - t0) 450), (Rge_dec (time f - t0) 450);
        try reflexivity; lra.
Qed.

(** The same, from the frame in which the gesture appears. *)
Lemma hold_from_idle (slot : Slot) (this : State) (f1 : Frame) (rest : list Frame) :
  isInitialized this = true ->
  holdStartOf slot this = None ->
  confirmedOf slot this = false ->
  Forall (fun f => rawPresent slot (hands f) = true) (f1 :: rest) ->
  ascending (time f1) rest ->
  holdStartOf slot (frames this (f1 :: rest)) = Some (time f1)
  /\ confirmedOf slot (frames this (f1 :: rest)) =
     Js.ge (lastTime (time f1) rest - time f1) HOLD_DURATION_MS.
Proof.
  intros Hinit Hstart Hconf Hraw Hasc.
  inversion Hraw as [| ? ? Hf Hfs]; subst.
  change (frames this (f1 :: rest)) with (frames (frame this f1) rest).
  apply held_slot; try assumption.
  - apply frame_isInitialized. exact Hinit.
  - unfold frame. rewrite frame_holdStart by exact Hinit.
    rewrite Hf, Hstart. reflexivity.
  - unfold frame. rewrite frame_confirmed by exact Hinit.
    rewrite Hf, Hstart, Hconf.
    rewrite ge_false by (unfold HOLD_DURATION_MS; lra).
    destruct slot; reflexivity.
Qed.

Lemma frames_live (slot : Slot) (this : State) (f1 : Frame) (rest : list Frame) :
  isInitialized this = true ->
  liveOf slot (frames this (f1 :: rest)) = confirmedOf slot (frames this (f1 :: rest)).
Proof.
  intros Hinit.
  destruct (exists_last (l := f1 :: rest)) as (fs & f & ->); [discriminate |].
  rewrite frames_snoc. apply frame_live.
  apply frames_isInitialized. exact Hinit.
Qed.

(** C7. In each of the three slots, one frame without the raw gesture
    clears the hold timer and the confirmed and live flags; when the
    gesture then reappears and stays, the timer restarts at the frame of
    reappearance and the slot's effect is live exactly in the frames whose
    clock is at least the full hold duration past that restart. *)
Theorem instant_cancel (slot : Slot) (this : State) (f0 f1 : Frame) (rest : list Frame) :
  isInitialized this = true ->
  rawPresent slot (hands f0) = false ->
  Forall (fun f => rawPresent slot (hands f) = true) (f1 :: rest) ->
  ascending (time f1) rest ->
  let cancelled := frame this f0 in
  let resumed := frames cancelled (f1 :: rest) in
  holdStartOf slot cancelled = None
  /\ confirmedOf slot cancelled = false
  /\ liveOf slot cancelled = false
  /\ holdStartOf slot resumed = Some (time f1)
  /\ (liveOf slot resumed = true <->
      HOLD_DURATION_MS <= lastTime (time f1) rest - time f1).
Proof.
  intros Hinit Habsent Hraw Hasc cancelled resumed.
  assert (Hinit' : isInitialized cancelled = true)
    by (apply frame_isInitialized; exact Hinit).
  assert (Hstart : holdStartOf slot cancelled = None).
  { subst cancelled. unfold frame. rewrite frame_holdStart by exact Hinit.
    rewrite Habsent. reflexivity. }
  assert (Hconf : confirmedOf slot cancelled = false).
  { subst cancelled. unfold frame. rewrite frame_confirmed by exact Hinit.
    rewrite Habsent. reflexivity. }
  assert (Hlive : liveOf slot cancelled = false).
  { subst cancelled. unfold frame. rewrite frame_live by exact Hinit.
    exact Hconf. }
  destruct (hold_from_idle slot cancelled f1 rest Hinit' Hstart Hconf Hraw Hasc)
    as [Hstart' Hconf'].
  repeat split; try assumption.
  - subst resumed. rewrite frames_live, Hconf' by exact Hinit'.
    unfold Js.ge. destruct (Rge_dec _ _); [lra | discriminate].
  - intros Hle. subst resumed. rewrite frames_live, Hconf' by exact Hinit'.
    apply ge_true. exact Hle.
Qed.

(** The published rotation while a fist stays: untouched until the slot
    is confirmed, then the raw rotation of the latest frame's fist. *)
Lemma held_rotation (side : Side) (t0 r0 : R) (fs : list Frame) :
  forall (this : State) (tcur : R) (hcur : list Hand),
    isInitialized this = true ->
    holdStartOf (fistSlot side) this = Some t0 ->
    confirmedOf (fistSlot side) this = Js.ge (tcur - t0) HOLD_DURATION_MS ->
    (if Js.ge (tcur - t0) HOLD_DURATION_MS
     then exists h, lastHand (rawOn (fistSlot side)) hcur = Some h
                    /\ publishedRotation side this = calculateHandRotation (handLandmarks h)
     else publishedRotation side this = r0) ->
    ascending tcur fs ->
    Forall (fun f => rawPresent (fistSlot side) (hands f) = true) fs ->
    if Js.ge (lastTime tcur fs - t0) HOLD_DURATION_MS
    then exists h, lastHand (rawOn (fistSlot side)) (lastHands hcur fs) = Some h
                   /\ publishedRotation side (frames this fs)
                      = calculateHandRotation (handLandmarks h)
    else publishedRotation side (frames this fs) = r0.
Proof.
  induction fs as [| f fs IH]; intros this tcur hcur Hinit Hstart Hconf Hrot Hasc Hraw.
  - exact Hrot.
  - destruct Hasc as [Hle Hasc]. inversion Hraw as [| ? ? Hf Hfs]; subst.
    change (frames this (f :: fs)) with (frames (frame this f) fs).
    change (lastTime tcur (f :: fs)) with (lastTime (time f) fs).
    change (lastHands hcur (f :: fs)) with (lastHands (hands f) fs).
    assert (Hconf' : confirmedOf (fistSlot side) (frame this f)
                     = Js.ge (time f - t0) HOLD_DURATION_MS).
    { unfold frame. rewrite frame_confirmed by exact Hinit.
      rewrite Hf, Hstart, Hconf. unfold Js.ge, HOLD_DURATION_MS.
      destruct (Rge_dec (tcur - t0) 450), (Rge_dec (time f - t0) 450);
        try reflexivity; lra. }
    apply IH; try assumption.
    + apply frame_isInitialized. exact Hinit.
    + unfold frame. rewrite frame_holdStart by exact Hinit.
      rewrite Hf, Hstart. reflexivity.
    + unfold frame in *. rewrite frame_rotation by exact Hinit.
      rewrite Hf, Hconf'. cbn [andb].
      destruct (Js.ge (time f - t0) HOLD_DURATION_MS) eqn:Hnow.
      * destruct (lastHand_present _ _ Hf) as (h & Hlast & _).
        exists h. split; [exact Hlast |].
        unfold latestRotation. rewrite Hlast. reflexivity.
      * destruct (Js.ge (tcur - t0) HOLD_DURATION_MS) eqn:Hbefore; [| exact Hrot].
        exfalso. revert Hnow Hbefore. unfold Js.ge, HOLD_DURATION_MS.
        destruct (Rge_dec (tcur - t0) 450), (Rge_dec (time f - t0) 450);
          try discriminate; lra.
Qed.

(** From an idle slot: the published rotation against the time elapsed
    since the fist appeared. *)
Lemma fist_hold_rotation (side : Side) (this : State) (f1 : Frame) (rest : list Frame) :
  reachable this ->
  holdStartOf (fistSlot side) this = None ->
  Forall (fun f => rawPresent (fistSlot side) (hands f) = true) (f1 :: rest) ->
  ascending (time f1) rest ->
  let elapsed := lastTime (time f1) rest - time f1 in
  let this' := frames this (f1 :: rest) in
  (elapsed < HOLD_DURATION_MS ->
   publishedRotation side this' = publishedRotation side this)
  /\ (HOLD_DURATION_MS <= elapsed ->
      exists h, lastHand (rawOn (fistSlot side)) (lastHands (hands f1) rest) = Some h
                /\ publishedRotation side this' = calculateHandRotation (handLandmarks h)).
Proof.
  intros Hreach Hstart Hraw Hasc elapsed this'.
  pose proof (reachable_isInitialized _ Hreach) as Hinit.
  pose proof (reachable_idle _ _ Hreach Hstart) as Hconf.
  inversion Hraw as [| ? ? Hf Hfs]; subst.
  assert (Hconf1 : confirmedOf (fistSlot side) (frame this f1) = false).
  { unfold frame. rewrite frame_confirmed by exact Hinit.
    rewrite Hf, Hstart, Hconf. destruct side; reflexivity. }
  assert (Hzero : Js.ge (time f1 - time f1) HOLD_DURATION_MS = false)
    by (apply ge_false; unfold HOLD_DURATION_MS; lra).
  pose proof (held_rotation side (time f1) (publishedRotation side this) rest
                (frame this f1) (time f1) (hands f1)) as Hheld.
  rewrite Hzero in Hheld.
  assert (Hinv : if Js.ge elapsed HOLD_DURATION_MS
                 then exists h,
                     lastHand (rawOn (fistSlot side)) (lastHands (hands f1) rest) = Some h
                     /\ publishedRotation side this'
                        = calculateHandRotation (handLandmarks h)
                 else publishedRotation side this' = publishedRotation side this).
  { apply Hheld; try assumption.
    - apply frame_isInitialized. exact Hinit.
    - unfold frame. rewrite frame_holdStart by exact Hinit.
      rewrite Hf, Hstart. reflexivity.
    - unfold frame in *. rewrite frame_rotation by exact Hinit.
      rewrite Hconf1, andb_false_r. reflexivity. }
  split; intros Hel.
  - rewrite ge_false in Hinv by exact Hel. exact Hinv.
  - rewrite ge_true in Hinv by exact Hel. exact Hinv.
Qed.

(** C3. A fist that appears on one hand while that hand's slot is idle
    and then stays in every frame: in each frame whose clock is less than
    the hold duration past the first one, that hand's published rotation
    is what it was before the fist appeared; in each frame at or past the
    hold duration it is the rotation classified for that hand's fist in
    that very frame. *)
Theorem hold_to_activate (side : Side) (this : State) (f1 : Frame) (rest : list Frame) :
  reachable this ->
  holdStartOf (fistSlot side) this = None ->
  Forall (fun f => rawPresent (fistSlot side) (hands f) = true) (f1 :: rest) ->
  ascending (time f1) rest ->
  let elapsed := lastTime (time f1) rest - time f1 in
  let this' := frames this (f1 :: rest) in
  (elapsed < HOLD_DURATION_MS ->
   publishedRotation side this' = publishedRotation side this)
  /\ (HOLD_DURATION_MS <= elapsed ->
      exists h, lastHand (rawOn (fistSlot side)) (lastHands (hands f1) rest) = Some h
                /\ publishedRotation side this' = calculateHandRotation (handLandmarks h)).
Proof. exact (fist_hold_rotation side this f1 rest). Qed.

(** *** The sample hands, classified *)

Lemma pinchingAt_isFist (p : Point) : isFist (pinchingAt p) = false.
Proof.
  unfold isFist, pinchingAt, fingerTips, fingerMCPs. cbn [foldedFingers].
  rewrite !gt_false by lra. reflexivity.
Qed.

Lemma pinchingAt_isPinch (p : Point) : isPinch (pinchingAt p) = true.
Proof.
  unfold isPinch. rewrite pinchingAt_isFist. unfold pinchingAt, PINCH_THRESHOLD.
  replace ((x p - x p) * (x p - x p) + (y p - y p) * (y p - y p)) with 0 by ring.
  rewrite sqrt_0, lt_true by lra. reflexivity.
Qed.

Lemma pinchingAt_position (p : Point) : getPinchPosition (pinchingAt p) = p.
Proof.
  unfold getPinchPosition, pinchingAt. destruct p as [px py]. cbn [x y].
  f_equal; field.
Qed.

Lemma fistDown_isFist : isFist fistDown = true.
Proof.
  unfold isFist, fistDown, fingerTips, fingerMCPs.
  cbn [foldedFingers existsb Nat.eqb orb y].
  rewrite !gt_true by lra. reflexivity.
Qed.

Lemma fistDown_isPinch : isPinch fistDown = false.
Proof. unfold isPinch. rewrite fistDown_isFist. apply andb_false_r. Qed.

Lemma fistDown_rotation : calculateHandRotation fistDown = 90.
Proof.
  apply calculateHandRotation_tip_below_wrist;
    unfold fistDown, fingerTips; cbn [existsb Nat.eqb orb x y]; lra.
Qed.

Lemma left_fistDown_raw : isLeftFist (handOf "Left" fistDown) = true.
Proof.
  unfold isLeftFist, handOf. cbn [handLandmarks handedness label].
  rewrite fistDown_isFist, fistDown_isPinch. reflexivity.
Qed.

Lemma pinching_raw (side : string) (p : Point) :
  isPinching (handOf side (pinchingAt p)) = true.
Proof. apply pinchingAt_isPinch. Qed.

Lemma pinching_not_fist (side : string) (p : Point) :
  isLeftFist (handOf side (pinchingAt p)) = false
  /\ isRightFist (handOf side (pinchingAt p)) = false.
Proof.
  unfold isLeftFist, isRightFist, handOf. cbn [handLandmarks].
  rewrite pinchingAt_isFist. split; reflexivity.
Qed.

(** [instant_cancel] on a run of the started detector: an empty frame,
    then a left fist at 100 ms and again at 600 ms. *)
Lemma instant_cancel_witness :
  let fist := {| time := 100; hands := [handOf "Left" fistDown] |} in
  let later := {| time := 600; hands := [handOf "Left" fistDown] |} in
  let cancelled := frame started {| time := 0; hands := [] |} in
  let resumed := frames cancelled [fist; later] in
  holdStartOf LeftFist cancelled = None
  /\ confirmedOf LeftFist cancelled = false
  /\ liveOf LeftFist cancelled = false
  /\ holdStartOf LeftFist resumed = Some 100
  /\ (liveOf LeftFist resumed = true <-> HOLD_DURATION_MS <= 600 - 100).
Proof.
  apply (instant_cancel LeftFist started {| time := 0; hands := [] |}
           {| time := 100; hands := [handOf "Left" fistDown] |}
           [{| time := 600; hands := [handOf "Left" fistDown] |}]).
  - reflexivity.
  - reflexivity.
  - repeat constructor; cbn [hands rawPresent rawOn existsb];
      rewrite left_fistDown_raw; reflexivity.
  - cbn [ascending time]. split; [lra | exact I].
Defined.

(** [hold_to_activate] on a run of the started detector: a left fist at
    0 ms, 449 ms and 451 ms.  The published rotation is still 0 at 449 ms
    and is the fist's 90 degrees at 451 ms. *)
Lemma hold_to_activate_witness :
  let fist t := {| time := t; hands := [handOf "Left" fistDown] |} in
  lastLeftRotation (frames started [fist 0; fist 449]) = 0
  /\ lastLeftRotation (frames started [fist 0; fist 449; fist 451]) = 90.
Proof.
  intros fist.
  assert (Hraw : forall t, rawPresent LeftFist (hands (fist t)) = true).
  { intros t. cbn [fist hands rawPresent rawOn existsb].
    rewrite left_fistDown_raw. reflexivity. }
  assert (Hreach : reachable started) by (exists []; reflexivity).
  split.
  - destruct (hold_to_activate OnLeft started (fist 0) [fist 449]) as [Hbefore _].
    + exact Hreach.
    + reflexivity.
    + repeat constructor; apply Hraw.
    + cbn [ascending fist time]. split; [lra | exact I].
    + apply Hbefore. cbn [lastTime fold_left fist time]. unfold HOLD_DURATION_MS. lra.
  - destruct (hold_to_activate OnLeft started (fist 0) [fist 449; fist 451])
      as [_ Hafter].
    + exact Hreach.
    + reflexivity.
    + repeat constructor; apply Hraw.
    + cbn [ascending fist time]. repeat split; lra.
    + destruct Hafter as (h & Hlast & Hrot).
      * cbn [lastTime fold_left fist time]. unfold HOLD_DURATION_MS. lra.
      * unfold lastHand in Hlast.
        cbn [lastHands fold_left fist hands fistSlot rawOn] in Hlast.
        rewrite left_fistDown_raw in Hlast. injection Hlast as <-.
        cbn [publishedRotation] in Hrot. rewrite Hrot.
        apply fistDown_rotation.
Defined.

(** *** Pinch and rotation in one frame *)

(** A published rotation changes in a frame only through a hand of that
    frame that is a fist on that side, is not itself pinching, and whose
    fist slot is confirmed; the new value is that hand's rotation. *)
Lemma rotation_update_source (side : Side) (this : State) (now : R)
    (results : list Hand) :
  isInitialized this = true ->
  let this' := next (onResults this now results) in
  publishedRotation side this' = publishedRotation side this
  \/ exists h, In h results
               /\ rawOn (fistSlot side) h = true
               /\ isPinching h = false
               /\ confirmedOf (fistSlot side) this' = true
               /\ publishedRotation side this' = calculateHandRotation (handLandmarks h).
Proof.
  intros Hinit this'. subst this'.
  rewrite frame_rotation by exact Hinit.
  destruct (rawPresent (fistSlot side) results) eqn:Hraw; [| left; reflexivity].
  destruct (confirmedOf (fistSlot side) (next (onResults this now results))) eqn:Hconf;
    [| left; reflexivity].
  right. destruct (lastHand_present _ _ Hraw) as (h & Hlast & Hh & Hin).
  exists h. cbn [andb]. unfold latestRotation. rewrite Hlast.
  repeat split; try assumption; try reflexivity.
  destruct side; cbn [fistSlot rawOn] in Hh;
    unfold isLeftFist, isRightFist, isPinching in *;
    destruct (isPinch (handLandmarks h)); [| reflexivity | | reflexivity];
    rewrite andb_false_r in Hh; discriminate.
Qed.

(** C1, as the code has it.  In a processed frame whose Gesture Event has
    [pinch.active = true], each published rotation is either left as it
    was or updated from a hand of that frame that is a fist on that side,
    is not itself pinching, and whose fist slot is confirmed: the new
    value is the rotation that [calculateHandRotation] gives for that
    hand.  The pinch does not suspend the update: whenever the frame has
    such a fist on a side and that side's slot is confirmed, the side's
    rotation is that of the frame's last such hand.  When every hand of
    the frame is pinching, neither rotation is updated. *)
Theorem pinch_suspends_own_hand_only (this : State) (now : R) (results : list Hand)
    (e : Event.t) :
  isInitialized this = true ->
  emitted (onResults this now results) = Some e ->
  Event.active (Event.pinch e) = true ->
  let this' := next (onResults this now results) in
  (forall side,
      publishedRotation side this' = publishedRotation side this
      \/ exists h, In h results
                   /\ rawOn (fistSlot side) h = true
                   /\ isPinching h = false
                   /\ confirmedOf (fistSlot side) this' = true
                   /\ publishedRotation side this'
                      = calculateHandRotation (handLandmarks h))
  /\ (forall side,
        rawPresent (fistSlot side) results = true ->
        confirmedOf (fistSlot side) this' = true ->
        exists h, lastHand (rawOn (fistSlot side)) results = Some h
                  /\ publishedRotation side this'
                     = calculateHandRotation (handLandmarks h))
  /\ ((forall h, In h results -> isPinching h = true) ->
      lastLeftRotation this' = lastLeftRotation this
      /\ lastRightRotation this' = lastRightRotation this
      /\ Event.leftRotation e = lastLeftRotation this
      /\ Event.rightRotation e = lastRightRotation this).
Proof.
  intros Hinit Hev Hactive this'.
  assert (Hsrc : forall side,
             publishedRotation side this' = publishedRotation side this
             \/ exists h, In h results
                          /\ rawOn (fistSlot side) h = true
                          /\ isPinching h = false
                          /\ confirmedOf (fistSlot side) this' = true
                          /\ publishedRotation side this'
                             = calculateHandRotation (handLandmarks h))
    by (intros side; apply rotation_update_source; exact Hinit).
  split; [exact Hsrc |].
  split.
  { intros side Hraw Hconf. subst this'.
    rewrite frame_rotation by exact Hinit. rewrite Hraw, Hconf. cbn [andb].
    destruct (lastHand_present _ _ Hraw) as (h & Hlast & _ & _).
    exists h. split; [exact Hlast |].
    unfold latestRotation. rewrite Hlast. reflexivity. }
  intros Hall.
  assert (Hkeep : forall side,
             publishedRotation side this' = publishedRotation side this).
  { intros side. destruct (Hsrc side) as [Heq | (h & Hin & _ & Hnp & _)];
      [exact Heq |].
    rewrite (Hall h Hin) in Hnp. discriminate. }
  rewrite frame_emitted in Hev by exact Hinit. injection Hev as <-.
  cbn [Event.leftRotation Event.rightRotation].
  pose proof (Hkeep OnLeft) as Hl. pose proof (Hkeep OnRight) as Hr.
  cbn [publishedRotation] in Hl, Hr. fold this'.
  repeat split; assumption.
Qed.

(** Two frames, 450 ms apart, with the same hands: the pinch slot after
    the second. *)
Lemma pinch_confirmed_after_hold (results : list Hand) :
  rawPresent Pinch results = true ->
  let before := frame started {| time := 0; hands := results |} in
  isInitialized before = true
  /\ pinchActive (next (onResults before 450 results)) = true.
Proof.
  intros Hraw before.
  assert (Hinit : isInitialized before = true)
    by (apply frame_isInitialized; reflexivity).
  split; [exact Hinit |].
  rewrite frame_pinchActive by exact Hinit.
  destruct (hold_from_idle Pinch started {| time := 0; hands := results |}
              [{| time := 450; hands := results |}]) as [_ Hconf];
    try reflexivity.
  - repeat constructor; exact Hraw.
  - cbn [ascending time]. split; [lra | exact I].
  - cbn [confirmedOf lastTime fold_left time] in Hconf.
    rewrite ge_true in Hconf by (unfold HOLD_DURATION_MS; lra).
    exact Hconf.
Qed.

(** C1 fails on the code: with the right hand pinching and the left hand
    holding a fist, both for 450 ms, the second frame's event has
    [pinch.active = true] and yet [lastLeftRotation] goes from 0 to 90 in
    that frame. *)
Lemma pinch_active_yet_rotation_updated :
  let results := [handOf "Right" (pinchingAt {| x := 0.5; y := 0.5 |});
                  handOf "Left" fistDown] in
  let before := frame started {| time := 0; hands := results |} in
  let out := onResults before 450 results in
  option_map (fun e => Event.active (Event.pinch e)) (emitted out) = Some true
  /\ lastLeftRotation before = 0
  /\ lastLeftRotation (next out) = 90.
Proof.
  intros results before out.
  assert (Hpinch : rawPresent Pinch results = true).
  { cbn [results rawPresent rawOn existsb]. rewrite pinching_raw. reflexivity. }
  assert (Hfist : rawPresent LeftFist results = true).
  { cbn [results rawPresent rawOn existsb].
    rewrite (proj1 (pinching_not_fist _ _)), left_fistDown_raw. reflexivity. }
  assert (Hlast : lastHand isLeftFist results = Some (handOf "Left" fistDown)).
  { unfold lastHand. cbn [results fold_left].
    rewrite (proj1 (pinching_not_fist _ _)), left_fistDown_raw. reflexivity. }
  assert (Hreach : reachable started) by (exists []; reflexivity).
  destruct (pinch_confirmed_after_hold results Hpinch) as [Hinit Hactive].
  fold before in Hinit, Hactive. fold out in Hactive.
  repeat split.
  - subst out. rewrite frame_emitted by exact Hinit.
    cbn [option_map Event.pinch Event.active]. rewrite Hactive. reflexivity.
  - destruct (fist_hold_rotation OnLeft started {| time := 0; hands := results |} [])
      as [Hbefore _]; try assumption; try reflexivity.
    + repeat constructor; exact Hfist.
    + apply Hbefore. cbn [lastTime fold_left time]. unfold HOLD_DURATION_MS. lra.
  - destruct (fist_hold_rotation OnLeft started {| time := 0; hands := results |}
                [{| time := 450; hands := results |}])
      as [_ Hafter]; try assumption; try reflexivity.
    + repeat constructor; exact Hfist.
    + cbn [ascending time]. split; [lra | exact I].
    + destruct Hafter as (h & Hh & Hrot).
      * cbn [lastTime fold_left time]. unfold HOLD_DURATION_MS. lra.
      * cbn [lastHands fold_left hands fistSlot rawOn] in Hh.
        change (rawOn LeftFist) with isLeftFist in Hh.
        rewrite Hlast in Hh. injection Hh as <-.
        cbn [publishedRotation] in Hrot.
        change (lastLeftRotation (next out) = 90) in Hrot || idtac.
        etransitivity; [exact Hrot | apply fistDown_rotation].
Qed.

(** [pinch_suspends_own_hand_only] on a run of the started detector with
    two hands: the right hand pinches and the left hand holds a fist, both
    for 450 ms.  The pinch is active; the right rotation is left as it
    was, since the only right hand is pinching; the left rotation is the
    left fist's, 90. *)
Lemma pinch_suspends_own_hand_only_witness :
  let results := [handOf "Right" (pinchingAt {| x := 0.5; y := 0.5 |});
                  handOf "Left" fistDown] in
  let before := frame started {| time := 0; hands := results |} in
  let after := next (onResults before 450 results) in
  pinchActive after = true
  /\ lastRightRotation after = lastRightRotation before
  /\ lastLeftRotation after = 90.
Proof.
  intros results before after.
  assert (Hpinch : rawPresent Pinch results = true).
  { cbn [results rawPresent rawOn existsb]. rewrite pinching_raw. reflexivity. }
  assert (Hfist : rawPresent LeftFist results = true).
  { cbn [results rawPresent rawOn existsb].
    rewrite (proj1 (pinching_not_fist _ _)), left_fistDown_raw. reflexivity. }
  assert (Hconf : confirmedOf LeftFist after = true).
  { destruct (hold_from_idle LeftFist started {| time := 0; hands := results |}
                [{| time := 450; hands := results |}]) as [_ Hconf];
      try reflexivity.
    - repeat constructor; exact Hfist.
    - cbn [ascending time]. split; [lra | exact I].
    - cbn [lastTime fold_left time] in Hconf.
      rewrite ge_true in Hconf by (unfold HOLD_DURATION_MS; lra).
      exact Hconf. }
  destruct (pinch_confirmed_after_hold results Hpinch) as [Hinit Hactive].
  fold before in Hinit, Hactive. fold after in Hactive.
  split; [exact Hactive |].
  destruct (pinch_suspends_own_hand_only before 450 results _ Hinit
              (frame_emitted before 450 results Hinit) Hactive)
    as (Hsrc & Hupdate & _).
  fold after in Hsrc, Hupdate.
  split.
  - destruct (Hsrc OnRight) as [Hkeep | (h & Hin & Hright & _)]; [exact Hkeep |].
    cbn [fistSlot rawOn] in Hright.
    destruct Hin as [<- | [<- | []]].
    + rewrite (proj2 (pinching_not_fist _ _)) in Hright. discriminate Hright.
    + unfold isRightFist, handOf in Hright.
      cbn [handedness label handLandmarks] in Hright.
      rewrite andb_false_r in Hright. discriminate Hright.
  - destruct (Hupdate OnLeft Hfist Hconf) as (h & Hlast & Hvalue).
    unfold lastHand in Hlast. cbn [results fold_left fistSlot rawOn] in Hlast.
    rewrite (proj1 (pinching_not_fist _ _)), left_fistDown_raw in Hlast.
    injection Hlast as <-.
    cbn [publishedRotation] in Hvalue. rewrite Hvalue. apply fistDown_rotation.
Defined.

(** *** Two pinching hands *)

(** The pinch candidate after the loop. *)
Lemma forEach_pinchData (this : State) (results : list Hand) :
  pinchData (snd (fold_left forEachHand results (this, locals0))) =
  option_map pinchDataOf (lastHand isPinching results).
Proof. rewrite forEach_spec. reflexivity. Qed.

(** C2, as the code has it.  When the two hands of a frame are both
    pinching, the pinch candidate recorded for the frame is that of the
    second hand in iteration order, and so are the position and hand
    label published when the pinch slot is confirmed. *)
Theorem last_pinching_hand_wins (this : State) (now : R) (first second : Hand) :
  isPinching first = true ->
  isPinching second = true ->
  isInitialized this = true ->
  let results := [first; second] in
  let this' := next (onResults this now results) in
  pinchData (snd (fold_left forEachHand results (this, locals0)))
  = Some (pinchDataOf second)
  /\ (pinchActive this' = true ->
      pinchPosition this' = Some (getPinchPosition (handLandmarks second))
      /\ pinchHand this' = Some (Js.toLowerCase (label (handedness second)))).
Proof.
  intros Hfirst Hsecond Hinit results this'.
  assert (Hlast : lastHand isPinching results = Some second).
  { unfold lastHand. cbn [results fold_left]. rewrite Hsecond. reflexivity. }
  split.
  - rewrite forEach_pinchData, Hlast. reflexivity.
  - intros Hactive. subst this'.
    rewrite frame_pinchPosition, frame_pinchHand by exact Hinit.
    rewrite Hactive, Hlast. split; reflexivity.
Qed.

(** C2 fails on the code: with the left hand pinching at (0.25, 0.25) and
    the right hand at (0.75, 0.75), listed in this order and held for
    450 ms, the frame's candidate and the published pinch are the right
    hand's, the second one processed. *)
Lemma second_pinching_hand_published :
  let first := handOf "Left" (pinchingAt {| x := 0.25; y := 0.25 |}) in
  let second := handOf "Right" (pinchingAt {| x := 0.75; y := 0.75 |}) in
  let results := [first; second] in
  let before := frame started {| time := 0; hands := results |} in
  let this' := next (onResults before 450 results) in
  isPinching first = true
  /\ isPinching second = true
  /\ pinchData (snd (fold_left forEachHand results (before, locals0)))
     = Some {| position := {| x := 0.75; y := 0.75 |}; hand := "right" |}
  /\ pinchDataOf first = {| position := {| x := 0.25; y := 0.25 |}; hand := "left" |}
  /\ pinchActive this' = true
  /\ pinchHand this' = Some "right"%string
  /\ pinchPosition this' = Some {| x := 0.75; y := 0.75 |}.
Proof.
  intros first second results before this'.
  assert (H1 : isPinching first = true) by apply pinching_raw.
  assert (H2 : isPinching second = true) by apply pinching_raw.
  assert (Hpinch : rawPresent Pinch results = true).
  { cbn [results rawPresent rawOn existsb]. rewrite H1. reflexivity. }
  assert (Hlast : lastHand isPinching results = Some second).
  { unfold lastHand. cbn [results fold_left]. rewrite H2. reflexivity. }
  assert (Hdata : forall side p,
             pinchDataOf (handOf side (pinchingAt p))
             = {| position := p; hand := Js.toLowerCase side |}).
  { intros side p. unfold pinchDataOf, handOf. cbn [handLandmarks handedness label].
    rewrite pinchingAt_position. reflexivity. }
  destruct (pinch_confirmed_after_hold results Hpinch) as [Hinit Hactive].
  fold before in Hinit, Hactive. fold this' in Hactive.
  repeat split; try assumption.
  - rewrite forEach_pinchData, Hlast. cbn [option_map]. subst second.
    rewrite Hdata. reflexivity.
  - subst first. rewrite Hdata. reflexivity.
  - subst this'. rewrite frame_pinchHand by exact Hinit.
    rewrite Hactive, Hlast. reflexivity.
  - subst this'. rewrite frame_pinchPosition by exact Hinit.
    rewrite Hactive, Hlast. cbn [option_map]. subst second.
    rewrite Hdata. reflexivity.
Qed.

(** [last_pinching_hand_wins] on the same two hands, in the frame that
    confirms the pinch. *)
Lemma last_pinching_hand_wins_witness :
  let first := handOf "Left" (pinchingAt {| x := 0.25; y := 0.25 |}) in
  let second := handOf "Right" (pinchingAt {| x := 0.75; y := 0.75 |}) in
  let before := frame started {| time := 0; hands := [first; second] |} in
  let this' := next (onResults before 450 [first; second]) in
  pinchData (snd (fold_left forEachHand [first; second] (before, locals0)))
  = Some (pinchDataOf second)
  /\ pinchPosition this' = Some (getPinchPosition (handLandmarks second))
  /\ pinchHand this' = Some "right"%string.
Proof.
  intros first second before this'.
  assert (Hpinch : rawPresent Pinch [first; second] = true).
  { cbn [rawPresent rawOn existsb]. unfold first. rewrite pinching_raw. reflexivity. }
  destruct (pinch_confirmed_after_hold [first; second] Hpinch) as [Hinit Hactive].
  destruct (last_pinching_hand_wins before 450 first second) as [Hdata Hpublished].
  - apply pinching_raw.
  - apply pinching_raw.
  - exact Hinit.
  - split; [exact Hdata | exact (Hpublished Hactive)].
Defined.

End GestureLoop.

(** ** The key selector *)

Section KeySelector.

Import KeyOverlay.

(** [getKeyAtPosition] in terms of its distance and segment index. *)
Lemma getKeyAtPosition_unfold (this : State) (pos : Point) :
  getKeyAtPosition this (Some pos) =
  if Js.lt (distanceOf this pos) (CENTER_RADIUS * minDim this) then Null
  else if Js.lt (distanceOf this pos) (INNER_RADIUS * minDim this)
       then index MINOR_KEYS (segmentIndexOf this pos)
  else if Js.lt (distanceOf this pos) (OUTER_RADIUS * minDim this)
       then index MAJOR_KEYS (segmentIndexOf this pos)
  else Null.
Proof. reflexivity. Qed.

(** The menu center is at distance 0. *)
Lemma distanceOf_center (this : State) (pos : Point) :
  x pos * canvasWidth this = centerX this ->
  y pos * canvasHeight this = centerY this ->
  distanceOf this pos = 0.
Proof.
  intros Hx Hy. unfold distanceOf. rewrite Hx, Hy.
  replace ((centerX this - centerX this) * (centerX this - centerX this)
           + (centerY this - centerY this) * (centerY this - centerY this))
    with 0 by ring.
  apply sqrt_0.
Qed.

(** C4. For every pinch position and every rotation offset, on a canvas
    whose smaller side is not negative, the hit test goes by the distance
    from the menu center: below the center radius the result is [null];
    from the center radius up to the inner one it is the minor-key table
    at the segment index; from the inner radius up to the outer one it is
    the major-key table at the segment index; from the outer radius on it
    is [null]; and at distance 0 it is [null]. *)
Theorem getKeyAtPosition_rings (this : State) (pos : Point) :
  0 <= minDim this ->
  let distance := distanceOf this pos in
  let segmentIndex := segmentIndexOf this pos in
  let centerRadius := CENTER_RADIUS * minDim this in
  let innerRadius := INNER_RADIUS * minDim this in
  let outerRadius := OUTER_RADIUS * minDim this in
  (distance < centerRadius -> getKeyAtPosition this (Some pos) = Null)
  /\ (centerRadius <= distance < innerRadius ->
      getKeyAtPosition this (Some pos) = index MINOR_KEYS segmentIndex)
  /\ (innerRadius <= distance < outerRadius ->
      getKeyAtPosition this (Some pos) = index MAJOR_KEYS segmentIndex)
  /\ (outerRadius <= distance -> getKeyAtPosition this (Some pos) = Null)
  /\ (distance = 0 -> getKeyAtPosition this (Some pos) = Null).
Proof.
  intros Hdim distance segmentIndex centerRadius innerRadius outerRadius.
  rewrite getKeyAtPosition_unfold.
  fold distance segmentIndex centerRadius innerRadius outerRadius.
  assert (Hci : centerRadius <= innerRadius)
    by (unfold centerRadius, innerRadius, CENTER_RADIUS, INNER_RADIUS; nra).
  assert (Hio : innerRadius <= outerRadius)
    by (unfold innerRadius, outerRadius, INNER_RADIUS, OUTER_RADIUS; nra).
  assert (H0c : 0 <= centerRadius)
    by (unfold centerRadius, CENTER_RADIUS; nra).
  repeat split.
  - intros H. rewrite lt_true by exact H. reflexivity.
  - intros [Hlo Hhi]. rewrite lt_false by exact Hlo.
    rewrite lt_true by exact Hhi. reflexivity.
  - intros [Hlo Hhi]. rewrite !lt_false by lra.
    rewrite lt_true by exact Hhi. reflexivity.
  - intros H. rewrite !lt_false by lra. reflexivity.
  - intros H. destruct (Rlt_dec distance centerRadius) as [Hlt | Hge].
    + rewrite lt_true by exact Hlt. reflexivity.
    + assert (Hz : minDim this = 0)
        by (unfold centerRadius, CENTER_RADIUS in *; nra).
      assert (innerRadius = 0 /\ outerRadius = 0) as [Hi Ho]
        by (unfold innerRadius, outerRadius; rewrite Hz; split; ring).
      rewrite !lt_false by lra. reflexivity.
Qed.

(** The remainder of a non-negative number by a positive one. *)
Lemma rem_range (a b : R) : 0 <= a -> 0 < b -> 0 <= Js.rem a b < b.
Proof.
  intros Ha Hb. unfold Js.rem, Js.trunc.
  assert (Hinv : 0 < / b) by (apply Rinv_0_lt_compat; exact Hb).
  assert (Hq : 0 <= a / b) by (unfold Rdiv; nra).
  assert (Hab : a / b * b = a) by (field; lra).
  destruct (Rle_dec 0 (a / b)) as [_ | Hn]; [| contradiction].
  destruct (base_Int_part (a / b)) as [Hlo Hhi].
  split; nra.
Qed.

(** With the menu turned by at most a full turn, the segment index is one of
    the twelve clock positions. *)
Lemma segmentIndexOf_range (this : State) (pos : Point) :
  rotationOffset this <= PI * 2 ->
  (0 <= segmentIndexOf this pos < 12)%Z.
Proof.
  intros Hoff. pose proof PI_RGT_0 as Hpi. unfold segmentIndexOf.
  set (dx := x pos * canvasWidth this - centerX this).
  set (dy := y pos * canvasHeight this - centerY this).
  pose proof (atan2_range dx (- dy)) as [Hlo Hhi].
  set (angle := if Js.lt (Js.atan2 dx (- dy)) 0
                then Js.atan2 dx (- dy) + PI * 2 else Js.atan2 dx (- dy)).
  assert (Hangle : 0 <= angle).
  { subst angle. unfold Js.lt. destruct (Rlt_dec _ 0); lra. }
  destruct (rem_range (angle - rotationOffset this + PI * 2) (PI * 2)) as [Hr0 Hr1];
    [lra | lra |].
  set (r := Js.rem (angle - rotationOffset this + PI * 2) (PI * 2)) in *.
  assert (Hseg : 0 <= r / (PI * 2 / 12) < 12).
  { assert (Heq : r / (PI * 2 / 12) = r * (6 / PI)) by (field; lra).
    assert (Hk : 0 < 6 / PI) by (apply Rdiv_lt_0_compat; lra).
    assert (Hpk : PI * 2 * (6 / PI) = 12) by (field; lra).
    rewrite Heq. split; nra. }
  unfold Js.floor. destruct (base_Int_part (r / (PI * 2 / 12))) as [Hi0 Hi1].
  split.
  - apply Z.lt_succ_r. apply lt_IZR. rewrite succ_IZR. lra.
  - apply lt_IZR. lra.
Qed.

(** So a pinch inside either ring selects a key of that ring's table. *)
Lemma ring_hit_is_key (this : State) (pos : Point) :
  0 <= minDim this ->
  rotationOffset this <= PI * 2 ->
  CENTER_RADIUS * minDim this <= distanceOf this pos < OUTER_RADIUS * minDim this ->
  exists name,
    getKeyAtPosition this (Some pos) = Key name
    /\ In name (if Js.lt (distanceOf this pos) (INNER_RADIUS * minDim this)
                then MINOR_KEYS else MAJOR_KEYS).
Proof.
  intros Hdim Hoff [Hlo Hhi].
  destruct (segmentIndexOf_range this pos Hoff) as [Hi0 Hi1].
  assert (Hindex : forall table, List.length table = 12%nat ->
             exists name, index table (segmentIndexOf this pos) = Key name
                          /\ In name table).
  { intros table Hlen. unfold index.
    destruct (Z.ltb_spec (segmentIndexOf this pos) 0) as [Hneg | _]; [lia |].
    destruct (nth_error table (Z.to_nat (segmentIndexOf this pos))) as [name |] eqn:Hnth.
    - exists name. split; [reflexivity | eapply nth_error_In, Hnth].
    - apply nth_error_None in Hnth. lia. }
  rewrite getKeyAtPosition_unfold, (lt_false _ _ Hlo).
  destruct (Js.lt (distanceOf this pos) (INNER_RADIUS * minDim this)).
  - apply Hindex. reflexivity.
  - rewrite (lt_true _ _ Hhi). apply Hindex. reflexivity.
Qed.

Lemma Int_part_0 : Int_part 0 = 0%Z.
Proof. symmetry. apply Int_part_spec. simpl. lra. Qed.

Lemma Int_part_1 : Int_part 1 = 1%Z.
Proof. symmetry. apply Int_part_spec. simpl. lra. Qed.

(** Segment mapping: with no rotation, straight up is segment 0. *)
Lemma segmentIndexOf_up (this : State) (pos : Point) :
  rotationOffset this = 0 ->
  x pos * canvasWidth this - centerX this = 0 ->
  y pos * canvasHeight this - centerY this < 0 ->
  segmentIndexOf this pos = 0%Z.
Proof.
  intros Hoff Hdx Hdy. pose proof PI_RGT_0 as Hpi.
  unfold segmentIndexOf. rewrite Hoff, Hdx.
  set (dy := y pos * canvasHeight this - centerY this) in *.
  unfold Js.atan2. destruct (Rlt_dec 0 (- dy)) as [_ | Hn]; [| lra].
  replace (0 / - dy) with 0 by (unfold Rdiv; ring).
  rewrite atan_0, (lt_false 0 0) by lra.
  unfold Js.rem, Js.trunc, Js.floor.
  replace ((0 - 0 + PI * 2) / (PI * 2)) with 1 by (field; lra).
  destruct (Rle_dec 0 1) as [_ | Hn]; [| lra].
  rewrite Int_part_1.
  replace (0 - 0 + PI * 2 - PI * 2 * 1) with 0 by ring.
  replace (0 / (PI * 2 / 12)) with 0 by (field; lra).
  apply Int_part_0.
Qed.

Lemma distanceOf_up (this : State) (pos : Point) (d : R) :
  0 <= d ->
  x pos * canvasWidth this - centerX this = 0 ->
  y pos * canvasHeight this - centerY this = - d ->
  distanceOf this pos = d.
Proof.
  intros Hd Hdx Hdy. unfold distanceOf. rewrite Hdx, Hdy.
  replace (0 * 0 + - d * - d) with (d * d) by ring.
  apply sqrt_square. exact Hd.
Qed.

Lemma constructed_minDim : minDim (constructed 800 600) = 600.
Proof. unfold constructed, resize. cbn [minDim]. apply Rmin_right. lra. Qed.

(** [getKeyAtPosition_rings] in an 800 by 600 window, before any rotation:
    the menu center gives [null]; straight up, 100 pixels from the center
    gives the first minor key, 200 pixels the first major key, and 260
    pixels is outside the wheel. *)
Lemma getKeyAtPosition_rings_witness :
  let overlay := constructed 800 600 in
  getKeyAtPosition overlay (Some {| x := 0.5; y := 0.5 |}) = Null
  /\ getKeyAtPosition overlay (Some {| x := 0.5; y := 200 / 600 |}) = Key "Am"
  /\ getKeyAtPosition overlay (Some {| x := 0.5; y := 100 / 600 |}) = Key "C"
  /\ getKeyAtPosition overlay (Some {| x := 0.5; y := 40 / 600 |}) = Null.
Proof.
  intros overlay.
  assert (Hdim : 0 <= minDim overlay)
    by (subst overlay; rewrite constructed_minDim; lra).
  assert (Hup : forall py d,
             0 < d -> py * 600 - 600 / 2 = - d ->
             distanceOf overlay {| x := 0.5; y := py |} = d
             /\ segmentIndexOf overlay {| x := 0.5; y := py |} = 0%Z).
  { intros py d Hd Hpy. split.
    - apply distanceOf_up; [lra | cbn; lra | exact Hpy].
    - apply segmentIndexOf_up; [reflexivity | cbn; lra |].
      cbn [y x canvasHeight centerY overlay constructed resize]. lra. }
  repeat split.
  - apply (getKeyAtPosition_rings overlay {| x := 0.5; y := 0.5 |} Hdim).
    apply distanceOf_center; cbn; lra.
  - destruct (Hup (200 / 600) 100) as [Hd Hi]; [lra | lra |].
    destruct (getKeyAtPosition_rings overlay {| x := 0.5; y := 200 / 600 |} Hdim)
      as (_ & Hminor & _).
    rewrite Hminor, Hi; [reflexivity |].
    rewrite Hd. subst overlay. rewrite constructed_minDim.
    unfold CENTER_RADIUS, INNER_RADIUS. lra.
  - destruct (Hup (100 / 600) 200) as [Hd Hi]; [lra | lra |].
    destruct (getKeyAtPosition_rings overlay {| x := 0.5; y := 100 / 600 |} Hdim)
      as (_ & _ & Hmajor & _).
    rewrite Hmajor, Hi; [reflexivity |].
    rewrite Hd. subst overlay. rewrite constructed_minDim.
    unfold INNER_RADIUS, OUTER_RADIUS. lra.
  - destruct (Hup (40 / 600) 260) as [Hd Hi]; [lra | lra |].
    destruct (getKeyAtPosition_rings overlay {| x := 0.5; y := 40 / 600 |} Hdim)
      as (_ & _ & _ & Houtside & _).
    apply Houtside.
    rewrite Hd. subst overlay. rewrite constructed_minDim.
    unfold OUTER_RADIUS. lra.
Defined.

End KeySelector.

(** ** The audio engine *)

Section Engine.

Import AudioEngine.
Local Open Scope string_scope.

Lemma emit_emit (es1 es2 : list Effect) (this : Engine) :
  emit es2 (emit es1 this) = emit (es1 ++ es2)%list this.
Proof. unfold emit. cbn. rewrite <- app_assoc. reflexivity. Qed.



Lemma validate_invalid (v : Js.Value) (fallback : R) :
  invalid v = true -> _validateNumber v fallback = fallback.
Proof. destruct v as [[] | | | |]; try reflexivity; discriminate. Qed.

(** *** The setters, case by case *)

(** Look through the assignments that leave the node fields alone. *)
Ltac see_nodes :=
  repeat match goal with
    | |- context [nodes (emit ?es ?t)] =>
        change (nodes (emit es t)) with (nodes t)
    | |- context [nodes (set_lastValidIntensity ?v ?t)] =>
        change (nodes (set_lastValidIntensity v t)) with (nodes t)
    | |- context [nodes (set_lastValidWidth ?v ?t)] =>
        change (nodes (set_lastValidWidth v t)) with (nodes t)
    end.

Lemma setIntensity_queued (v : Js.Value) (this : Engine) :
  isInitialized this = false ->
  setIntensity v this =
  let valid := _validateNumber v (lastValidIntensity this) in
  Return (set_pendingIntensity (Some valid) (set_lastValidIntensity valid this)).
Proof.
  intros Hinit. unfold setIntensity.
  change (isInitialized (set_lastValidIntensity _ this)) with (isInitialized this).
  rewrite Hinit. reflexivity.
Qed.

Lemma setIntensity_applied (v : Js.Value) (this : Engine) :
  isInitialized this = true ->
  wired (nodes this) ->
  setIntensity v this =
  let valid := _validateNumber v (lastValidIntensity this) in
  Return (emit (intensityMapping (_clamp valid 0 1)) (set_lastValidIntensity valid this)).
Proof.
  intros Hinit (Hrg & Hsg & Hf & Hc & _). unfold setIntensity.
  change (isInitialized (set_lastValidIntensity _ this)) with (isInitialized this).
  rewrite Hinit. cbn [negb]. unfold rampTo, setProp.
  repeat (see_nodes;
          first [rewrite Hrg | rewrite Hsg | rewrite Hf | rewrite Hc];
          cbn [andThen]).
  rewrite !emit_emit. reflexivity.
Qed.

Lemma setWidth_queued (v : Js.Value) (this : Engine) :
  isInitialized this = false ->
  setWidth v this =
  let valid := _validateNumber v (lastValidWidth this) in
  Return (set_pendingWidth (Some valid) (set_lastValidWidth valid this)).
Proof.
  intros Hinit. unfold setWidth.
  change (isInitialized (set_lastValidWidth _ this)) with (isInitialized this).
  rewrite Hinit. reflexivity.
Qed.

Lemma setWidth_applied (v : Js.Value) (this : Engine) :
  isInitialized this = true ->
  wired (nodes this) ->
  setWidth v this =
  let valid := _validateNumber v (lastValidWidth this) in
  Return (emit (widthMapping (nodes this) (_clamp valid 0 1))
            (set_lastValidWidth valid this)).
Proof.
  intros Hinit (_ & _ & _ & Hc & Hsw). unfold setWidth.
  change (isInitialized (set_lastValidWidth _ this)) with (isInitialized this).
  rewrite Hinit. cbn [negb]. unfold rampTo.
  repeat (see_nodes; first [rewrite Hc | rewrite Hsw]; cbn [andThen]).
  rewrite !emit_emit. unfold widthMapping. rewrite <- ?app_assoc. reflexivity.
Qed.

(** *** The end of [_doInit] *)

Ltac fields :=
  cbn [andThen nodes state initPromise pendingIntensity pendingWidth
       lastValidIntensity lastValidWidth currentKey isMinor glideTime baseFreqs
       suspended effects set_nodes set_state set_initPromise set_pendingIntensity
       set_pendingWidth set_lastValidIntensity set_lastValidWidth set_key
       set_suspended emit].

Lemma afterGenerate_built (this : Engine) :
  _doInit_afterGenerate this =
  (match pendingWidth (built this) with
   | Some w => setWidth (Js.num w) (built this) >>= fun this =>
               Return (set_pendingWidth None this)
   | None => Return (built this)
   end) >>= fun this =>
  (match pendingIntensity this with
   | Some i => setIntensity (Js.num i) this >>= fun this =>
               Return (set_pendingIntensity None this)
   | None => Return this
   end) >>= fun this =>
  Return (set_suspended NotSuspended this).
Proof. reflexivity. Qed.

Lemma built_facts (this : Engine) :
  isInitialized (built this) = true
  /\ wired (nodes (built this))
  /\ pendingIntensity (built this) = pendingIntensity this
  /\ pendingWidth (built this) = pendingWidth this
  /\ intensityEffects (effects (built this)) = intensityEffects (effects this).
Proof.
  repeat split.
  unfold built, intensityEffects. fields.
  rewrite !filter_app.
  assert (Hbank : forall voice lfo type gain base freqs,
             List.filter isIntensityEffect (createBank voice lfo type gain base freqs) = []).
  { intros voice lfo type gain base freqs. unfold createBank.
    induction (combine (seq 0 (List.length freqs)) freqs) as [| [i f] l IH];
      [reflexivity | exact IH]. }
  rewrite !Hbank. cbn [List.filter isIntensityEffect]. rewrite !app_nil_r. reflexivity.
Qed.

(** Replaying the queue on a built engine always returns. *)
Lemma afterGenerate_returns (this : Engine) :
  exists result,
    _doInit_afterGenerate this = Return result
    /\ isInitialized result = true
    /\ suspended result = NotSuspended
    /\ wired (nodes result)
    /\ pendingIntensity result = None
    /\ intensityEffects (effects result) =
       (intensityEffects (effects this)
        ++ match pendingIntensity this with
           | Some i => intensityMapping (_clamp i 0 1)
           | None => []
           end)%list.
Proof.
  destruct (built_facts this) as (Hinit & Hwired & Hpi & Hpw & Heff).
  rewrite afterGenerate_built.
  assert (Hwidth : exists mid,
             match pendingWidth (built this) with
             | Some w => setWidth (Js.num w) (built this) >>= fun this =>
                         Return (set_pendingWidth None this)
             | None => Return (built this)
             end = Return mid
             /\ isInitialized mid = true
             /\ nodes mid = nodes (built this)
             /\ pendingIntensity mid = pendingIntensity this
             /\ intensityEffects (effects mid) = intensityEffects (effects this)).
  { destruct (pendingWidth (built this)) as [w |].
    - rewrite setWidth_applied by assumption. cbv zeta. cbn [andThen].
      eexists. split; [reflexivity |]. repeat split; try assumption.
      fields. unfold intensityEffects in *. rewrite filter_app, Heff.
      assert (Hnone : forall n w', List.filter isIntensityEffect (widthMapping n w') = []).
      { intros n w'. unfold widthMapping. rewrite !filter_app.
        assert (H1 : forall l r, List.filter isIntensityEffect
                        (map (fun voice => SetProp voice "spread" r) l) = []).
        { intros l r. induction l as [| [] l IH]; cbn; auto. }
        assert (H2 : forall l r, List.filter isIntensityEffect
                        (flat_map (fun lfo => [SetProp lfo "min" (- r);
                                              SetProp lfo "max" r]) l) = []).
        { intros l r. induction l as [| [] l IH]; cbn; auto. }
        rewrite H1, H2. reflexivity. }
      rewrite Hnone, app_nil_r. reflexivity.
    - exists (built this). repeat split; assumption. }
  destruct Hwidth as (mid & -> & Hmi & Hmn & Hmp & Hme). cbn [andThen].
  assert (Hmw : wired (nodes mid)) by (rewrite Hmn; exact Hwired).
  rewrite Hmp. destruct (pendingIntensity this) as [i |].
  - rewrite setIntensity_applied by assumption. cbv zeta. cbn [andThen].
    eexists. split; [reflexivity |]. repeat split; try apply Hmw; try assumption.
    fields. unfold intensityEffects in *. rewrite filter_app, Hme.
    reflexivity.
  - cbn [andThen]. eexists. split; [reflexivity |].
    repeat split; try apply Hmw; try assumption.
    fields. rewrite app_nil_r. exact Hme.
Qed.

(** *** Invariants of the driven engine *)

Lemma setKey_keeps (keyName : string) (this : Engine) :
  state (setKey keyName this) = state this
  /\ suspended (setKey keyName this) = suspended this
  /\ nodes (setKey keyName this) = nodes this
  /\ pendingIntensity (setKey keyName this) = pendingIntensity this
  /\ lastValidIntensity (setKey keyName this) = lastValidIntensity this
  /\ lastValidWidth (setKey keyName this) = lastValidWidth this.
Proof.
  unfold setKey.
  destruct (lookup _ ROOT_FREQUENCIES); [| repeat split].
  destruct (negb (isInitialized (set_key _ _ _ this))); repeat split.
Qed.

Lemma step_settled (op : Op) (this : Engine) :
  settled this -> settled (step this op).
Proof.
  intros Hs. destruct op as [| ok | v | v | keyName]; cbn [step].
  - unfold init. destruct (STATE_eqb (state this) INITIALIZED) eqn:Hi; [exact Hs |].
    destruct (STATE_eqb (state this) INITIALIZING && initPromise this); [exact Hs |].
    intros Habs. discriminate Habs.
  - unfold settle. destruct (suspended this) eqn:Hsus; [exact Hs | |].
    + assert (Hi : isInitialized this = false).
      { destruct (isInitialized this) eqn:Hi; [| reflexivity].
        destruct (Hs Hi) as [Hn _]. congruence. }
      destruct ok; intros Habs.
      * change (isInitialized this = true) in Habs. congruence.
      * discriminate Habs.
    + destruct ok; [| intros Habs; discriminate Habs].
      destruct (afterGenerate_returns this) as (result & -> & _ & Hn & Hw & _).
      intros _. split; assumption.
  - destruct (isInitialized this) eqn:Hi.
    + destruct (Hs Hi) as [Hn Hw].
      rewrite setIntensity_applied by assumption. intros _. split; assumption.
    + rewrite setIntensity_queued by assumption. intros Habs.
      change (isInitialized this = true) in Habs. congruence.
  - destruct (isInitialized this) eqn:Hi.
    + destruct (Hs Hi) as [Hn Hw].
      rewrite setWidth_applied by assumption. intros _. split; assumption.
    + rewrite setWidth_queued by assumption. intros Habs.
      change (isInitialized this = true) in Habs. congruence.
  - destruct (setKey_keeps keyName this) as (Hst & Hsu & Hno & _).
    unfold settled, isInitialized in *. rewrite Hst, Hsu, Hno. exact Hs.
Qed.

(** Once initialized, always initialized. *)
Lemma step_initialized (op : Op) (this : Engine) :
  settled this -> isInitialized this = true -> isInitialized (step this op) = true.
Proof.
  intros Hs Hi. destruct (Hs Hi) as [Hn Hw].
  destruct op as [| ok | v | v | keyName]; cbn [step].
  - unfold init. unfold isInitialized in Hi. rewrite Hi. exact Hi.
  - unfold settle. rewrite Hn. exact Hi.
  - rewrite setIntensity_applied by assumption. exact Hi.
  - rewrite setWidth_applied by assumption. exact Hi.
  - destruct (setKey_keeps keyName this) as (Hst & _).
    unfold isInitialized in *. rewrite Hst. exact Hi.
Qed.

Lemma run_settled (ops : list Op) (this : Engine) :
  settled this -> settled (run this ops).
Proof.
  revert this. induction ops as [| op ops IH]; intros this Hs; [exact Hs |].
  apply IH, step_settled, Hs.
Qed.

Lemma run_initialized (ops : list Op) (this : Engine) :
  settled this -> isInitialized this = true -> isInitialized (run this ops) = true.
Proof.
  revert this. induction ops as [| op ops IH]; intros this Hs Hi; [exact Hi |].
  apply IH; [apply step_settled, Hs | apply step_initialized; assumption].
Qed.

Lemma constructed_settled : settled constructed.
Proof. intros Habs. discriminate Habs. Qed.

Lemma reachable_settled (this : Engine) : reachable this -> settled this.
Proof. intros [ops ->]. apply run_settled, constructed_settled. Qed.

(** *** The queue before initialization *)

Lemma intensityEffects_snoc (es extra : list Effect) :
  intensityEffects extra = [] ->
  intensityEffects (es ++ extra) = intensityEffects es.
Proof.
  intros Hextra. unfold intensityEffects in *.
  rewrite filter_app, Hextra, app_nil_r. reflexivity.
Qed.

(** Before initialization, nothing but [setIntensity] touches the queued
    intensity, and no call reaches an intensity-driven audio parameter. *)
Lemma step_keeps_queue (op : Op) (this : Engine) :
  isOtherThanSetIntensity op = true ->
  isInitialized this = false ->
  isInitialized (step this op) = false ->
  pendingIntensity (step this op) = pendingIntensity this
  /\ lastValidIntensity (step this op) = lastValidIntensity this
  /\ intensityEffects (effects (step this op)) = intensityEffects (effects this).
Proof.
  intros Hop Hi Hi'. destruct op as [| ok | v | v | keyName];
    cbn [step] in *; try discriminate Hop.
  - unfold init. unfold isInitialized in Hi. rewrite Hi.
    destruct (STATE_eqb (state this) INITIALIZING && initPromise this);
      repeat split.
    unfold _doInit. fields. apply intensityEffects_snoc. reflexivity.
  - unfold settle in *. destruct (suspended this); [repeat split | |].
    + destruct ok; repeat split.
      unfold _doInit_afterToneStart. fields. rewrite <- !app_assoc.
      apply intensityEffects_snoc. reflexivity.
    + destruct ok; [| repeat split].
      destruct (afterGenerate_returns this) as (result & Heq & Hinit & _).
      rewrite Heq in Hi'. congruence.
  - rewrite setWidth_queued by exact Hi. repeat split.
  - destruct (setKey_keeps keyName this) as (_ & _ & _ & Hp & Hl & _).
    repeat split; try assumption.
    unfold setKey. destruct (lookup _ ROOT_FREQUENCIES).
    + change (isInitialized (set_key keyName (Js.endsWith_m keyName)
                (map (fun ratio => r * ratio)
                   (if Js.endsWith_m keyName then MINOR_INTERVALS else MAJOR_INTERVALS))
                this))
        with (isInitialized this).
      rewrite Hi. reflexivity.
    + fields. apply intensityEffects_snoc. reflexivity.
Qed.

Lemma run_keeps_queue (ops : list Op) (this : Engine) :
  forallb isOtherThanSetIntensity ops = true ->
  isInitialized this = false ->
  isInitialized (run this ops) = false ->
  pendingIntensity (run this ops) = pendingIntensity this
  /\ lastValidIntensity (run this ops) = lastValidIntensity this
  /\ intensityEffects (effects (run this ops)) = intensityEffects (effects this).
Proof.
  revert this. induction ops as [| op ops IH]; intros this Hops Hi Hi';
    [repeat split |].
  cbn [forallb] in Hops. apply andb_prop in Hops as [Hop Hops].
  change (run this (op :: ops)) with (run (step this op) ops) in *.
  assert (Hs : settled this) by (intros Habs; congruence).
  assert (Hmid : isInitialized (step this op) = false).
  { destruct (isInitialized (step this op)) eqn:Hm; [| reflexivity].
    rewrite (run_initialized ops _ (step_settled op this Hs) Hm) in Hi'.
    discriminate Hi'. }
  destruct (step_keeps_queue op this Hop Hi Hmid) as (Hp & Hl & He).
  destruct (IH _ Hops Hmid Hi') as (Hp' & Hl' & He').
  repeat split; congruence.
Qed.

(** Two [setIntensity] calls before initialization, anything but
    [setIntensity] after them, and then the end of [_doInit]: the one
    intensity mapping applied is that of the second call's validated
    value. *)
Lemma queued_intensity_replay (this : Engine) (a b : Js.Value) (between : list Op) :
  isInitialized this = false ->
  forallb isOtherThanSetIntensity between = true ->
  let queued := run this (CallSetIntensity a :: CallSetIntensity b :: between) in
  isInitialized queued = false ->
  suspended queued = AwaitReverbGenerate ->
  let ready := settle true queued in
  let value := _validateNumber b (_validateNumber a (lastValidIntensity this)) in
  isInitialized ready = true
  /\ intensityEffects (effects ready) =
     (intensityEffects (effects this) ++ intensityMapping (_clamp value 0 1))%list
  /\ pendingIntensity ready = None.
Proof.
  intros Hi Hbetween queued Hq Hsus ready value.
  set (afterA := step this (CallSetIntensity a)).
  set (afterB := step afterA (CallSetIntensity b)).
  assert (HA : afterA = set_pendingIntensity (Some (_validateNumber a (lastValidIntensity this)))
                          (set_lastValidIntensity
                             (_validateNumber a (lastValidIntensity this)) this)).
  { subst afterA. cbn [step]. rewrite setIntensity_queued by exact Hi. reflexivity. }
  assert (HiA : isInitialized afterA = false) by (rewrite HA; exact Hi).
  assert (HB : afterB = set_pendingIntensity (Some value)
                          (set_lastValidIntensity value afterA)).
  { subst afterB. cbn [step]. rewrite setIntensity_queued by exact HiA.
    rewrite HA. reflexivity. }
  assert (HiB : isInitialized afterB = false) by (rewrite HB; exact HiA).
  change queued with (run afterB between) in *.
  destruct (run_keeps_queue between afterB Hbetween HiB Hq) as (Hp & _ & He).
  subst ready. unfold settle. rewrite Hsus.
  destruct (afterGenerate_returns (run afterB between))
    as (result & -> & Hri & _ & _ & Hrp & Hre).
  repeat split; try assumption.
  rewrite Hre, Hp, He, HB, HA. reflexivity.
Qed.

(** C5, as the code has it.  Two values [a] then [b] passed to
    [setIntensity] before the engine is initialized, with no further
    [setIntensity] call until initialization completes: the end of
    [_doInit] applies one intensity mapping, once, and clears the queue.
    The mapping is that of [b] when [b] is a finite number; when [b] is
    invalid it is that of the last valid value before it, which is [a]
    when [a] is a finite number. *)
Theorem latest_queued_intensity_wins (this : Engine) (a b : Js.Value)
    (between : list Op) :
  isInitialized this = false ->
  forallb isOtherThanSetIntensity between = true ->
  let queued := run this (CallSetIntensity a :: CallSetIntensity b :: between) in
  isInitialized queued = false ->
  suspended queued = AwaitReverbGenerate ->
  let ready := settle true queued in
  let value := _validateNumber b (_validateNumber a (lastValidIntensity this)) in
  isInitialized ready = true
  /\ intensityEffects (effects ready) =
     (intensityEffects (effects this) ++ intensityMapping (_clamp value 0 1))%list
  /\ pendingIntensity ready = None
  /\ (forall r, b = Js.num r -> value = r)
  /\ (invalid b = true -> forall r, a = Js.num r -> value = r).
Proof.
  intros Hi Hbetween queued Hq Hsus ready value.
  destruct (queued_intensity_replay this a b between Hi Hbetween Hq Hsus)
    as (Hready & Heff & Hpending).
  repeat split; try assumption.
  - intros r ->. reflexivity.
  - intros Hinv r ->. subst value. rewrite validate_invalid by exact Hinv.
    reflexivity.
Qed.

Lemma clamp_inside (v : R) : 0 <= v <= 1 -> _clamp v 0 1 = v.
Proof.
  intros [Hlo Hhi]. unfold _clamp.
  rewrite Rmin_right by exact Hhi. apply Rmax_right. exact Hlo.
Qed.

(** C5 fails on the code for an invalid second value: after
    [setIntensity(0.3)] and [setIntensity(NaN)] on a new engine, a
    completed [init()] applies the mapping of 0.3, the first value. *)
Lemma first_value_replayed_after_NaN :
  let queued :=
    run constructed [CallSetIntensity (Js.num 0.3); CallSetIntensity (Js.Num Js.NaN);
                     CallInit; Settle true] in
  let ready := settle true queued in
  isInitialized queued = false
  /\ isInitialized ready = true
  /\ intensityEffects (effects ready) = intensityMapping 0.3.
Proof.
  intros queued ready.
  destruct (queued_intensity_replay constructed (Js.num 0.3) (Js.Num Js.NaN)
              [CallInit; Settle true]) as (Hready & Heff & _);
    try reflexivity.
  repeat split; try assumption; try reflexivity.
  fold queued in Heff. fold ready in Heff. rewrite Heff.
  cbn [_validateNumber Js.num Js.isNaN Js.isFinite orb negb
       effects constructed intensityEffects List.filter app].
  rewrite clamp_inside by lra. reflexivity.
Qed.

(** [latest_queued_intensity_wins] on a new engine: [setIntensity(0.3)],
    [setIntensity(0.7)], then a complete [init()].  The mapping applied is
    that of 0.7. *)
Lemma latest_queued_intensity_wins_witness :
  let queued :=
    run constructed [CallSetIntensity (Js.num 0.3); CallSetIntensity (Js.num 0.7);
                     CallInit; Settle true] in
  let ready := settle true queued in
  isInitialized ready = true
  /\ intensityEffects (effects ready) = intensityMapping 0.7
  /\ pendingIntensity ready = None.
Proof.
  intros queued ready.
  destruct (latest_queued_intensity_wins constructed (Js.num 0.3) (Js.num 0.7)
              [CallInit; Settle true]) as (Hready & Heff & Hpending & _);
    try reflexivity.
  repeat split; try assumption.
  fold queued in Heff. fold ready in Heff. rewrite Heff.
  cbn [_validateNumber Js.num Js.isNaN Js.isFinite orb negb
       effects constructed intensityEffects List.filter app].
  rewrite clamp_inside by lra. reflexivity.
Defined.



(** *** Key changes *)

(** What [setKey] does with a key whose root is in the table. *)
Lemma setKey_known (keyName : string) (rootFreq : R) (this : Engine) :
  lookup (if Js.endsWith_m keyName then Js.slice_0_m1 keyName else keyName)
         ROOT_FREQUENCIES = Some rootFreq ->
  currentKey (setKey keyName this) = keyName
  /\ isMinor (setKey keyName this) = Js.endsWith_m keyName
  /\ baseFreqs (setKey keyName this) =
     map (fun ratio => rootFreq * ratio)
         (if Js.endsWith_m keyName then MINOR_INTERVALS else MAJOR_INTERVALS)
  /\ (forall message,
         In (ConsoleWarn message) (effects (setKey keyName this)) ->
         In (ConsoleWarn message) (effects this)).
Proof.
  intros Hroot. unfold setKey. rewrite Hroot.
  destruct (negb (isInitialized (set_key _ _ _ this))); repeat split.
  - intros message Hin. exact Hin.
  - intros message Hin. cbn [effects emit set_key] in Hin.
    assert (Hglide : forall voices freqs t,
               ~ In (ConsoleWarn message) (glideVoices voices freqs t)).
    { intros voices freqs t Habs. unfold glideVoices in Habs.
      apply in_map_iff in Habs as ([i voice] & Habs & _). discriminate Habs. }
    apply in_app_or in Hin as [Hin | Hin]; [| destruct (Hglide _ _ _ Hin)].
    apply in_app_or in Hin as [Hin | Hin]; [exact Hin | destruct (Hglide _ _ _ Hin)].
Qed.

(** C8. [setKey('Am')] leaves [currentKey = 'Am'], [isMinor = true] and
    the four chord frequencies equal to 220.00, the root frequency of A,
    times each entry of the minor interval table [1, 1.5, 2, 2.4]. *)
Theorem setKey_Am (this : Engine) :
  let this' := setKey "Am" this in
  currentKey this' = "Am"
  /\ isMinor this' = true
  /\ baseFreqs this' = map (fun ratio => 220.00 * ratio) MINOR_INTERVALS
  /\ baseFreqs this' = [220.00 * 1; 220.00 * 1.5; 220.00 * 2; 220.00 * 2.4]
  /\ lookup "A" ROOT_FREQUENCIES = Some 220.00.
Proof.
  destruct (setKey_known "Am" 220.00 this) as (Hk & Hm & Hf & _); [reflexivity |].
  cbv zeta. rewrite Hk, Hm, Hf. repeat split.
Qed.

(** The hit test returns table entries only. *)
Lemma getKeyAtPosition_in_tables (overlay : KeyOverlay.State) (pos : option Point)
    (keyName : string) :
  KeyOverlay.getKeyAtPosition overlay pos = KeyOverlay.Key keyName ->
  In keyName (KeyOverlay.MAJOR_KEYS ++ KeyOverlay.MINOR_KEYS)%list.
Proof.
  assert (Hindex : forall table i,
             KeyOverlay.index table i = KeyOverlay.Key keyName -> In keyName table).
  { intros table i. unfold KeyOverlay.index.
    destruct (i <? 0)%Z; [discriminate |].
    destruct (nth_error table (Z.to_nat i)) eqn:Hnth; [| discriminate].
    intros [= ->]. eapply nth_error_In, Hnth. }
  destruct pos as [pos |]; [| discriminate].
  rewrite getKeyAtPosition_unfold.
  destruct (Js.lt _ _); [discriminate |].
  destruct (Js.lt _ _).
  - intros H. apply in_or_app. right. eapply Hindex, H.
  - destruct (Js.lt _ _); [| discriminate].
    intros H. apply in_or_app. left. eapply Hindex, H.
Qed.

Lemma table_roots_known (keyName : string) :
  In keyName (KeyOverlay.MAJOR_KEYS ++ KeyOverlay.MINOR_KEYS)%list ->
  exists rootFreq,
    lookup (if Js.endsWith_m keyName then Js.slice_0_m1 keyName else keyName)
           ROOT_FREQUENCIES = Some rootFreq.
Proof.
  intros Hin. cbn [KeyOverlay.MAJOR_KEYS KeyOverlay.MINOR_KEYS app] in Hin.
  repeat (destruct Hin as [<- | Hin]; [eexists; reflexivity |]).
  destruct Hin.
Qed.

(** C10. Every entry of the two 12-key tables of the radial menu, and so
    every key name that [getKeyAtPosition] can return, has its root (the
    name without a trailing 'm') in [ROOT_FREQUENCIES]: [setKey] takes it
    without the unknown-key warning and makes it the current key, with the
    chord built on that root. *)
Theorem menu_keys_accepted (keyName : string) (this : Engine) :
  In keyName (KeyOverlay.MAJOR_KEYS ++ KeyOverlay.MINOR_KEYS)%list
  \/ (exists overlay pos,
         KeyOverlay.getKeyAtPosition overlay pos = KeyOverlay.Key keyName) ->
  exists rootFreq,
    lookup (if Js.endsWith_m keyName then Js.slice_0_m1 keyName else keyName)
           ROOT_FREQUENCIES = Some rootFreq
    /\ currentKey (setKey keyName this) = keyName
    /\ isMinor (setKey keyName this) = Js.endsWith_m keyName
    /\ baseFreqs (setKey keyName this) =
       map (fun ratio => rootFreq * ratio)
           (if Js.endsWith_m keyName then MINOR_INTERVALS else MAJOR_INTERVALS)
    /\ (forall message,
           In (ConsoleWarn message) (effects (setKey keyName this)) ->
           In (ConsoleWarn message) (effects this)).
Proof.
  intros Hsel.
  assert (Hin : In keyName (KeyOverlay.MAJOR_KEYS ++ KeyOverlay.MINOR_KEYS)%list).
  { destruct Hsel as [Hin | (overlay & pos & Hkey)]; [exact Hin |].
    eapply getKeyAtPosition_in_tables, Hkey. }
  destruct (table_roots_known keyName Hin) as [rootFreq Hroot].
  exists rootFreq. split; [exact Hroot |].
  apply setKey_known. exact Hroot.
Qed.

(** [menu_keys_accepted] on a new engine and the menu's F sharp minor. *)
Lemma menu_keys_accepted_witness :
  currentKey (setKey "F#m" constructed) = "F#m"
  /\ isMinor (setKey "F#m" constructed) = true
  /\ baseFreqs (setKey "F#m" constructed) = map (fun ratio => 185.00 * ratio) MINOR_INTERVALS.
Proof.
  destruct (menu_keys_accepted "F#m" constructed) as (rootFreq & Hroot & Hk & Hm & Hf & _).
  - left. cbn [KeyOverlay.MAJOR_KEYS KeyOverlay.MINOR_KEYS app].
    repeat first [left; reflexivity | right].
  - change (Some 185.00 = Some rootFreq) in Hroot. injection Hroot as <-.
    repeat split; assumption.
Defined.

End Engine.

(** ** More on the gesture state machine *)

Section GestureMore.

Import HandDetector.

Lemma calculateHandRotation_range (landmarks : Landmarks) :
  -90 <= calculateHandRotation landmarks <= 90.
Proof.
  unfold calculateHandRotation. split.
  - apply Rmax_l.
  - apply Rmax_lub; [lra | apply Rmin_l].
Qed.

Lemma started_is_init : init_afterCameraStart true constructed = started.
Proof. reflexivity. Qed.

(** X1 (rotation classifier, its saturation).  With the middle fingertip at
    or below the level of the wrist the classifier is saturated: it returns
    -90 when the fingertip is left of the wrist and 90 otherwise.  With the
    fingertip above the wrist it returns the unclamped angle, strictly
    between -90 and 90, which is 0 for a hand pointing straight up. *)
Theorem calculateHandRotation_halves (landmarks : Landmarks) :
  (0 <= tipDy landmarks ->
   calculateHandRotation landmarks = if Js.lt (tipDx landmarks) 0 then -90 else 90)
  /\ (tipDy landmarks < 0 ->
      calculateHandRotation landmarks
      = Js.atan2 (tipDy landmarks) (tipDx landmarks) * (180 / PI) + 90
      /\ -90 < calculateHandRotation landmarks < 90
      /\ (tipDx landmarks = 0 -> calculateHandRotation landmarks = 0)).
Proof.
  pose proof PI_RGT_0 as Hpi.
  assert (Hk : 0 < 180 / PI) by (apply Rdiv_lt_0_compat; lra).
  assert (Hpk : PI * (180 / PI) = 180) by (field; lra).
  unfold calculateHandRotation, wrappedAngle, tipDx, tipDy.
  set (dx := x (landmarks 12%nat) - x (landmarks 0%nat)).
  set (dy := y (landmarks 12%nat) - y (landmarks 0%nat)).
  pose proof (atan_bound (dy / dx)) as [Hlo Hhi].
  split.
  - intros Hdy. unfold Js.atan2.
    destruct (Rlt_dec dx 0) as [Hneg | Hpos];
      [rewrite (lt_true dx 0 Hneg) | rewrite (lt_false dx 0) by lra].
    + destruct (Rlt_dec 0 dx); [lra |].
      destruct (Rle_dec 0 dy); [| lra].
      assert (Hinv : / dx < 0) by (apply Rinv_lt_0_compat; exact Hneg).
      assert (Hq : atan (dy / dx) <= 0) by (apply atan_nonpos; unfold Rdiv; nra).
      set (a := atan (dy / dx)) in *.
      rewrite (lt_false _ (-180)) by nra.
      rewrite gt_true by nra.
      rewrite Rmin_right by nra. apply Rmax_left. nra.
    + destruct (Rlt_dec 0 dx) as [Hp | Hz].
      * assert (Hinv : 0 < / dx) by (apply Rinv_0_lt_compat; exact Hp).
        assert (Hq : 0 <= atan (dy / dx)).
        { destruct Hdy as [Hdy | <-].
          - left. apply atan_pos. unfold Rdiv. nra.
          - unfold Rdiv. rewrite Rmult_0_l, atan_0. lra. }
        set (a := atan (dy / dx)) in *.
        rewrite (lt_false _ (-180)) by nra.
        rewrite gt_false by nra.
        rewrite Rmin_left by nra. apply Rmax_right. lra.
      * destruct (Rlt_dec 0 dy).
        -- replace (PI / 2 * (180 / PI) + 90) with 180 by (field; lra).
           rewrite (lt_false 180 (-180)), (gt_false 180 180) by lra.
           rewrite Rmin_left by lra. apply Rmax_right. lra.
        -- destruct (Rlt_dec dy 0); [lra |].
           replace (0 * (180 / PI) + 90) with 90 by ring.
           rewrite (lt_false 90 (-180)), (gt_false 90 180) by lra.
           rewrite Rmin_left by lra. apply Rmax_right. lra.
  - intros Hdy.
    assert (Hrange : - PI < Js.atan2 dy dx < 0).
    { unfold Js.atan2. destruct (Rlt_dec 0 dx) as [Hp | Hnp].
      - assert (Hinv : 0 < / dx) by (apply Rinv_0_lt_compat; exact Hp).
        assert (Hq : atan (dy / dx) < 0).
        { rewrite <- atan_0. apply atan_increasing. unfold Rdiv. nra. }
        lra.
      - destruct (Rlt_dec dx 0) as [Hneg | Hz].
        + destruct (Rle_dec 0 dy); [lra |].
          assert (Hinv : / dx < 0) by (apply Rinv_lt_0_compat; exact Hneg).
          assert (Hq : 0 < atan (dy / dx)) by (apply atan_pos; unfold Rdiv; nra).
          lra.
        + destruct (Rlt_dec 0 dy); [lra |].
          destruct (Rlt_dec dy 0); lra. }
    set (a := Js.atan2 dy dx) in *.
    rewrite (lt_false _ (-180)) by nra.
    rewrite gt_false by nra.
    rewrite Rmin_right by nra. rewrite Rmax_right by nra.
    repeat split; try nra.
    intros Hdx. subst a. unfold Js.atan2. rewrite Hdx.
    destruct (Rlt_dec 0 0); [lra |]. destruct (Rlt_dec 0 dy); [lra |].
    destruct (Rlt_dec dy 0); [| lra]. field. lra.
Qed.

(** [calculateHandRotation_halves] on the fist held below the wrist and
    on the hand pointing straight up. *)
Lemma calculateHandRotation_halves_witness :
  calculateHandRotation fistDown = 90 /\ calculateHandRotation upright = 0.
Proof.
  split.
  - destruct (calculateHandRotation_halves fistDown) as [Hbelow _].
    rewrite Hbelow.
    + rewrite lt_false; [reflexivity |].
      unfold tipDx, fistDown, fingerTips. cbn [existsb Nat.eqb orb x]. lra.
    + unfold tipDy, fistDown, fingerTips. cbn [existsb Nat.eqb orb y]. lra.
  - destruct (calculateHandRotation_halves upright) as [_ Habove].
    destruct Habove as (_ & _ & Hzero).
    + unfold tipDy, upright. cbn [Nat.eqb y]. lra.
    + apply Hzero. unfold tipDx, upright. cbn [Nat.eqb x]. lra.
Defined.

(** *** Published rotations stay in range *)

Lemma latestRotation_present (p : Hand -> bool) (results : list Hand) (old : R) :
  existsb p results = true ->
  exists h, In h results /\ p h = true
            /\ latestRotation p results old = calculateHandRotation (handLandmarks h).
Proof.
  intros Hex. destruct (lastHand_present p results Hex) as (h & Hlast & Hp & Hin).
  exists h. repeat split; try assumption.
  unfold latestRotation. rewrite Hlast. reflexivity.
Qed.

Lemma frame_rotation_range (side : Side) (this : State) (now : R) (results : list Hand) :
  isInitialized this = true ->
  -90 <= publishedRotation side this <= 90 ->
  -90 <= publishedRotation side (next (onResults this now results)) <= 90.
Proof.
  intros Hinit Hold. rewrite frame_rotation by exact Hinit.
  destruct (rawPresent (fistSlot side) results) eqn:Hraw; [| exact Hold].
  destruct (confirmedOf (fistSlot side) (next (onResults this now results)));
    [| exact Hold].
  cbn [andb].
  destruct (latestRotation_present _ results
              match side with OnLeft => hand1Rotation this | OnRight => hand2Rotation this end
              Hraw) as (h & _ & _ & ->).
  apply calculateHandRotation_range.
Qed.

Lemma reachable_step (this : State) (now : R) (results : list Hand) :
  reachable this -> reachable (next (onResults this now results)).
Proof.
  intros [fs ->]. exists (fs ++ [{| time := now; hands := results |}]).
  rewrite frames_snoc. reflexivity.
Qed.

Lemma reachable_rotation_range (side : Side) (this : State) :
  reachable this -> -90 <= publishedRotation side this <= 90.
Proof.
  intros [fs ->]. induction fs as [| f fs IH] using rev_ind.
  - destruct side; cbn; lra.
  - rewrite frames_snoc. apply frame_rotation_range; [| exact IH].
    apply frames_isInitialized. reflexivity.
Qed.

(** The four rotation fields of a running detector: the published
    [lastLeftRotation] and [lastRightRotation], and the copies that
    [onResults] leaves in [hand1Rotation] and [hand2Rotation]. *)
Lemma reachable_fields_range (this : State) :
  reachable this ->
  -90 <= lastLeftRotation this <= 90 /\ -90 <= lastRightRotation this <= 90
  /\ -90 <= hand1Rotation this <= 90 /\ -90 <= hand2Rotation this <= 90.
Proof.
  intros Hreach.
  pose proof (reachable_rotation_range OnLeft this Hreach) as Hl.
  pose proof (reachable_rotation_range OnRight this Hreach) as Hr.
  cbn [publishedRotation] in Hl, Hr.
  split; [exact Hl |]. split; [exact Hr |].
  destruct Hreach as [fs ->].
  destruct fs as [| f fs _] using rev_ind.
  - cbn. split; lra.
  - rewrite frames_snoc in *.
    assert (Hinit : isInitialized (frames started fs) = true)
      by (apply frames_isInitialized; reflexivity).
    pose proof (frame_handRotation (frames started fs) (time f) (hands f) Hinit OnLeft)
      as H1.
    pose proof (frame_handRotation (frames started fs) (time f) (hands f) Hinit OnRight)
      as H2.
    cbn [publishedRotation] in H1, H2.
    unfold frame in *. rewrite H1, H2. split; assumption.
Qed.

(** X2 (Gesture Event, its rotations).  Every Gesture Event that a running
    detector emits carries a left and a right rotation within [-90, 90],
    and the four rotation fields of the detector ([lastLeftRotation],
    [lastRightRotation], [hand1Rotation], [hand2Rotation]) are within
    [-90, 90] before the frame and after it. *)
Theorem event_rotations_in_range (this : State) (now : R) (results : list Hand)
    (e : Event.t) :
  reachable this ->
  emitted (onResults this now results) = Some e ->
  let this' := next (onResults this now results) in
  (-90 <= Event.leftRotation e <= 90 /\ -90 <= Event.rightRotation e <= 90)
  /\ (-90 <= lastLeftRotation this <= 90 /\ -90 <= lastRightRotation this <= 90
      /\ -90 <= hand1Rotation this <= 90 /\ -90 <= hand2Rotation this <= 90)
  /\ (-90 <= lastLeftRotation this' <= 90 /\ -90 <= lastRightRotation this' <= 90
      /\ -90 <= hand1Rotation this' <= 90 /\ -90 <= hand2Rotation this' <= 90).
Proof.
  intros Hreach Hev this'.
  pose proof (reachable_isInitialized _ Hreach) as Hinit.
  rewrite frame_emitted in Hev by exact Hinit. injection Hev as <-.
  cbn [Event.leftRotation Event.rightRotation].
  pose proof (reachable_step this now results Hreach) as Hnext.
  pose proof (reachable_fields_range _ Hnext) as Hafter. fold this' in Hafter.
  split; [split; apply Hafter |].
  split; [exact (reachable_fields_range _ Hreach) | exact Hafter].
Qed.

(** [event_rotations_in_range] on the frame that confirms a left fist held
    below the wrist for 450 ms: the detector's left fields go from 0 to
    the fist's rotation, and all four stay in range. *)
Lemma event_rotations_in_range_witness :
  let results := [handOf "Left" fistDown] in
  let before := frame started {| time := 0; hands := results |} in
  let after := next (onResults before 450 results) in
  exists e,
    emitted (onResults before 450 results) = Some e
    /\ -90 <= Event.leftRotation e <= 90 /\ -90 <= Event.rightRotation e <= 90
    /\ -90 <= lastLeftRotation after <= 90 /\ -90 <= lastRightRotation after <= 90
    /\ -90 <= hand1Rotation after <= 90 /\ -90 <= hand2Rotation after <= 90.
Proof.
  intros results before after.
  assert (Hreach : reachable before)
    by (exists [{| time := 0; hands := results |}]; reflexivity).
  pose proof (reachable_isInitialized _ Hreach) as Hinit.
  eexists. split; [apply frame_emitted; exact Hinit |].
  destruct (event_rotations_in_range before 450 results _ Hreach
              (frame_emitted before 450 results Hinit))
    as ([Hl Hr] & _ & Hafter).
  cbn [Event.leftRotation Event.rightRotation] in Hl, Hr.
  split; [exact Hl |]. split; [exact Hr |]. exact Hafter.
Defined.

(** *** The published pinch *)

Lemma frame_pinch_source (this : State) (now : R) (results : list Hand) :
  isInitialized this = true ->
  let this' := next (onResults this now results) in
  if pinchActive this'
  then exists h, In h results /\ isPinching h = true
                 /\ pinchPosition this' = Some (getPinchPosition (handLandmarks h))
                 /\ pinchHand this' = Some (Js.toLowerCase (label (handedness h)))
  else pinchPosition this' = None /\ pinchHand this' = None.
Proof.
  intros Hinit this'. subst this'.
  rewrite frame_pinchPosition, frame_pinchHand by exact Hinit.
  destruct (pinchActive (next (onResults this now results))) eqn:Hactive;
    [| split; reflexivity].
  rewrite frame_pinchActive in Hactive by exact Hinit.
  pose proof (frame_confirmed this now results Hinit Pinch) as Hconf.
  cbn [confirmedOf] in Hconf. rewrite Hactive in Hconf.
  destruct (rawPresent Pinch results) eqn:Hraw; [| discriminate Hconf].
  destruct (lastHand_present _ _ Hraw) as (h & Hlast & Hp & Hin).
  change (rawOn Pinch) with isPinching in Hlast. rewrite Hlast.
  exists h. repeat split; assumption.
Qed.

(** The hand that [lastHand] finds is the last one of the list that
    satisfies the test: none of the hands after it does. *)
Lemma lastHand_split (p : Hand -> bool) (results : list Hand) (h : Hand) :
  lastHand p results = Some h ->
  exists earlier later,
    results = earlier ++ h :: later
    /\ p h = true
    /\ Forall (fun h' => p h' = false) later.
Proof.
  induction results as [| h' results IH] using rev_ind; [discriminate |].
  rewrite lastHand_snoc. destruct (p h') eqn:Hp.
  - intros [= <-]. exists results, []. repeat split; [exact Hp | constructor].
  - intros Hlast. destruct (IH Hlast) as (earlier & later & -> & Hh & Hlater).
    exists earlier, (later ++ [h']). repeat split.
    + rewrite <- app_assoc. reflexivity.
    + exact Hh.
    + apply Forall_app. split; [exact Hlater | repeat constructor; exact Hp].
Qed.

(** The published pinch of a frame is that of the frame's last pinching
    hand. *)
Lemma frame_pinch_last (this : State) (now : R) (results : list Hand) :
  isInitialized this = true ->
  let this' := next (onResults this now results) in
  pinchActive this' = true ->
  exists earlier h later,
    results = earlier ++ h :: later
    /\ isPinching h = true
    /\ Forall (fun h' => isPinching h' = false) later
    /\ pinchPosition this' = Some (getPinchPosition (handLandmarks h))
    /\ pinchHand this' = Some (Js.toLowerCase (label (handedness h))).
Proof.
  intros Hinit this' Hactive. subst this'.
  rewrite frame_pinchPosition, frame_pinchHand by exact Hinit.
  rewrite Hactive.
  rewrite frame_pinchActive in Hactive by exact Hinit.
  pose proof (frame_confirmed this now results Hinit Pinch) as Hconf.
  cbn [confirmedOf] in Hconf. rewrite Hactive in Hconf.
  destruct (rawPresent Pinch results) eqn:Hraw; [| discriminate Hconf].
  destruct (lastHand_present _ _ Hraw) as (h & Hlast & _ & _).
  change (rawOn Pinch) with isPinching in Hlast. rewrite Hlast.
  destruct (lastHand_split _ _ _ Hlast) as (earlier & later & Hsplit & Hp & Hlater).
  exists earlier, h, later. repeat split; assumption.
Qed.

(** X3 (Gesture Event, its pinch).  In every Gesture Event of an initialized
    detector the pinch is active exactly when its position is not null and
    exactly when its hand is not null, so that an inactive pinch has both
    null.  When it is active, position and hand are those of the last
    pinching hand of the frame, the one after which no hand of the frame
    is pinching: the position is the midpoint of its thumb tip and index
    tip, the hand is its label in lower case. *)
Theorem event_pinch_consistent (this : State) (now : R) (results : list Hand)
    (e : Event.t) :
  isInitialized this = true ->
  emitted (onResults this now results) = Some e ->
  (Event.active (Event.pinch e) = true <-> Event.position (Event.pinch e) <> None)
  /\ (Event.active (Event.pinch e) = true <-> Event.hand (Event.pinch e) <> None)
  /\ (Event.active (Event.pinch e) = false ->
      Event.position (Event.pinch e) = None /\ Event.hand (Event.pinch e) = None)
  /\ (Event.active (Event.pinch e) = true ->
      exists earlier h later,
        results = earlier ++ h :: later
        /\ isPinch (handLandmarks h) = true
        /\ Forall (fun h' => isPinch (handLandmarks h') = false) later
        /\ Event.position (Event.pinch e)
           = Some (getPinchPosition (handLandmarks h))
        /\ Event.hand (Event.pinch e)
           = Some (Js.toLowerCase (label (handedness h)))).
Proof.
  intros Hinit Hev. rewrite frame_emitted in Hev by exact Hinit. injection Hev as <-.
  cbn [Event.pinch Event.active Event.position Event.hand].
  pose proof (frame_pinch_source this now results Hinit) as Hsrc. cbv zeta in Hsrc.
  pose proof (frame_pinch_last this now results Hinit) as Hlast. cbv zeta in Hlast.
  destruct (pinchActive (next (onResults this now results))).
  - destruct Hsrc as (h & Hin & Hp & Hpos & Hhand). rewrite Hpos, Hhand.
    split; [split; [discriminate | reflexivity] |].
    split; [split; [discriminate | reflexivity] |].
    split; [discriminate |].
    intros _. rewrite <- Hpos, <- Hhand. exact (Hlast eq_refl).
  - destruct Hsrc as [-> ->].
    split; [split; [discriminate | intros H; exfalso; apply H; reflexivity] |].
    split; [split; [discriminate | intros H; exfalso; apply H; reflexivity] |].
    split; [intros _; split; reflexivity | discriminate].
Qed.

(** [event_pinch_consistent] on the frame that confirms a pinch of both
    hands held for 450 ms, the left one at (0.25, 0.25) listed first and
    the right one at (0.75, 0.75) listed second: the event carries the
    second hand's position and label. *)
Lemma event_pinch_consistent_witness :
  let first := handOf "Left" (pinchingAt {| x := 0.25; y := 0.25 |}) in
  let second := handOf "Right" (pinchingAt {| x := 0.75; y := 0.75 |}) in
  let results := [first; second] in
  let before := frame started {| time := 0; hands := results |} in
  exists e,
    emitted (onResults before 450 results) = Some e
    /\ Event.active (Event.pinch e) = true
    /\ Event.position (Event.pinch e) = Some {| x := 0.75; y := 0.75 |}
    /\ Event.hand (Event.pinch e) = Some "right"%string.
Proof.
  intros first second results before.
  assert (Hpinch : rawPresent Pinch results = true).
  { cbn [results rawPresent rawOn existsb]. unfold first.
    rewrite pinching_raw. reflexivity. }
  destruct (pinch_confirmed_after_hold results Hpinch) as [Hinit Hactive].
  fold before in Hinit, Hactive.
  eexists. split; [apply frame_emitted; exact Hinit |].
  destruct (event_pinch_consistent before 450 results _ Hinit
              (frame_emitted before 450 results Hinit)) as (_ & _ & _ & Hlast).
  cbn [Event.pinch Event.active Event.position Event.hand] in *.
  split; [exact Hactive |].
  destruct (Hlast Hactive) as (earlier & h & later & Hsplit & _ & Hlater & Hpos & Hhand).
  assert (Hh : h = second).
  { destruct earlier as [| a [| b [| c earlier]]]; cbn in Hsplit.
    - injection Hsplit as <- <-.
      apply Forall_inv in Hlater. unfold second, handOf in Hlater.
      cbn [handLandmarks] in Hlater.
      rewrite pinchingAt_isPinch in Hlater. discriminate Hlater.
    - injection Hsplit as _ <- _. reflexivity.
    - injection Hsplit as _ _ Hnil. discriminate Hnil.
    - injection Hsplit as _ _ Hnil. discriminate Hnil. }
  rewrite Hpos, Hhand, Hh. unfold second, handOf.
  cbn [handLandmarks handedness label]. rewrite pinchingAt_position.
  split; reflexivity.
Defined.

(** *** Sticky rotations *)

Lemma frames_sticky (side : Side) (fs : list Frame) (this : State) :
  isInitialized this = true ->
  Forall (fun f => rawPresent (fistSlot side) (hands f) = false) fs ->
  publishedRotation side (frames this fs) = publishedRotation side this.
Proof.
  revert this. induction fs as [| f fs IH]; intros this Hinit Hno; [reflexivity |].
  inversion Hno as [| ? ? Hf Hfs]; subst.
  change (frames this (f :: fs)) with (frames (frame this f) fs).
  rewrite IH; [| apply frame_isInitialized; exact Hinit | exact Hfs].
  unfold frame. rewrite frame_rotation by exact Hinit. rewrite Hf. reflexivity.
Qed.

(** X4 (held rotation values).  Over any run of processed frames in none of
    which a hand is a fist on a given side (frames without hands, with open
    hands, with pinching hands, with fists of the other side only), that
    side's published rotation keeps its value, and so does the rotation in
    the last frame's Gesture Event. *)
Theorem rotation_is_sticky (side : Side) (this : State) (fs : list Frame) (f : Frame)
    (e : Event.t) :
  isInitialized this = true ->
  Forall (fun f' => rawPresent (fistSlot side) (hands f') = false) (fs ++ [f]) ->
  emitted (onResults (frames this fs) (time f) (hands f)) = Some e ->
  publishedRotation side (frames this (fs ++ [f])) = publishedRotation side this
  /\ match side with
     | OnLeft => Event.leftRotation e
     | OnRight => Event.rightRotation e
     end = publishedRotation side this.
Proof.
  intros Hinit Hno Hev.
  pose proof (frames_sticky side (fs ++ [f]) this Hinit Hno) as Hkeep.
  split; [exact Hkeep |].
  rewrite frame_emitted in Hev by (apply frames_isInitialized; exact Hinit).
  injection Hev as <-. rewrite frames_snoc in Hkeep. unfold frame in Hkeep.
  destruct side; exact Hkeep.
Qed.

(** [rotation_is_sticky] after a confirmed left fist: one frame without
    hands and one with a pinching hand leave the left rotation at 90. *)
Lemma rotation_is_sticky_witness :
  let fist t := {| time := t; hands := [handOf "Left" fistDown] |} in
  let held := frames started [fist 0; fist 450] in
  let away := [{| time := 500; hands := [] |}] in
  let pinch := {| time := 550;
                  hands := [handOf "Left" (pinchingAt {| x := 0.5; y := 0.5 |})] |} in
  exists e,
    emitted (onResults (frames held away) (time pinch) (hands pinch)) = Some e
    /\ lastLeftRotation (frames held (away ++ [pinch])) = lastLeftRotation held
    /\ Event.leftRotation e = lastLeftRotation held.
Proof.
  intros fist held away pinch.
  assert (Hinit : isInitialized held = true)
    by (apply frames_isInitialized; reflexivity).
  eexists. split.
  - apply frame_emitted. apply frames_isInitialized. exact Hinit.
  - apply (rotation_is_sticky OnLeft held away pinch).
    + exact Hinit.
    + repeat constructor; cbn [hands pinch rawPresent fistSlot rawOn existsb].
      rewrite (proj1 (pinching_not_fist _ _)). reflexivity.
    + apply frame_emitted. apply frames_isInitialized. exact Hinit.
Defined.

(** *** Detection starvation *)

(** The debouncers leave the starvation counter alone. *)
Lemma debounce_counters (now : R) (a b c : bool) (data : option PinchData) (this : State) :
  let debounced :=
    processPinch now a data (processRightFist now b (processLeftFist now c this)) in
  noDetectionCount debounced = noDetectionCount this
  /\ maxNoDetection debounced = maxNoDetection this.
Proof.
  cbv zeta. rewrite processPinch_eq, processRightFist_eq, processLeftFist_eq.
  split; reflexivity.
Qed.

Lemma frame_counter (this : State) (now : R) (results : list Hand) :
  isInitialized this = true ->
  let out := onResults this now results in
  noDetectionCount (next out) =
  (if Nat.eqb (List.length results) 0 then S (noDetectionCount this) else 0%nat)
  /\ maxNoDetection (next out) = maxNoDetection this
  /\ restartCamera out =
     (if Nat.eqb (List.length results) 0
      then Nat.leb (maxNoDetection this) (S (noDetectionCount this))
      else false).
Proof.
  intros Hinit out. subst out. unfold onResults, getHandRotationAngle.
  rewrite Hinit, forEach_spec. cbn [negb].
  cbn [leftFistDetected rightFistDetected pinchDetected pinchData left right].
  match goal with
  | |- context [processPinch ?n ?a ?d (processRightFist ?n ?b (processLeftFist ?n ?c ?X))] =>
      destruct (debounce_counters n a b c d X) as [Hc Hm];
      change (noDetectionCount X) with (noDetectionCount this) in Hc;
      change (maxNoDetection X) with (maxNoDetection this) in Hm;
      cbv zeta in Hc, Hm;
      generalize dependent (processPinch n a d (processRightFist n b (processLeftFist n c X)))
  end.
  intros debounced Hc Hm.
  destruct (Nat.eqb (List.length results) 0);
    cbn [next restartCamera fst snd noDetectionCount maxNoDetection set_noDetectionCount
         set_hand1Rotation set_hand2Rotation]; rewrite ?Hc, ?Hm; repeat split.
Qed.

Lemma frames_counter (fs : list Frame) (this : State) :
  isInitialized this = true ->
  Forall (fun f => hands f = []) fs ->
  noDetectionCount (frames this fs) = (noDetectionCount this + List.length fs)%nat
  /\ maxNoDetection (frames this fs) = maxNoDetection this.
Proof.
  revert this. induction fs as [| f fs IH]; intros this Hinit Hempty.
  - split; [cbn; lia | reflexivity].
  - inversion Hempty as [| ? ? Hf Hfs]; subst.
    change (frames this (f :: fs)) with (frames (frame this f) fs).
    destruct (IH (frame this f)) as [Hc Hm];
      [apply frame_isInitialized; exact Hinit | exact Hfs |].
    destruct (frame_counter this (time f) (hands f) Hinit) as (Hc1 & Hm1 & _).
    rewrite Hc, Hm. unfold frame.
    rewrite Hc1, Hm1, Hf. cbn [List.length Nat.eqb]. split; [lia | reflexivity].
Qed.

(** X5 (detection starvation).  A processed frame with at least one hand
    clears the no-detection counter and never asks for a camera restart.
    After [n] consecutive processed frames without hands the counter has
    grown by [n], and the next frame without hands calls [restartCamera()]
    exactly when the counter then reaches [maxNoDetection]: the call is
    repeated in every further empty frame until the restart has cleared the
    counter. *)
Theorem starvation_restart (this : State) (fs : list Frame) (now : R)
    (results : list Hand) :
  isInitialized this = true ->
  Forall (fun f => hands f = []) fs ->
  let starved := frames this fs in
  let out := onResults starved now results in
  noDetectionCount starved = (noDetectionCount this + List.length fs)%nat
  /\ (results <> [] ->
      noDetectionCount (next out) = 0%nat /\ restartCamera out = false)
  /\ (results = [] ->
      noDetectionCount (next out) = S (noDetectionCount this + List.length fs)
      /\ (restartCamera out = true <->
          (maxNoDetection this <= S (noDetectionCount this + List.length fs))%nat))
  /\ noDetectionCount (restartCamera_afterStart true (next out)) = 0%nat.
Proof.
  intros Hinit Hempty starved out.
  destruct (frames_counter fs this Hinit Hempty) as [Hc Hm].
  assert (Hinit' : isInitialized starved = true)
    by (apply frames_isInitialized; exact Hinit).
  destruct (frame_counter starved now results Hinit') as (Hc1 & _ & Hr).
  fold out in Hc1, Hr. fold starved in Hc, Hm.
  split; [exact Hc |]. split; [| split].
  - intros Hne. destruct results as [| h results]; [contradiction |].
    split; assumption.
  - intros ->. cbn [List.length Nat.eqb] in Hc1, Hr. rewrite Hc1, Hr, Hc, Hm.
    split; [reflexivity |]. apply Nat.leb_le.
  - reflexivity.
Qed.

(** [starvation_restart] on the started detector: 299 frames without hands
    ask for nothing, the 300th asks for the restart. *)
Lemma starvation_restart_witness :
  let empty := {| time := 0; hands := [] |} in
  restartCamera (onResults (frames started (repeat empty 298)) 0 []) = false
  /\ restartCamera (onResults (frames started (repeat empty 299)) 0 []) = true.
Proof.
  intros empty.
  assert (Hall : forall n, Forall (fun f => hands f = []) (repeat empty n)).
  { intros n. apply Forall_forall. intros f Hin.
    apply repeat_spec in Hin. subst f. reflexivity. }
  split.
  - destruct (starvation_restart started (repeat empty 298) 0 [])
      as (_ & _ & Hrestart & _); [reflexivity | apply Hall |].
    destruct (Hrestart eq_refl) as [_ Hiff].
    destruct (restartCamera _); [| reflexivity].
    rewrite repeat_length in Hiff. cbn [noDetectionCount maxNoDetection started] in Hiff.
    assert (300 <= 299)%nat by (apply Hiff; reflexivity). lia.
  - destruct (starvation_restart started (repeat empty 299) 0 [])
      as (_ & _ & Hrestart & _); [reflexivity | apply Hall |].
    destruct (Hrestart eq_refl) as [_ Hiff]. apply Hiff.
    rewrite repeat_length. cbn [noDetectionCount maxNoDetection started]. lia.
Defined.

(** *** The pinch debouncer *)

Lemma lastHands_snoc (h0 : list Hand) (fs : list Frame) (f : Frame) :
  lastHands h0 (fs ++ [f]) = hands f.
Proof. unfold lastHands. rewrite fold_left_app. reflexivity. Qed.

(** A frame without a pinching hand: the pinch slot is cleared and the
    frame's Gesture Event carries an inactive pinch. *)
Lemma frame_pinch_gone (this : State) (now : R) (results : list Hand) :
  isInitialized this = true ->
  rawPresent Pinch results = false ->
  let out := onResults this now results in
  pinchActive (next out) = false
  /\ pinchHoldStart (next out) = None
  /\ exists e, emitted out = Some e
               /\ Event.pinch e = {| Event.active := false;
                                     Event.position := None;
                                     Event.hand := None |}.
Proof.
  intros Hinit Hraw out. subst out.
  pose proof (frame_confirmed this now results Hinit Pinch) as Hconf.
  pose proof (frame_holdStart this now results Hinit Pinch) as Hstart.
  pose proof (frame_pinchActive this now results Hinit) as Hactive.
  cbn [confirmedOf holdStartOf] in Hconf, Hstart.
  rewrite Hraw in Hconf, Hstart. rewrite Hconf in Hactive.
  split; [exact Hactive |]. split; [exact Hstart |].
  eexists. split; [apply frame_emitted; exact Hinit |].
  cbn [Event.pinch].
  rewrite frame_pinchPosition, frame_pinchHand by exact Hinit.
  rewrite Hactive. reflexivity.
Qed.

(** X6 (pinch hold-to-activate).  A pinch that appears while the pinch slot
    is idle and then stays in every frame: in each frame whose clock is less
    than the hold duration past the first one the published pinch is
    inactive with null position and hand; in each frame at or past the hold
    duration it is active, with the position and label of the last pinching
    hand of that very frame.  The first frame without a pinching hand,
    whenever it comes, reports the pinch inactive again, with null position
    and hand, and clears the timer. *)
Theorem pinch_hold_to_activate (this : State) (f1 : Frame) (rest : list Frame) :
  reachable this ->
  pinchHoldStart this = None ->
  Forall (fun f => rawPresent Pinch (hands f) = true) (f1 :: rest) ->
  ascending (time f1) rest ->
  let elapsed := lastTime (time f1) rest - time f1 in
  let this' := frames this (f1 :: rest) in
  (elapsed < HOLD_DURATION_MS ->
   pinchActive this' = false /\ pinchPosition this' = None /\ pinchHand this' = None)
  /\ (HOLD_DURATION_MS <= elapsed ->
      exists h, lastHand isPinching (lastHands (hands f1) rest) = Some h
                /\ pinchActive this' = true
                /\ pinchPosition this' = Some (getPinchPosition (handLandmarks h))
                /\ pinchHand this' = Some (Js.toLowerCase (label (handedness h))))
  /\ (forall gone : Frame,
        rawPresent Pinch (hands gone) = false ->
        pinchActive (frames this (f1 :: rest ++ [gone])) = false
        /\ pinchHoldStart (frames this (f1 :: rest ++ [gone])) = None
        /\ exists e, emitted (onResults this' (time gone) (hands gone)) = Some e
                     /\ Event.pinch e = {| Event.active := false;
                                           Event.position := None;
                                           Event.hand := None |}).
Proof.
  intros Hreach Hstart Hraw Hasc elapsed this'.
  pose proof (reachable_isInitialized _ Hreach) as Hinit.
  pose proof (reachable_idle Pinch _ Hreach Hstart) as Hidle.
  destruct (hold_from_idle Pinch this f1 rest Hinit Hstart Hidle Hraw Hasc)
    as [_ Hconf].
  pose proof (frames_live Pinch this f1 rest Hinit) as Hlive.
  cbn [liveOf confirmedOf] in Hlive, Hconf. fold this' in Hlive, Hconf.
  fold elapsed in Hconf. rewrite Hconf in Hlive.
  change (lastHands (hands f1) rest) with (lastHands [] (f1 :: rest)).
  assert (Hlastraw : rawPresent Pinch (lastHands [] (f1 :: rest)) = true).
  { destruct (exists_last (l := f1 :: rest)) as (fs & f & Heq); [discriminate |].
    rewrite Heq, lastHands_snoc.
    rewrite Forall_forall in Hraw. apply Hraw. rewrite Heq.
    apply in_or_app. right. left. reflexivity. }
  assert (Hpub : pinchPosition this'
                 = (if pinchActive this'
                    then option_map position
                           (option_map pinchDataOf
                              (lastHand isPinching (lastHands [] (f1 :: rest))))
                    else None)
                 /\ pinchHand this'
                    = (if pinchActive this'
                       then option_map hand
                              (option_map pinchDataOf
                                 (lastHand isPinching (lastHands [] (f1 :: rest))))
                       else None)).
  { subst this'.
    destruct (exists_last (l := f1 :: rest)) as (fs & f & Heq); [discriminate |].
    rewrite Heq, lastHands_snoc, frames_snoc. unfold frame.
    assert (Hi : isInitialized (frames this fs) = true)
      by (apply frames_isInitialized; exact Hinit).
    split; [apply frame_pinchPosition | apply frame_pinchHand]; exact Hi. }
  destruct Hpub as [Hpos Hhand]. rewrite Hlive in Hpos, Hhand.
  split; [| split].
  - intros Hel.
    rewrite ge_false in Hlive, Hpos, Hhand by exact Hel. repeat split; assumption.
  - intros Hel.
    rewrite ge_true in Hlive, Hpos, Hhand by exact Hel.
    destruct (lastHand_present _ _ Hlastraw) as (h & Hlast & _).
    change (rawOn Pinch) with isPinching in Hlast.
    rewrite Hlast in Hpos, Hhand. exists h. repeat split; assumption.
  - intros gone Hgone.
    change (f1 :: rest ++ [gone]) with ((f1 :: rest) ++ [gone]).
    rewrite frames_snoc. fold this'. unfold frame.
    apply frame_pinch_gone; [| exact Hgone].
    apply frames_isInitialized. exact Hinit.
Qed.

(** [pinch_hold_to_activate] on the started detector: a right-hand pinch at
    (0.5, 0.5), seen at 0 ms, 449 ms and 451 ms, and gone at 460 ms. *)
Lemma pinch_hold_to_activate_witness :
  let pinch t := {| time := t;
                    hands := [handOf "Right" (pinchingAt {| x := 0.5; y := 0.5 |})] |} in
  let gone := {| time := 460; hands := [] |} in
  pinchActive (frames started [pinch 0; pinch 449]) = false
  /\ pinchActive (frames started [pinch 0; pinch 449; pinch 451]) = true
  /\ pinchHand (frames started [pinch 0; pinch 449; pinch 451]) = Some "right"%string
  /\ pinchActive (frames started [pinch 0; pinch 449; pinch 451; gone]) = false.
Proof.
  intros pinch gone.
  assert (Hraw : forall t, rawPresent Pinch (hands (pinch t)) = true).
  { intros t. cbn [pinch hands rawPresent rawOn existsb].
    rewrite pinching_raw. reflexivity. }
  assert (Hreach : reachable started) by (exists []; reflexivity).
  split.
  - destruct (pinch_hold_to_activate started (pinch 0) [pinch 449]) as [Hbefore _].
    + exact Hreach.
    + reflexivity.
    + repeat constructor; apply Hraw.
    + cbn [ascending pinch time]. split; [lra | exact I].
    + apply Hbefore. cbn [lastTime fold_left pinch time]. unfold HOLD_DURATION_MS. lra.
  - destruct (pinch_hold_to_activate started (pinch 0) [pinch 449; pinch 451])
      as (_ & Hafter & Hgone).
    + exact Hreach.
    + reflexivity.
    + repeat constructor; apply Hraw.
    + cbn [ascending pinch time]. repeat split; lra.
    + destruct Hafter as (h & Hlast & Hactive & _ & Hhand).
      * cbn [lastTime fold_left pinch time]. unfold HOLD_DURATION_MS. lra.
      * unfold lastHand in Hlast. cbn [lastHands fold_left pinch hands] in Hlast.
        rewrite pinching_raw in Hlast. injection Hlast as <-.
        split; [exact Hactive |]. split; [exact Hhand |].
        destruct (Hgone gone) as [Hinactive _]; [reflexivity | exact Hinactive].
Defined.

(** *** One gesture per hand *)

(** X22 (a fist wins over a pinch).  The classifier never calls a hand
    both a fist and a pinch: with the thumb and index tips together and
    four fingertips below their knuckles the hand is a fist.  So the three
    raw gestures of the state machine exclude one another on a hand, and
    the [!isPinch] test of the fist branch never decides: a hand feeds a
    fist slot exactly when it is a fist of that side. *)
Theorem fist_wins_over_pinch (h : Hand) :
  (isFist (handLandmarks h) = true -> isPinch (handLandmarks h) = false)
  /\ (isPinching h = true -> isLeftFist h = false /\ isRightFist h = false)
  /\ (isLeftFist h = true -> isRightFist h = false)
  /\ isLeftFist h
     = (isFist (handLandmarks h) && String.eqb (label (handedness h)) "Left")
  /\ isRightFist h
     = (isFist (handLandmarks h) && negb (String.eqb (label (handedness h)) "Left")).
Proof.
  unfold isPinching, isLeftFist, isRightFist, isPinch. cbv zeta.
  destruct (isFist (handLandmarks h));
    destruct (String.eqb (label (handedness h)) "Left");
    destruct (Js.lt _ PINCH_THRESHOLD); cbn [andb negb];
    repeat split; intros; try discriminate; reflexivity.
Qed.

(** [fist_wins_over_pinch] on a left hand pinching at the centre of the
    image. *)
Lemma fist_wins_over_pinch_witness :
  isLeftFist (handOf "Left" (pinchingAt {| x := 0.5; y := 0.5 |})) = false.
Proof.
  destruct (fist_wins_over_pinch (handOf "Left" (pinchingAt {| x := 0.5; y := 0.5 |})))
    as (_ & Hpinch & _).
  apply Hpinch, pinching_raw.
Defined.

End GestureMore.

(** ** More on the audio engine *)

Section EngineMore.

Import AudioEngine.
Local Open Scope string_scope.

(** The end of [_doInit], in closed form. *)
Lemma afterGenerate_result (this : Engine) :
  _doInit_afterGenerate this =
  Return (set_suspended NotSuspended (replayedIntensity (replayedWidth (built this)))).
Proof.
  destruct (built_facts this) as (Hinit & Hwired & _).
  rewrite afterGenerate_built. unfold replayedWidth.
  destruct (pendingWidth (built this)) as [w |].
  - rewrite setWidth_applied by assumption. cbv zeta. cbn [andThen].
    unfold replayedIntensity.
    set (mid := set_pendingWidth None _).
    assert (Hmi : isInitialized mid = true) by exact Hinit.
    assert (Hmw : wired (nodes mid)) by exact Hwired.
    destruct (pendingIntensity mid) as [i |]; [| reflexivity].
    rewrite setIntensity_applied by assumption. reflexivity.
  - cbn [andThen]. unfold replayedIntensity.
    destruct (pendingIntensity (built this)) as [i |]; [| reflexivity].
    rewrite setIntensity_applied by assumption. reflexivity.
Qed.

Lemma settle_generated (this : Engine) :
  suspended this = AwaitReverbGenerate ->
  settle true this =
  set_suspended NotSuspended (replayedIntensity (replayedWidth (built this))).
Proof.
  intros Hsus. unfold settle. rewrite Hsus, afterGenerate_result. reflexivity.
Qed.

(** *** Shape of the engine *)

Lemma setKey_fields (keyName : string) (this : Engine) :
  glideTime (setKey keyName this) = glideTime this
  /\ pendingWidth (setKey keyName this) = pendingWidth this
  /\ initPromise (setKey keyName this) = initPromise this
  /\ baseFreqs (setKey keyName this) =
     match lookup (rootNameOf keyName) ROOT_FREQUENCIES with
     | Some rootFreq => chordOf keyName rootFreq
     | None => baseFreqs this
     end
  /\ currentKey (setKey keyName this) =
     (if known keyName then keyName else currentKey this)
  /\ isMinor (setKey keyName this) =
     (if known keyName then Js.endsWith_m keyName else isMinor this).
Proof.
  unfold setKey, known, rootNameOf, chordOf.
  destruct (lookup _ ROOT_FREQUENCIES); [| repeat split].
  destruct (negb (isInitialized (set_key _ _ _ this))); repeat split.
Qed.

Lemma chordOf_length (keyName : string) (rootFreq : R) :
  List.length (chordOf keyName rootFreq) = 4%nat.
Proof. unfold chordOf. rewrite length_map. destruct (Js.endsWith_m keyName); reflexivity. Qed.

Lemma replayed_fields (this : Engine) :
  nodes (replayedIntensity (replayedWidth this)) = nodes this
  /\ state (replayedIntensity (replayedWidth this)) = state this
  /\ baseFreqs (replayedIntensity (replayedWidth this)) = baseFreqs this
  /\ glideTime (replayedIntensity (replayedWidth this)) = glideTime this
  /\ currentKey (replayedIntensity (replayedWidth this)) = currentKey this
  /\ isMinor (replayedIntensity (replayedWidth this)) = isMinor this
  /\ initPromise (replayedIntensity (replayedWidth this)) = initPromise this
  /\ pendingIntensity (replayedIntensity (replayedWidth this)) = None
  /\ pendingWidth (replayedIntensity (replayedWidth this)) = None.
Proof.
  unfold replayedIntensity, replayedWidth.
  destruct (pendingWidth this) as [w |] eqn:Hw;
    cbn [pendingIntensity set_pendingWidth emit set_lastValidWidth];
    destruct (pendingIntensity this) as [i |] eqn:Hi; repeat split; assumption.
Qed.

Lemma built_shape (this : Engine) :
  List.length (baseFreqs this) = 4%nat ->
  roundedVoices (nodes this) = [] ->
  saturatedVoices (nodes this) = [] ->
  roundedLFOs (nodes this) = [] ->
  saturatedLFOs (nodes this) = [] ->
  roundedVoices (nodes (built this)) = four RoundedVoice
  /\ saturatedVoices (nodes (built this)) = four SaturatedVoice
  /\ roundedLFOs (nodes (built this)) = four RoundedLFO
  /\ saturatedLFOs (nodes (built this)) = four SaturatedLFO
  /\ baseFreqs (built this) = baseFreqs this
  /\ glideTime (built this) = glideTime this
  /\ state (built this) = INITIALIZED.
Proof.
  intros Hlen Hrv Hsv Hrl Hsl. unfold built.
  cbn [nodes set_state set_nodes roundedVoices saturatedVoices roundedLFOs saturatedLFOs
       baseFreqs glideTime emit state].
  rewrite Hrv, Hsv, Hrl, Hsl, Hlen. repeat split.
Qed.

Lemma step_shaped (op : Op) (this : Engine) :
  settled this -> shaped this -> shaped (step this op).
Proof.
  intros Hs (Hlen & Hglide & Hshape).
  destruct op as [| ok | v | v | keyName]; cbn [step].
  - unfold init. destruct (STATE_eqb (state this) INITIALIZED) eqn:Hi;
      [repeat split; assumption |].
    destruct (STATE_eqb (state this) INITIALIZING && initPromise this);
      [repeat split; assumption |].
    unfold isInitialized in Hshape. rewrite Hi in Hshape.
    repeat split; try assumption; apply Hshape.
  - unfold settle. destruct (suspended this) eqn:Hsus;
      [repeat split; assumption | |].
    + assert (Hi : isInitialized this = false).
      { destruct (isInitialized this) eqn:Hi; [| reflexivity].
        destruct (Hs Hi) as [Hn _]. congruence. }
      rewrite Hi in Hshape.
      destruct ok; (split; [exact Hlen |]; split; [exact Hglide |]).
      * change (isInitialized (_doInit_afterToneStart this)) with (isInitialized this).
        rewrite Hi. exact Hshape.
      * exact Hshape.
    + assert (Hi : isInitialized this = false).
      { destruct (isInitialized this) eqn:Hi; [| reflexivity].
        destruct (Hs Hi) as [Hn _]. congruence. }
      rewrite Hi in Hshape. destruct Hshape as (Hrv & Hsv & Hrl & Hsl).
      destruct ok; [| repeat split; assumption].
      rewrite afterGenerate_result.
      destruct (replayed_fields (built this))
        as (Hn & Hst & Hb & Hg & _ & _ & _ & Hpi & Hpw).
      destruct (built_shape this Hlen Hrv Hsv Hrl Hsl)
        as (Hbrv & Hbsv & Hbrl & Hbsl & Hbb & Hbg & Hbs).
      remember (replayedIntensity (replayedWidth (built this))) as r eqn:Hr.
      unfold shaped, isInitialized.
      cbn [after set_suspended baseFreqs glideTime state nodes pendingIntensity pendingWidth].
      rewrite Hst, Hbs, Hb, Hbb, Hg, Hbg, Hn, Hbrv, Hbsv, Hbrl, Hbsl, Hpi, Hpw.
      cbn [STATE_eqb]. repeat split; assumption.
  - destruct (isInitialized this) eqn:Hi.
    + destruct (Hs Hi) as [_ Hw]. rewrite setIntensity_applied by assumption.
      cbv zeta. cbn [after].
      split; [exact Hlen |]. split; [exact Hglide |].
      change (isInitialized (emit _ (set_lastValidIntensity _ this)))
        with (isInitialized this).
      rewrite Hi. exact Hshape.
    + rewrite setIntensity_queued by assumption. cbv zeta. cbn [after].
      split; [exact Hlen |]. split; [exact Hglide |].
      change (isInitialized (set_pendingIntensity _ (set_lastValidIntensity _ this)))
        with (isInitialized this).
      rewrite Hi. exact Hshape.
  - destruct (isInitialized this) eqn:Hi.
    + destruct (Hs Hi) as [_ Hw]. rewrite setWidth_applied by assumption.
      cbv zeta. cbn [after].
      split; [exact Hlen |]. split; [exact Hglide |].
      change (isInitialized (emit _ (set_lastValidWidth _ this)))
        with (isInitialized this).
      rewrite Hi. exact Hshape.
    + rewrite setWidth_queued by assumption. cbv zeta. cbn [after].
      split; [exact Hlen |]. split; [exact Hglide |].
      change (isInitialized (set_pendingWidth _ (set_lastValidWidth _ this)))
        with (isInitialized this).
      rewrite Hi. exact Hshape.
  - destruct (setKey_keeps keyName this) as (Hst & _ & Hno & Hpi & _).
    destruct (setKey_fields keyName this) as (Hg & Hpw & _ & Hb & _).
    unfold shaped, isInitialized in *. rewrite Hst, Hno, Hpi, Hpw, Hg, Hb.
    split; [| split; assumption].
    destruct (lookup _ ROOT_FREQUENCIES); [apply chordOf_length | exact Hlen].
Qed.

Lemma constructed_shaped : shaped constructed.
Proof. repeat split. Qed.

Lemma reachable_shaped (this : Engine) : reachable this -> shaped this.
Proof.
  intros [ops ->]. induction ops as [| op ops IH] using rev_ind.
  - apply constructed_shaped.
  - unfold run in *. rewrite fold_left_app. cbn [fold_left].
    apply step_shaped; [| exact IH].
    apply reachable_settled. exists ops. reflexivity.
Qed.

(** X7 (voices and queue).  Whatever sequence of [init()] calls, promise
    settlements, setter calls and key changes an engine has gone through,
    including failed attempts and retries: it has four chord frequencies;
    while it is not initialized it has no voice and no LFO; once it is
    initialized each bank has exactly the four voices and four LFOs of the
    one successful [_doInit], and both parameter queues are empty. *)
Theorem engine_keeps_its_shape (this : Engine) (ops : list Op) :
  this = run constructed ops ->
  List.length (baseFreqs this) = 4%nat
  /\ (isInitialized this = false ->
      roundedVoices (nodes this) = [] /\ saturatedVoices (nodes this) = []
      /\ roundedLFOs (nodes this) = [] /\ saturatedLFOs (nodes this) = [])
  /\ (isInitialized this = true ->
      roundedVoices (nodes this) = four RoundedVoice
      /\ saturatedVoices (nodes this) = four SaturatedVoice
      /\ roundedLFOs (nodes this) = four RoundedLFO
      /\ saturatedLFOs (nodes this) = four SaturatedLFO
      /\ pendingIntensity this = None
      /\ pendingWidth this = None).
Proof.
  intros Hrun.
  assert (Hreach : reachable this) by (exists ops; exact Hrun).
  destruct (reachable_shaped this Hreach) as (Hlen & _ & Hshape).
  split; [exact Hlen |].
  split; intros Hi; rewrite Hi in Hshape; exact Hshape.
Qed.

(** [engine_keeps_its_shape] on an engine whose first attempt fails at the
    reverb and whose second succeeds, with a width queued in between. *)
Lemma engine_keeps_its_shape_witness :
  let ready :=
    run constructed [CallInit; Settle true; Settle false;
                     CallSetWidth (Js.num 0.5);
                     CallInit; Settle true; Settle true] in
  isInitialized ready = true
  /\ roundedVoices (nodes ready) = four RoundedVoice
  /\ saturatedVoices (nodes ready) = four SaturatedVoice
  /\ pendingWidth ready = None.
Proof.
  intros ready.
  destruct (engine_keeps_its_shape ready
              [CallInit; Settle true; Settle false; CallSetWidth (Js.num 0.5);
               CallInit; Settle true; Settle true] eq_refl)
    as (_ & _ & Hinit).
  assert (Hi : isInitialized ready = true) by reflexivity.
  destruct (Hinit Hi) as (Hrv & Hsv & _ & _ & _ & Hpw).
  repeat split; assumption.
Defined.

(** *** One initialization at a time *)

Ltac through_setter :=
  repeat (cbn [nodes emit set_lastValidIntensity set_lastValidWidth andThen after
               set_pendingIntensity set_pendingWidth state suspended initPromise];
          match goal with
          | |- context [match ?x with _ => _ end] => destruct x
          end);
  cbn [nodes emit set_lastValidIntensity set_lastValidWidth andThen after
       set_pendingIntensity set_pendingWidth state suspended initPromise].

Lemma setIntensity_control (v : Js.Value) (this : Engine) :
  state (after (setIntensity v this)) = state this
  /\ suspended (after (setIntensity v this)) = suspended this
  /\ initPromise (after (setIntensity v this)) = initPromise this.
Proof.
  unfold setIntensity, rampTo, setProp. cbv zeta.
  destruct (negb (isInitialized (set_lastValidIntensity _ this))); [repeat split |].
  through_setter; repeat split.
Qed.

Lemma setWidth_control (v : Js.Value) (this : Engine) :
  state (after (setWidth v this)) = state this
  /\ suspended (after (setWidth v this)) = suspended this
  /\ initPromise (after (setWidth v this)) = initPromise this.
Proof.
  unfold setWidth, rampTo. cbv zeta.
  destruct (negb (isInitialized (set_lastValidWidth _ this))); [repeat split |].
  through_setter; repeat split.
Qed.

Lemma inFlight_generated (this result : Engine) :
  state result = state (built this) ->
  match state (set_suspended NotSuspended result) with
  | INITIALIZING =>
      initPromise (set_suspended NotSuspended result) = true
      /\ suspended (set_suspended NotSuspended result) <> NotSuspended
  | _ => suspended (set_suspended NotSuspended result) = NotSuspended
  end.
Proof.
  intros Hst. cbn [state set_suspended suspended]. rewrite Hst. reflexivity.
Qed.

Lemma step_inFlight (op : Op) (this : Engine) :
  inFlight this -> inFlight (step this op).
Proof.
  unfold inFlight. intros Hf.
  destruct op as [| ok | v | v | keyName]; cbn [step].
  - unfold init. destruct (state this) eqn:Hst; cbn [STATE_eqb andb].
    + cbn. split; [reflexivity | discriminate].
    + destruct Hf as [Hp Hsus]. rewrite Hp, Hst. split; assumption.
    + rewrite Hst. exact Hf.
    + cbn. split; [reflexivity | discriminate].
  - unfold settle. destruct (suspended this) eqn:Hsus.
    + rewrite Hsus. exact Hf.
    + destruct (state this) eqn:Hst; try discriminate Hf.
      destruct ok; cbn; [rewrite Hst; split; [apply Hf | discriminate] | reflexivity].
    + destruct (state this) eqn:Hst; try discriminate Hf.
      destruct ok; [| reflexivity].
      rewrite afterGenerate_result.
      apply (inFlight_generated this), replayed_fields.
  - destruct (setIntensity_control v this) as (-> & -> & ->). exact Hf.
  - destruct (setWidth_control v this) as (-> & -> & ->). exact Hf.
  - destruct (setKey_keeps keyName this) as (-> & -> & _).
    destruct (setKey_fields keyName this) as (_ & _ & -> & _). exact Hf.
Qed.

Lemma reachable_inFlight (this : Engine) : reachable this -> inFlight this.
Proof.
  intros [ops ->]. induction ops as [| op ops IH] using rev_ind.
  - reflexivity.
  - unfold run in *. rewrite fold_left_app. apply step_inFlight, IH.
Qed.

Lemma init_idempotent (this : Engine) : init (init this) = init this.
Proof.
  unfold init at 2 3.
  destruct (STATE_eqb (state this) INITIALIZED) eqn:Hi.
  - unfold init. rewrite Hi. reflexivity.
  - destruct (STATE_eqb (state this) INITIALIZING && initPromise this) eqn:Hp.
    + unfold init. rewrite Hi, Hp. reflexivity.
    + reflexivity.
Qed.

(** X8 (initialization mutex).  On an engine that a program can hold,
    [init()] while an attempt is in flight changes nothing, and [init()] on
    an initialized engine changes nothing: however many times [init()] is
    called in a row, one attempt at most is started, with one
    [Tone.start()]. *)
Theorem init_shares_the_attempt (this : Engine) (n : nat) :
  reachable this ->
  (state this = INITIALIZING \/ state this = INITIALIZED -> init this = this)
  /\ run (init this) (repeat CallInit n) = init this
  /\ (countToneStart (effects (run this (repeat CallInit (S n))))
      <= S (countToneStart (effects this)))%nat.
Proof.
  intros Hreach. pose proof (reachable_inFlight this Hreach) as Hf.
  assert (Hrep : forall k, run (init this) (repeat CallInit k) = init this).
  { induction k as [| k IH]; [reflexivity |].
    cbn [repeat]. change (run (init this) (CallInit :: repeat CallInit k))
      with (run (init (init this)) (repeat CallInit k)).
    rewrite init_idempotent. exact IH. }
  split; [| split].
  - unfold inFlight in Hf. intros [Hst | Hst]; unfold init; rewrite Hst in *.
    + destruct Hf as [-> _]. reflexivity.
    + reflexivity.
  - apply Hrep.
  - change (run this (repeat CallInit (S n)))
      with (run (init this) (repeat CallInit n)).
    rewrite Hrep. unfold init.
    destruct (STATE_eqb (state this) INITIALIZED); [lia |].
    destruct (STATE_eqb (state this) INITIALIZING && initPromise this); [lia |].
    unfold _doInit, countToneStart. cbn [effects set_initPromise set_suspended emit set_state].
    rewrite filter_app, length_app. cbn. lia.
Qed.

(** [init_shares_the_attempt] on a new engine: three calls of [init()] leave
    what one call leaves. *)
Lemma init_shares_the_attempt_witness :
  run constructed [CallInit; CallInit; CallInit] = init constructed
  /\ countToneStart (effects (run constructed [CallInit; CallInit; CallInit])) = 1%nat.
Proof.
  destruct (init_shares_the_attempt constructed 2) as (_ & Hrun & _).
  - exists []. reflexivity.
  - split; [exact Hrun | reflexivity].
Defined.

(** *** A failed attempt *)

Lemma failed_attempt (this : Engine) :
  inFlight this -> state this = INITIALIZING ->
  settle false this = _doInit_catch this.
Proof.
  unfold inFlight. intros Hf Hst. rewrite Hst in Hf. destruct Hf as [_ Hsus].
  unfold settle. destruct (suspended this); [contradiction | reflexivity | reflexivity].
Qed.

(** X9 (retry).  When the attempt in flight fails, at either [await], the
    engine is in state [ERROR] with nothing called on the library, and the
    queue is kept: the next [init()] starts a new attempt with
    [Tone.start()], and when that attempt succeeds the intensity queued
    before the failure is the one applied, once. *)
Theorem queue_survives_failed_attempt (this : Engine) (i : R) :
  reachable this ->
  state this = INITIALIZING ->
  pendingIntensity this = Some i ->
  let failed := settle false this in
  let retried := run failed [CallInit; Settle true; Settle true] in
  state failed = ERROR
  /\ effects failed = effects this
  /\ effects (init failed) = (effects this ++ [ToneStart])%list
  /\ isInitialized retried = true
  /\ pendingIntensity retried = None
  /\ intensityEffects (effects retried) =
     (intensityEffects (effects this) ++ intensityMapping (_clamp i 0 1))%list.
Proof.
  intros Hreach Hst Hpending failed retried.
  assert (Hfailed : failed = _doInit_catch this).
  { apply failed_attempt; [apply reachable_inFlight; exact Hreach | exact Hst]. }
  split; [rewrite Hfailed; reflexivity |].
  split; [rewrite Hfailed; reflexivity |].
  split; [rewrite Hfailed; reflexivity |].
  set (generating :=
         _doInit_afterToneStart
           (set_initPromise true (_doInit (set_state INITIALIZING (_doInit_catch this))))).
  assert (Hretried : retried = settle true generating).
  { subst retried generating. rewrite Hfailed. reflexivity. }
  assert (Hsus : suspended generating = AwaitReverbGenerate) by reflexivity.
  assert (Hq : pendingIntensity generating = Some i) by exact Hpending.
  assert (He : intensityEffects (effects generating) = intensityEffects (effects this)).
  { subst generating. unfold _doInit_afterToneStart, _doInit, _doInit_catch, intensityEffects.
    cbn [effects emit set_suspended set_nodes set_initPromise set_state].
    rewrite !filter_app. cbn [List.filter isIntensityEffect]. rewrite !app_nil_r.
    reflexivity. }
  rewrite Hretried. unfold settle. rewrite Hsus.
  destruct (afterGenerate_returns generating) as (result & -> & Hri & _ & _ & Hrp & Hre).
  rewrite Hq, He in Hre. repeat split; assumption.
Qed.

(** [queue_survives_failed_attempt] on an engine whose first attempt is
    waiting for [Tone.start()], with intensity 0.5 queued. *)
Lemma queue_survives_failed_attempt_witness :
  let this := run constructed [CallInit; CallSetIntensity (Js.num 0.5)] in
  state (settle false this) = ERROR
  /\ intensityEffects
       (effects (run (settle false this) [CallInit; Settle true; Settle true])) =
     intensityMapping (_clamp 0.5 0 1).
Proof.
  intros this.
  destruct (queue_survives_failed_attempt this 0.5) as (Hs & _ & _ & _ & _ & He).
  - exists [CallInit; CallSetIntensity (Js.num 0.5)]. reflexivity.
  - reflexivity.
  - reflexivity.
  - split; [exact Hs | exact He].
Defined.

(** *** Parameter ranges *)

Lemma clamp_unit (v : R) : 0 <= _clamp v 0 1 <= 1.
Proof.
  unfold _clamp. split; [apply Rmax_l |].
  apply Rmax_lub; [lra | apply Rmin_l].
Qed.

Ltac ranges :=
  unfold inRange, within, Js.num;
  cbn [String.eqb Ascii.eqb Bool.eqb andb];
  try exact I; try nra.

Ltac each_effect := repeat apply Forall_cons; try apply Forall_nil.

Lemma intensityMapping_inRange (i : R) :
  0 <= i <= 1 -> Forall inRange (intensityMapping i).
Proof.
  intros Hi. unfold intensityMapping. each_effect; ranges.
Qed.

Lemma widthMapping_inRange (n : Nodes) (w : R) :
  0 <= w <= 1 -> Forall inRange (widthMapping n w).
Proof.
  intros Hw. unfold widthMapping.
  apply Forall_app; split.
  - induction (roundedVoices n ++ saturatedVoices n)%list as [| voice l IH];
      [apply Forall_nil | apply Forall_cons; [| exact IH]].
    destruct voice; ranges.
  - apply Forall_app; split.
    + each_effect; ranges.
    + apply Forall_app; split.
      * induction (roundedLFOs n ++ saturatedLFOs n)%list as [| lfo l IH];
          [apply Forall_nil |].
        cbn [flat_map app].
        apply Forall_cons; [destruct lfo; ranges |].
        apply Forall_cons; [destruct lfo; ranges | exact IH].
      * each_effect; ranges.
Qed.

Lemma createBank_inRange (voice lfo : nat -> Node) (type : string) (gain : Node)
    (lfoBase : R) (freqs : list R) :
  Forall inRange (createBank voice lfo type gain lfoBase freqs).
Proof.
  unfold createBank.
  induction (combine (seq 0 (List.length freqs)) freqs) as [| [i f] l IH];
    [apply Forall_nil |].
  cbn [flat_map]. apply Forall_app; split; [| exact IH].
  unfold createVoice. each_effect; exact I.
Qed.

Lemma built_inRange (this : Engine) :
  Forall inRange (effects this) -> Forall inRange (effects (built this)).
Proof.
  intros H. unfold built. cbn [effects emit set_state set_nodes baseFreqs].
  repeat (apply Forall_app; split); try apply createBank_inRange; try exact H.
  each_effect; exact I.
Qed.

Lemma replayed_inRange (this : Engine) :
  Forall inRange (effects this) ->
  Forall inRange (effects (replayedIntensity (replayedWidth this))).
Proof.
  intros H.
  assert (Hw : Forall inRange (effects (replayedWidth this))).
  { unfold replayedWidth. destruct (pendingWidth this) as [w |]; [| exact H].
    cbn [effects set_pendingWidth emit set_lastValidWidth].
    apply Forall_app; split; [exact H | apply widthMapping_inRange, clamp_unit]. }
  unfold replayedIntensity.
  destruct (pendingIntensity (replayedWidth this)) as [i |]; [| exact Hw].
  cbn [effects set_pendingIntensity emit set_lastValidIntensity].
  apply Forall_app; split; [exact Hw | apply intensityMapping_inRange, clamp_unit].
Qed.

Lemma glide_inRange (newFreqs : list R) (t : R) :
  Forall inRange (glideVoices (four RoundedVoice) newFreqs t)
  /\ Forall inRange (glideVoices (four SaturatedVoice) newFreqs t).
Proof.
  split; unfold glideVoices, four; cbn [seq map List.length combine];
    each_effect; exact I.
Qed.

Lemma inRange_generated (result : Engine) :
  Forall inRange (effects result) ->
  Forall inRange (effects (after (Return (set_suspended NotSuspended result)))).
Proof. intros H. exact H. Qed.

Lemma step_inRange (op : Op) (this : Engine) :
  settled this -> shaped this ->
  Forall inRange (effects this) -> Forall inRange (effects (step this op)).
Proof.
  intros Hs (_ & _ & Hshape) H.
  destruct op as [| ok | v | v | keyName]; cbn [step].
  - unfold init.
    destruct (STATE_eqb (state this) INITIALIZED); [exact H |].
    destruct (STATE_eqb (state this) INITIALIZING && initPromise this); [exact H |].
    cbn [effects set_initPromise _doInit set_suspended emit set_state].
    apply Forall_app; split; [exact H | each_effect; exact I].
  - unfold settle. destruct (suspended this); [exact H | |].
    + destruct ok; [| exact H].
      unfold _doInit_afterToneStart.
      cbn [effects set_suspended emit set_nodes].
      repeat (apply Forall_app; split); try exact H; each_effect; exact I.
    + destruct ok; [| exact H].
      rewrite afterGenerate_result.
      apply inRange_generated, replayed_inRange, built_inRange, H.
  - destruct (isInitialized this) eqn:Hi.
    + destruct (Hs Hi) as [_ Hw].
      rewrite setIntensity_applied by assumption. cbv zeta.
      cbn [after effects emit set_lastValidIntensity].
      apply Forall_app; split; [exact H | apply intensityMapping_inRange, clamp_unit].
    + rewrite setIntensity_queued by assumption. exact H.
  - destruct (isInitialized this) eqn:Hi.
    + destruct (Hs Hi) as [_ Hw].
      rewrite setWidth_applied by assumption. cbv zeta.
      cbn [after effects emit set_lastValidWidth].
      apply Forall_app; split; [exact H | apply widthMapping_inRange, clamp_unit].
    + rewrite setWidth_queued by assumption. exact H.
  - unfold setKey. destruct (lookup _ ROOT_FREQUENCIES) as [rootFreq |].
    + change (isInitialized (set_key _ _ _ this)) with (isInitialized this).
      destruct (isInitialized this); [| exact H]. cbn [negb].
      destruct Hshape as (Hrv & Hsv & _).
      cbn [effects emit nodes set_key]. rewrite Hrv, Hsv.
      repeat (apply Forall_app; split); try exact H; apply glide_inRange.
    + cbn [effects emit]. apply Forall_app; split; [exact H | each_effect; exact I].
Qed.

(** X10 (parameter ranges).  Whatever values are passed to [setIntensity]
    and [setWidth], valid or not, in or out of the unit interval, before,
    during or after initialization, and whatever keys to [setKey]: every
    value the engine sends to a parameter that intensity or width drives
    is finite and inside the range that the source documents for it
    (gains 0 to 1, cutoff 300 to 5000 Hz, Q 1 to 3, chorus depth 0.3 to
    0.8, spread 10 to 50 cents, chorus rate 1 to 6 Hz, LFO depth 2 to 15
    cents, stereo width 0.3 to 1). *)
Theorem parameters_stay_in_range (this : Engine) (ops : list Op) :
  this = run constructed ops -> Forall inRange (effects this).
Proof.
  intros ->. induction ops as [| op ops IH] using rev_ind.
  - apply Forall_nil.
  - unfold run in *. rewrite fold_left_app. cbn [fold_left].
    apply step_inRange; [| | exact IH].
    + apply reachable_settled. exists ops. reflexivity.
    + apply reachable_shaped. exists ops. reflexivity.
Qed.

(** [parameters_stay_in_range] on an engine driven with values outside the
    unit interval and an invalid one: the gain sent last to the saturated
    bank is 1. *)
Lemma parameters_stay_in_range_witness :
  let this := run constructed [CallSetWidth (Js.num (-3)); CallInit; Settle true;
                               Settle true; CallSetIntensity (Js.num 7);
                               CallSetIntensity (Js.Num Js.NaN)] in
  Forall inRange (effects this).
Proof.
  intros this. apply (parameters_stay_in_range this _ eq_refl).
Defined.

(** *** Changing key *)

Lemma setKey_effects (keyName : string) (rootFreq : R) (this : Engine) :
  lookup (rootNameOf keyName) ROOT_FREQUENCIES = Some rootFreq ->
  effects (setKey keyName this) =
  (if isInitialized this
   then (effects this
         ++ glideVoices (roundedVoices (nodes this)) (chordOf keyName rootFreq)
              (glideTime this)
         ++ glideVoices (saturatedVoices (nodes this)) (chordOf keyName rootFreq)
              (glideTime this))%list
   else effects this).
Proof.
  intros Hroot. unfold setKey. fold (rootNameOf keyName). rewrite Hroot. cbv zeta.
  change (isInitialized (set_key _ _ _ this)) with (isInitialized this).
  destruct (isInitialized this); cbn [negb]; [| reflexivity].
  cbn [effects emit nodes glideTime set_key]. rewrite <- app_assoc. reflexivity.
Qed.

Lemma glide_four (keyName : string) (rootFreq : R) :
  (glideVoices (four RoundedVoice) (chordOf keyName rootFreq) 0.5
   ++ glideVoices (four SaturatedVoice) (chordOf keyName rootFreq) 0.5)%list
  = glides (chordOf keyName rootFreq).
Proof.
  unfold chordOf, MINOR_INTERVALS, MAJOR_INTERVALS.
  destruct (Js.endsWith_m keyName); reflexivity.
Qed.

(** X11 (glide).  On an initialized engine, [setKey] with a key whose root
    is in the frequency table records the key and its four chord tones and
    asks each of the eight voices, rounded bank first, to glide to its own
    chord tone over half a second: eight ramps, none to [undefined], and
    nothing else. *)
Theorem setKey_glides_eight_voices (this : Engine) (keyName : string) (rootFreq : R) :
  reachable this ->
  isInitialized this = true ->
  lookup (rootNameOf keyName) ROOT_FREQUENCIES = Some rootFreq ->
  effects (setKey keyName this) =
  (effects this ++ glides (chordOf keyName rootFreq))%list
  /\ List.length (glides (chordOf keyName rootFreq)) = 8%nat
  /\ baseFreqs (setKey keyName this) = chordOf keyName rootFreq
  /\ getCurrentKey (setKey keyName this) = keyName.
Proof.
  intros Hreach Hinit Hroot.
  destruct (reachable_shaped this Hreach) as (_ & Hglide & Hshape).
  rewrite Hinit in Hshape. destruct Hshape as (Hrv & Hsv & _).
  destruct (setKey_fields keyName this) as (_ & _ & _ & Hb & Hk & _).
  unfold known in Hk. rewrite Hroot in Hb, Hk.
  repeat split; try assumption.
  - rewrite (setKey_effects keyName rootFreq this Hroot), Hinit, Hrv, Hsv, Hglide.
    rewrite glide_four. reflexivity.
  - unfold chordOf, MINOR_INTERVALS, MAJOR_INTERVALS.
    destruct (Js.endsWith_m keyName); reflexivity.
Qed.

(** [setKey_glides_eight_voices] on a new engine after a successful
    initialization, for A minor. *)
Lemma setKey_glides_eight_voices_witness :
  let this := run constructed [CallInit; Settle true; Settle true] in
  effects (setKey "Am" this) = (effects this ++ glides (chordOf "Am" 220.00))%list.
Proof.
  intros this.
  destruct (setKey_glides_eight_voices this "Am" 220.00) as (He & _).
  - exists [CallInit; Settle true; Settle true]. reflexivity.
  - reflexivity.
  - reflexivity.
  - exact He.
Defined.

Lemma built_effects (this : Engine) :
  effects (built this) =
  (effects this ++ chainCreated (reverb (nodes this))
   ++ voicesCreated (baseFreqs this))%list.
Proof.
  unfold built, voicesCreated, chainCreated.
  cbn [effects emit set_state set_nodes baseFreqs].
  rewrite <- !app_assoc. reflexivity.
Qed.

Lemma replayed_effects (this : Engine) :
  exists replay, effects (replayedIntensity (replayedWidth this)) = (effects this ++ replay)%list.
Proof.
  unfold replayedIntensity, replayedWidth.
  destruct (pendingWidth this) as [w |];
    cbn [pendingIntensity set_pendingWidth emit set_lastValidWidth];
    destruct (pendingIntensity this) as [i |];
    cbn [effects set_pendingIntensity set_pendingWidth emit set_lastValidIntensity
         set_lastValidWidth].
  - eexists. rewrite <- app_assoc. reflexivity.
  - eexists. reflexivity.
  - eexists. reflexivity.
  - exists []. rewrite app_nil_r. reflexivity.
Qed.

Lemma initialized_generated (this result : Engine) :
  state result = state (built this) ->
  isInitialized (set_suspended NotSuspended result) = true.
Proof.
  intros Hst. destruct (built_facts this) as (Hbi & _).
  unfold isInitialized in *. cbn [state set_suspended]. rewrite Hst. exact Hbi.
Qed.

Lemma generated_init (this : Engine) :
  suspended this = AwaitReverbGenerate ->
  isInitialized (settle true this) = true.
Proof.
  intros Hsus. rewrite settle_generated by exact Hsus.
  apply (initialized_generated this), replayed_fields.
Qed.

Lemma effects_generated (this result : Engine) (replay : list Effect) :
  effects result = (effects (built this) ++ replay)%list ->
  effects (set_suspended NotSuspended result) =
  (effects this ++ chainCreated (reverb (nodes this))
   ++ voicesCreated (baseFreqs this) ++ replay)%list.
Proof.
  intros Hr. cbn [effects set_suspended].
  rewrite Hr, built_effects, <- 2!app_assoc. reflexivity.
Qed.

Lemma generated_effects (this : Engine) :
  suspended this = AwaitReverbGenerate ->
  exists replay,
    effects (settle true this) =
    (effects this ++ chainCreated (reverb (nodes this))
     ++ voicesCreated (baseFreqs this) ++ replay)%list.
Proof.
  intros Hsus. rewrite settle_generated by exact Hsus.
  destruct (replayed_effects (built this)) as [replay Hr].
  exists replay. apply effects_generated, Hr.
Qed.

(** X12 (key chosen before the sound starts).  While an initialization is
    waiting for the reverb, [setKey] with a key whose root is in the table
    calls nothing on the library, and when the initialization completes the
    eight voices are created at the chord tones of that key, not at those
    of the constructor. *)
Theorem key_set_before_init_is_used (this : Engine) (keyName : string) (rootFreq : R) :
  reachable this ->
  suspended this = AwaitReverbGenerate ->
  lookup (rootNameOf keyName) ROOT_FREQUENCIES = Some rootFreq ->
  let keyed := setKey keyName this in
  effects keyed = effects this
  /\ isInitialized (settle true keyed) = true
  /\ exists replay,
       effects (settle true keyed) =
       (effects this ++ chainCreated (reverb (nodes this))
        ++ voicesCreated (chordOf keyName rootFreq) ++ replay)%list.
Proof.
  intros Hreach Hsus Hroot keyed.
  assert (Hi : isInitialized this = false).
  { destruct (isInitialized this) eqn:Hi; [| reflexivity].
    destruct (reachable_settled this Hreach Hi) as [Hn _]. congruence. }
  assert (He : effects keyed = effects this).
  { subst keyed. rewrite (setKey_effects keyName rootFreq this Hroot), Hi. reflexivity. }
  destruct (setKey_keeps keyName this) as (_ & Hks & Hkn & _).
  destruct (setKey_fields keyName this) as (_ & _ & _ & Hb & _).
  rewrite Hroot in Hb.
  assert (Hsus' : suspended (setKey keyName this) = AwaitReverbGenerate)
    by (rewrite Hks; exact Hsus).
  destruct (generated_effects (setKey keyName this) Hsus') as [replay Hr].
  rewrite Hkn, Hb in Hr.
  split; [exact He |]. split; [exact (generated_init _ Hsus') |].
  exists replay. rewrite <- He. exact Hr.
Qed.

(** [key_set_before_init_is_used] for A minor, chosen while the first
    initialization of a new engine waits for the reverb. *)
Lemma key_set_before_init_is_used_witness :
  let this := run constructed [CallInit; Settle true] in
  effects (setKey "Am" this) = effects this
  /\ isInitialized (settle true (setKey "Am" this)) = true.
Proof.
  intros this.
  destruct (key_set_before_init_is_used this "Am" 220.00) as (He & Hi & _).
  - exists [CallInit; Settle true]. reflexivity.
  - reflexivity.
  - reflexivity.
  - split; [exact He | exact Hi].
Defined.

(** *** The key that the engine holds *)

Lemma built_key (this : Engine) : keyOf (built this) = keyOf this.
Proof. reflexivity. Qed.

Lemma generated_key (this result : Engine) :
  keyOf result = keyOf (built this) ->
  keyOf (set_suspended NotSuspended result) = keyOf this.
Proof. intros H. rewrite <- (built_key this), <- H. reflexivity. Qed.

Lemma replayed_key (this : Engine) :
  keyOf (replayedIntensity (replayedWidth this)) = keyOf this.
Proof.
  destruct (replayed_fields this) as (_ & _ & Hb & _ & Hk & Hm & _).
  unfold keyOf. rewrite Hb, Hk, Hm. reflexivity.
Qed.

Lemma setIntensity_key (v : Js.Value) (this : Engine) :
  keyOf (after (setIntensity v this)) = keyOf this.
Proof.
  unfold setIntensity, rampTo, setProp. cbv zeta.
  destruct (negb (isInitialized (set_lastValidIntensity _ this))); [reflexivity |].
  unfold keyOf.
  repeat (cbn [nodes emit set_lastValidIntensity andThen after currentKey isMinor baseFreqs];
          match goal with
          | |- context [match ?x with _ => _ end] => destruct x
          end);
  reflexivity.
Qed.

Lemma setWidth_key (v : Js.Value) (this : Engine) :
  keyOf (after (setWidth v this)) = keyOf this.
Proof.
  unfold setWidth, rampTo. cbv zeta.
  destruct (negb (isInitialized (set_lastValidWidth _ this))); [reflexivity |].
  unfold keyOf.
  repeat (cbn [nodes emit set_lastValidWidth andThen after currentKey isMinor baseFreqs];
          match goal with
          | |- context [match ?x with _ => _ end] => destruct x
          end);
  reflexivity.
Qed.

Lemma step_key (op : Op) (this : Engine) :
  isCallSetKey op = false -> keyOf (step this op) = keyOf this.
Proof.
  destruct op as [| ok | v | v | keyName]; cbn [step isCallSetKey]; intros Hop;
    try discriminate Hop.
  - unfold init.
    destruct (STATE_eqb (state this) INITIALIZED); [reflexivity |].
    destruct (STATE_eqb (state this) INITIALIZING && initPromise this); reflexivity.
  - unfold settle. destruct (suspended this); [reflexivity | |].
    + destruct ok; reflexivity.
    + destruct ok; [| reflexivity].
      rewrite afterGenerate_result. apply generated_key, replayed_key.
  - apply setIntensity_key.
  - apply setWidth_key.
Qed.

Lemma quiet_bank (voice lfo : nat -> Node) (type : string) (gain : Node)
    (lfoBase : R) (freqs : list R) :
  Forall quiet (createBank voice lfo type gain lfoBase freqs).
Proof.
  unfold createBank.
  induction (combine (seq 0 (List.length freqs)) freqs) as [| [i f] l IH];
    [apply Forall_nil |].
  cbn [flat_map]. apply Forall_app; split; [| exact IH].
  unfold createVoice. each_effect; reflexivity.
Qed.

Lemma quiet_built (this : Engine) :
  Forall quiet (effects this) -> Forall quiet (effects (built this)).
Proof.
  intros H. rewrite built_effects. unfold voicesCreated, chainCreated.
  repeat (apply Forall_app; split); try apply quiet_bank; try exact H.
  each_effect; reflexivity.
Qed.

Lemma quiet_width (n : Nodes) (w : R) : Forall quiet (widthMapping n w).
Proof.
  unfold widthMapping. apply Forall_app; split.
  - induction (roundedVoices n ++ saturatedVoices n)%list as [| voice l IH];
      [apply Forall_nil | apply Forall_cons; [reflexivity | exact IH]].
  - apply Forall_app; split; [each_effect; reflexivity |].
    apply Forall_app; split; [| each_effect; reflexivity].
    induction (roundedLFOs n ++ saturatedLFOs n)%list as [| lfo l IH];
      [apply Forall_nil |].
    cbn [flat_map app]. apply Forall_cons; [reflexivity |].
    apply Forall_cons; [reflexivity | exact IH].
Qed.

Lemma quiet_intensity (i : R) : Forall quiet (intensityMapping i).
Proof. unfold intensityMapping. each_effect; reflexivity. Qed.

Lemma quiet_replayed (this : Engine) :
  Forall quiet (effects this) ->
  Forall quiet (effects (replayedIntensity (replayedWidth this))).
Proof.
  intros H.
  assert (Hw : Forall quiet (effects (replayedWidth this))).
  { unfold replayedWidth. destruct (pendingWidth this) as [w |]; [| exact H].
    cbn [effects set_pendingWidth emit set_lastValidWidth].
    apply Forall_app; split; [exact H | apply quiet_width]. }
  unfold replayedIntensity.
  destruct (pendingIntensity (replayedWidth this)) as [i |]; [| exact Hw].
  cbn [effects set_pendingIntensity emit set_lastValidIntensity].
  apply Forall_app; split; [exact Hw | apply quiet_intensity].
Qed.

Lemma quiet_generated (result : Engine) :
  Forall quiet (effects result) ->
  Forall quiet (effects (after (Return (set_suspended NotSuspended result)))).
Proof. intros H. exact H. Qed.

Lemma quiet_glide (voices : list Node) (newFreqs : list R) (t : R) :
  Forall quiet (glideVoices voices newFreqs t).
Proof.
  unfold glideVoices.
  induction (combine (seq 0 (List.length voices)) voices) as [| [i voice] l IH];
    [apply Forall_nil | apply Forall_cons; [reflexivity | exact IH]].
Qed.

Lemma step_quiet (op : Op) (this : Engine) :
  settled this ->
  match op with CallSetKey k => known k = true | _ => True end ->
  Forall quiet (effects this) -> Forall quiet (effects (step this op)).
Proof.
  intros Hs Hop H.
  destruct op as [| ok | v | v | keyName]; cbn [step].
  - unfold init.
    destruct (STATE_eqb (state this) INITIALIZED); [exact H |].
    destruct (STATE_eqb (state this) INITIALIZING && initPromise this); [exact H |].
    cbn [effects set_initPromise _doInit set_suspended emit set_state].
    apply Forall_app; split; [exact H | each_effect; reflexivity].
  - unfold settle. destruct (suspended this); [exact H | |].
    + destruct ok; [| exact H].
      unfold _doInit_afterToneStart.
      cbn [effects set_suspended emit set_nodes].
      repeat (apply Forall_app; split); try exact H; each_effect; reflexivity.
    + destruct ok; [| exact H].
      rewrite afterGenerate_result.
      apply quiet_generated, quiet_replayed, quiet_built, H.
  - destruct (isInitialized this) eqn:Hi.
    + destruct (Hs Hi) as [_ Hw].
      rewrite setIntensity_applied by assumption. cbv zeta.
      cbn [after effects emit set_lastValidIntensity].
      apply Forall_app; split; [exact H | apply quiet_intensity].
    + rewrite setIntensity_queued by assumption. exact H.
  - destruct (isInitialized this) eqn:Hi.
    + destruct (Hs Hi) as [_ Hw].
      rewrite setWidth_applied by assumption. cbv zeta.
      cbn [after effects emit set_lastValidWidth].
      apply Forall_app; split; [exact H | apply quiet_width].
    + rewrite setWidth_queued by assumption. exact H.
  - unfold known in Hop.
    destruct (lookup (rootNameOf keyName) ROOT_FREQUENCIES) as [rootFreq |] eqn:Hroot;
      [| discriminate Hop].
    rewrite (setKey_effects keyName rootFreq this Hroot).
    destruct (isInitialized this); [| exact H].
    repeat (apply Forall_app; split); try exact H; apply quiet_glide.
Qed.

Lemma lastKeySet_snoc (start : string) (ops : list Op) (op : Op) :
  lastKeySet start (ops ++ [op]) =
  match op with CallSetKey k => k | _ => lastKeySet start ops end.
Proof. unfold lastKeySet. rewrite fold_left_app. destruct op; reflexivity. Qed.

(** X13 (the engine's key).  Driven with keys whose roots are in the
    frequency table, in any interleaving with initialization attempts,
    failures and parameter changes, the engine never warns, its current key
    is the key of the last [setKey] call ("C" before the first), its mode
    flag is that key's, and from the first [setKey] on its four chord tones
    are that key's root times the intervals of its mode. *)
Theorem engine_tracks_the_key (ops : list Op) :
  setsKnownKeys ops ->
  let this := run constructed ops in
  getCurrentKey this = lastKeySet "C" ops
  /\ isMinor this = Js.endsWith_m (getCurrentKey this)
  /\ Forall quiet (effects this)
  /\ (existsb isCallSetKey ops = true ->
      exists rootFreq,
        lookup (rootNameOf (getCurrentKey this)) ROOT_FREQUENCIES = Some rootFreq
        /\ baseFreqs this = chordOf (getCurrentKey this) rootFreq).
Proof.
  unfold getCurrentKey.
  induction ops as [| op ops IH] using rev_ind; intros Hknown.
  - repeat split; [apply Forall_nil | discriminate].
  - apply Forall_app in Hknown. destruct Hknown as [Hops Hop].
    apply Forall_inv in Hop.
    destruct (IH Hops) as (Hk & Hm & Hq & Hchord). clear IH.
    assert (Hs : settled (run constructed ops))
      by (apply reachable_settled; exists ops; reflexivity).
    cbv zeta. unfold run in *. rewrite fold_left_app. cbn [fold_left].
    set (this := fold_left step ops constructed) in *.
    rewrite lastKeySet_snoc, existsb_app. cbn [existsb]. rewrite orb_false_r.
    split; [| split; [| split]].
    + destruct (isCallSetKey op) eqn:Hc.
      * destruct op; try discriminate Hc. cbn [step].
        destruct (setKey_fields keyName this) as (_ & _ & _ & _ & -> & _).
        rewrite Hop. reflexivity.
      * pose proof (step_key op this Hc) as Hkey. unfold keyOf in Hkey.
        injection Hkey as -> _ _. destruct op; try discriminate Hc; exact Hk.
    + destruct (isCallSetKey op) eqn:Hc.
      * destruct op; try discriminate Hc. cbn [step].
        destruct (setKey_fields keyName this) as (_ & _ & _ & _ & -> & ->).
        rewrite Hop. reflexivity.
      * pose proof (step_key op this Hc) as Hkey. unfold keyOf in Hkey.
        injection Hkey as -> -> _. exact Hm.
    + apply step_quiet; assumption.
    + destruct (isCallSetKey op) eqn:Hc.
      * intros _. destruct op; try discriminate Hc. cbn [step].
        destruct (setKey_fields keyName this) as (_ & _ & _ & -> & -> & _).
        rewrite Hop. unfold known in Hop.
        destruct (lookup (rootNameOf keyName) ROOT_FREQUENCIES) as [rootFreq |];
          [| discriminate Hop].
        exists rootFreq. split; reflexivity.
      * rewrite orb_false_r. intros Hany.
        pose proof (step_key op this Hc) as Hkey. unfold keyOf in Hkey.
        injection Hkey as -> _ ->. exact (Hchord Hany).
Qed.

(** [engine_tracks_the_key] on a new engine: a key chosen before the sound
    starts, one after. *)
Lemma engine_tracks_the_key_witness :
  let this := run constructed [CallSetKey "Am"; CallInit; Settle true; Settle true;
                               CallSetKey "F#"] in
  getCurrentKey this = "F#" /\ isMinor this = false /\ Forall quiet (effects this).
Proof.
  intros this.
  destruct (engine_tracks_the_key [CallSetKey "Am"; CallInit; Settle true; Settle true;
                                   CallSetKey "F#"]) as (Hk & Hm & Hq & _).
  - repeat constructor.
  - fold this in Hk, Hm, Hq. rewrite Hk in Hm. repeat split; assumption.
Defined.

End EngineMore.

(** ** The overlay's animation state *)

Section OverlayMore.

Import KeyOverlay.

Local Open Scope string_scope.

Ltac view :=
  cbn [geometry visible opacity currentKey hoveredKey targetRotationOffset pinchPosition
       fadeStartTime fadeDirection rotationStartTime rotationStartOffset hideTimeout
       set_geometry set_visible set_opacity set_currentKey set_hoveredKey
       set_targetRotationOffset set_pinchPosition set_fadeStartTime set_fadeDirection
       set_rotationStartTime set_rotationStartOffset set_hideTimeout set_rotationOffset
       canvasWidth canvasHeight centerX centerY minDim rotationOffset] in *.

(** Both tables have an entry at each of the twelve segment indices. *)
Lemma index_in_tables (table : list string) (i : Z) :
  table = MAJOR_KEYS \/ table = MINOR_KEYS ->
  (0 <= i < 12)%Z ->
  tableKey (index table i).
Proof.
  intros Htable Hi. unfold index.
  destruct (i <? 0)%Z eqn:Hneg; [apply Z.ltb_lt in Hneg; lia |].
  assert (Hn : (Z.to_nat i < 12)%nat) by lia.
  destruct (Z.to_nat i) as [|[|[|[|[|[|[|[|[|[|[|[| n]]]]]]]]]]]]; try lia;
    destruct Htable as [-> | ->]; cbn; tauto.
Qed.

Lemma hit_in_tables (this : State) (pos : option Point) :
  rotationOffset this <= PI * 2 -> tableKey (getKeyAtPosition this pos).
Proof.
  intros Hoff. destruct pos as [pos |]; [| exact I].
  rewrite getKeyAtPosition_unfold.
  pose proof (segmentIndexOf_range this pos Hoff) as Hseg.
  destruct (Js.lt _ (CENTER_RADIUS * _)); [exact I |].
  destruct (Js.lt _ (INNER_RADIUS * _)); [apply index_in_tables; auto |].
  destruct (Js.lt _ (OUTER_RADIUS * _)); [apply index_in_tables; auto | exact I].
Qed.

Lemma segmentAngle_pos : 0 < segmentAngle.
Proof. unfold segmentAngle. pose proof PI_RGT_0. lra. Qed.

Lemma getKeyIndex_range (keyName : string) :
  In keyName (MAJOR_KEYS ++ MINOR_KEYS)%list -> (0 <= getKeyIndex keyName < 12)%Z.
Proof.
  intros Hin. cbn in Hin.
  repeat (destruct Hin as [<- | Hin]; [vm_compute; split; [discriminate | reflexivity] |]).
  contradiction.
Qed.

Lemma target_inTurn (keyName : string) :
  In keyName (MAJOR_KEYS ++ MINOR_KEYS)%list ->
  inTurn (- IZR (getKeyIndex keyName) * (PI * 2 / 12)).
Proof.
  intros Hin. destruct (getKeyIndex_range keyName Hin) as [Hlo Hhi].
  pose proof segmentAngle_pos as Hseg. unfold inTurn, segmentAngle in *.
  assert (H0 : 0 <= IZR (getKeyIndex keyName)) by (apply (IZR_le 0); exact Hlo).
  assert (H11 : IZR (getKeyIndex keyName) <= 11) by (apply (IZR_le _ 11); lia).
  split; nra.
Qed.

Lemma steady_later (t t' : R) (this : View) :
  steady t this -> t <= t' -> steady t' this.
Proof.
  intros (Hm & Hr & Ht & Hs & Ho & Hf & Hrs & Hrest) Hle.
  repeat split; try assumption; try apply Ho.
  - apply Hr.
  - apply Hr.
  - apply Ht.
  - apply Ht.
  - apply Hs.
  - apply Hs.
  - intros start Hst. specialize (Hf start Hst). lra.
  - intros start Hst. specialize (Hrs start Hst). lra.
  - apply Hrest.
  - apply Hrest.
  - apply Hrest.
  - apply Hrest.
Qed.

Ltac steady_in H :=
  destruct H as (Hm & Hr & Ht & Hs & Ho & Hf & Hrs & Hck & Htg & Hland & Hhk).

Ltac started_now :=
  let start := fresh "start" in
  let H := fresh "H" in
  intros start H; injection H as <-; lra.

Lemma steady_constructed (t innerWidth innerHeight : R) :
  0 <= innerWidth -> 0 <= innerHeight ->
  steady t (constructedView innerWidth innerHeight).
Proof.
  intros Hw Hh. pose proof segmentAngle_pos as Hseg.
  unfold steady, constructedView, constructed, resize, inTurn. view.
  change (getKeyIndex "C") with 0%Z.
  repeat split; try lra; try discriminate.
  - apply Rmin_glb; assumption.
  - cbn. tauto.
Qed.

Lemma steady_show (t now : R) (this : View) :
  steady t this -> t <= now -> steady now (show now this).
Proof.
  intros H Hle. unfold show.
  destruct (visible this && (fadeDirection this >=? 0)%Z);
    [apply (steady_later t); assumption |].
  steady_in H.
  destruct (hideTimeout this); unfold steady; view;
    (repeat split; try assumption; try apply Hr; try apply Ht; try apply Hs;
     try apply Ho; try started_now;
     intros start Hst; specialize (Hrs start Hst); lra).
Qed.

Lemma steady_hide (t now : R) (this : View) :
  steady t this -> t <= now -> steady now (hide now this).
Proof.
  intros H Hle. unfold hide.
  destruct (negb (visible this) && (fadeDirection this <=? 0)%Z);
    [apply (steady_later t); assumption |].
  steady_in H. unfold steady; view.
  repeat split; try assumption; try apply Hr; try apply Ht; try apply Hs;
    try apply Ho; try started_now.
  intros start Hst. specialize (Hrs start Hst). lra.
Qed.

Lemma steady_set_hideTimeout (t : R) (due : option R) (this : View) :
  steady t this -> steady t (set_hideTimeout due this).
Proof. intros H. exact H. Qed.

Lemma steady_callback (t now : R) (this : View) :
  steady t this -> t <= now -> steady now (hideTimeoutCallback now this).
Proof.
  intros H Hle. unfold hideTimeoutCallback.
  apply steady_set_hideTimeout, (steady_hide t); assumption.
Qed.

Lemma steady_setCurrentKey (t now : R) (keyName : string) (this : View) :
  steady t this -> t <= now ->
  In keyName (MAJOR_KEYS ++ MINOR_KEYS)%list ->
  steady now (setCurrentKey now keyName this).
Proof.
  intros H Hle Hin. unfold setCurrentKey.
  destruct (String.eqb keyName (currentKey this));
    [apply (steady_later t); assumption |].
  pose proof (getKeyIndex_range keyName Hin) as Hidx.
  pose proof (target_inTurn keyName Hin) as Htarget.
  destruct (getKeyIndex keyName =? -1)%Z eqn:Hnone; [apply Z.eqb_eq in Hnone; lia |].
  steady_in H. cbn [negb]. unfold steady; view.
  repeat split; try assumption; try apply Hr; try apply Htarget; try apply Ho;
    try started_now; try discriminate.
  intros start Hst. specialize (Hf start Hst). lra.
Qed.

Lemma steady_setHoveredKey (t : R) (key : KeyResult) (this : View) :
  steady t this -> tableKey key -> steady t (setHoveredKey key this).
Proof.
  intros H Hkey. steady_in H. unfold steady, setHoveredKey; view.
  repeat split; try assumption; try apply Hr; try apply Ht; try apply Hs; apply Ho.
Qed.

Lemma steady_setPinchPosition (t : R) (pos : option Point) (this : View) :
  steady t this -> steady t (setPinchPosition pos this).
Proof. intros H. exact H. Qed.

Lemma steady_hideWithDelay (t now delay : R) (this : View) :
  steady t this -> steady t (hideWithDelay now delay this).
Proof. intros H. exact H. Qed.

Lemma steady_resizeView (t innerWidth innerHeight : R) (this : View) :
  steady t this -> 0 <= innerWidth -> 0 <= innerHeight ->
  steady t (resizeView innerWidth innerHeight this).
Proof.
  intros H Hw Hh. steady_in H. unfold steady, resizeView, resize; view.
  repeat split; try assumption; try apply Hr; try apply Ht; try apply Hs; try apply Ho.
  apply Rmin_glb; assumption.
Qed.

(** The two animation curves stay between their ends. *)
Lemma progress_unit (elapsed duration : R) :
  0 <= elapsed -> 0 < duration -> 0 <= Rmin 1 (elapsed / duration) <= 1.
Proof.
  intros He Hd. split; [| apply Rmin_l].
  apply Rmin_glb; [lra |].
  apply Rmult_le_pos; [exact He | left; apply Rinv_0_lt_compat; exact Hd].
Qed.

Lemma eased_unit (progress : R) :
  0 <= progress <= 1 -> 0 <= 1 - (1 - progress) ^ 3 <= 1.
Proof.
  intros [H0 H1]. set (q := 1 - progress).
  assert (Hq : 0 <= q <= 1) by (subst q; lra).
  assert (Hq2 : 0 <= q * q <= 1) by nra.
  simpl pow. nra.
Qed.

Lemma steady_renderFade (t now : R) (this : View) :
  steady t this -> t <= now -> steady now (renderFade now this).
Proof.
  intros H Hle. unfold renderFade.
  destruct (fadeStartTime this) as [start |] eqn:Hstart;
    [| apply (steady_later t); assumption].
  steady_in H. pose proof (Hf start Hstart) as Hago.
  pose proof (progress_unit (now - start) FADE_DURATION) as Hp.
  assert (Hp' : 0 <= Rmin 1 ((now - start) / FADE_DURATION) <= 1)
    by (apply Hp; unfold FADE_DURATION; lra).
  clear Hp. cbv zeta. set (progress := Rmin 1 _) in *.
  destruct (fadeDirection this >? 0)%Z; destruct (Js.ge progress 1); view;
    try destruct (fadeDirection this <? 0)%Z; unfold steady; view;
    (repeat split; try assumption; try apply Hr; try apply Ht; try apply Hs;
     try lra; try discriminate;
     try (intros start' Hst; specialize (Hrs start' Hst); lra);
     intros start' Hst; rewrite Hstart in Hst; injection Hst as <-; lra).
Qed.

Lemma steady_renderRotation (t now : R) (this : View) :
  steady t this -> t <= now -> steady now (renderRotation now this).
Proof.
  intros H Hle. unfold renderRotation.
  destruct (rotationStartTime this) as [start |] eqn:Hstart;
    [| apply (steady_later t); assumption].
  steady_in H. pose proof (Hrs start Hstart) as Hago.
  pose proof (progress_unit (now - start) ROTATION_DURATION) as Hp.
  assert (Hp' : 0 <= Rmin 1 ((now - start) / ROTATION_DURATION) <= 1)
    by (apply Hp; unfold ROTATION_DURATION; lra).
  clear Hp. cbv zeta. set (progress := Rmin 1 _) in *.
  pose proof (eased_unit progress Hp') as He.
  set (eased := 1 - (1 - progress) ^ 3) in *.
  unfold inTurn in *. pose proof segmentAngle_pos as Hseg.
  destruct (Js.ge progress 1); unfold steady, inTurn; view;
    (repeat split; try assumption; try apply Ht; try apply Hs; try apply Ho;
     try nra; try discriminate;
     try (intros start' Hst; specialize (Hf start' Hst); lra);
     try (intros start' Hst; rewrite Hstart in Hst; injection Hst as <-; lra);
     try (intros Hnone; rewrite Hstart in Hnone; discriminate Hnone)).
Qed.

Lemma steady_render (t now : R) (this : View) :
  steady t this -> t <= now -> steady now (render now this).
Proof.
  intros H Hle. unfold render.
  apply (steady_renderRotation now); [| lra].
  apply (steady_renderFade t); assumption.
Qed.

(** *** Rotation to a new key *)

Lemma getKeyIndex_names (keyName : string) :
  In keyName (MAJOR_KEYS ++ MINOR_KEYS)%list ->
  index MAJOR_KEYS (getKeyIndex keyName) = Key keyName
  \/ index MINOR_KEYS (getKeyIndex keyName) = Key keyName.
Proof.
  intros Hin. cbn in Hin.
  repeat (destruct Hin as [<- | Hin];
          [first [left; vm_compute; reflexivity | right; vm_compute; reflexivity] |]).
  contradiction.
Qed.

Lemma ge_1 (progress : R) : 1 <= progress -> Js.ge progress 1 = true.
Proof. intros H. unfold Js.ge. destruct (Rge_dec progress 1); [reflexivity | lra]. Qed.

Lemma ge_not_1 (progress : R) : progress < 1 -> Js.ge progress 1 = false.
Proof. intros H. unfold Js.ge. destruct (Rge_dec progress 1); [lra | reflexivity]. Qed.

Lemma progress_done (elapsed duration : R) :
  0 < duration -> duration <= elapsed -> Rmin 1 (elapsed / duration) = 1.
Proof.
  intros Hd He. apply Rmin_left.
  assert (Hinv : 0 < / duration) by (apply Rinv_0_lt_compat; exact Hd).
  assert (H1 : duration * / duration = 1) by (field; lra).
  unfold Rdiv. nra.
Qed.

Lemma progress_running (elapsed duration : R) :
  0 < duration -> elapsed < duration ->
  Rmin 1 (elapsed / duration) = elapsed / duration /\ elapsed / duration < 1.
Proof.
  intros Hd He.
  assert (Hinv : 0 < / duration) by (apply Rinv_0_lt_compat; exact Hd).
  assert (H1 : duration * / duration = 1) by (field; lra).
  assert (Hlt : elapsed / duration < 1) by (unfold Rdiv; nra).
  split; [apply Rmin_right; lra | exact Hlt].
Qed.

(** The fade leaves the rotation alone. *)
Lemma renderFade_rotation (now : R) (this : View) :
  geometry (renderFade now this) = geometry this
  /\ currentKey (renderFade now this) = currentKey this
  /\ targetRotationOffset (renderFade now this) = targetRotationOffset this
  /\ rotationStartTime (renderFade now this) = rotationStartTime this
  /\ rotationStartOffset (renderFade now this) = rotationStartOffset this.
Proof.
  unfold renderFade. destruct (fadeStartTime this) as [start |]; [| repeat split].
  cbv zeta.
  destruct (fadeDirection this >? 0)%Z; destruct (Js.ge _ 1); view;
    try destruct (fadeDirection this <? 0)%Z; repeat split.
Qed.

Lemma renderRotation_view (now : R) (this : View) :
  currentKey (renderRotation now this) = currentKey this
  /\ visible (renderRotation now this) = visible this
  /\ opacity (renderRotation now this) = opacity this
  /\ fadeStartTime (renderRotation now this) = fadeStartTime this
  /\ fadeDirection (renderRotation now this) = fadeDirection this.
Proof.
  unfold renderRotation. destruct (rotationStartTime this) as [start |]; [| repeat split].
  cbv zeta. destruct (Js.ge _ 1); repeat split.
Qed.

(** The rotation animation at [now], [start] being the time it began. *)
Lemma renderRotation_at (now start : R) (this : View) :
  rotationStartTime this = Some start ->
  (start + ROTATION_DURATION <= now ->
   rotationOffset (geometry (renderRotation now this)) = targetRotationOffset this
   /\ rotationStartTime (renderRotation now this) = None)
  /\ (start <= now < start + ROTATION_DURATION ->
      rotationStartTime (renderRotation now this) = Some start
      /\ exists eased,
           0 <= eased < 1
           /\ rotationOffset (geometry (renderRotation now this)) =
              rotationStartOffset this
              + (targetRotationOffset this - rotationStartOffset this) * eased).
Proof.
  intros Hstart. unfold renderRotation. rewrite Hstart. cbv zeta. split.
  - intros Hdone.
    rewrite progress_done by (unfold ROTATION_DURATION in *; lra).
    rewrite ge_1 by lra. split; reflexivity.
  - intros [Hafter Hbefore].
    destruct (progress_running (now - start) ROTATION_DURATION) as [-> Hlt];
      try (unfold ROTATION_DURATION in *; lra).
    rewrite ge_not_1 by exact Hlt. split; [exact Hstart |].
    set (progress := (now - start) / ROTATION_DURATION) in *.
    assert (H0 : 0 <= progress).
    { subst progress. unfold Rdiv, ROTATION_DURATION.
      apply Rmult_le_pos; [lra | left; apply Rinv_0_lt_compat; lra]. }
    exists (1 - (1 - progress) ^ 3). split; [| reflexivity].
    set (q := 1 - progress). assert (Hq : 0 < q <= 1) by (subst q; lra).
    assert (Hq2 : 0 < q * q <= 1) by nra. simpl pow. nra.
Qed.

(** X14 (rotation to the new key).  [setCurrentKey] with a key of the two
    tables other than the current one starts a rotation of 300 ms.  Any
    [render] during it leaves the wheel between where it was and its target,
    never past either end; the first [render] from 300 ms on puts
    the wheel on its target exactly and ends the animation; and on the
    target the label of the new key's segment is drawn straight up from
    the centre (canvas angle -PI/2), in the ring whose table holds the
    key. *)
Theorem selected_key_turns_to_the_top (this : View) (now later : R) (keyName : string) :
  In keyName (MAJOR_KEYS ++ MINOR_KEYS)%list ->
  keyName <> currentKey this ->
  now <= later ->
  let turning := render later (setCurrentKey now keyName this) in
  let i := getKeyIndex keyName in
  currentKey turning = keyName
  /\ (index MAJOR_KEYS i = Key keyName \/ index MINOR_KEYS i = Key keyName)
  /\ (later < now + ROTATION_DURATION ->
      exists eased,
        0 <= eased < 1
        /\ rotationOffset (geometry turning) =
           rotationOffset (geometry this)
           + (- IZR i * segmentAngle - rotationOffset (geometry this)) * eased)
  /\ (now + ROTATION_DURATION <= later ->
      rotationStartTime turning = None
      /\ rotationOffset (geometry turning) = - IZR i * segmentAngle
      /\ midAngle turning i = - (PI / 2)).
Proof.
  intros Hin Hne Hle turning i.
  pose proof (getKeyIndex_range keyName Hin) as Hidx.
  set (chosen := setCurrentKey now keyName this) in *.
  assert (Hchosen : currentKey chosen = keyName
                    /\ rotationStartTime chosen = Some now
                    /\ rotationStartOffset chosen = rotationOffset (geometry this)
                    /\ targetRotationOffset chosen = - IZR i * segmentAngle).
  { subst chosen. unfold setCurrentKey.
    destruct (String.eqb_spec keyName (currentKey this)) as [Heq | _];
      [contradiction |].
    destruct (getKeyIndex keyName =? -1)%Z eqn:Hnone;
      [apply Z.eqb_eq in Hnone; lia |].
    repeat split. }
  destruct Hchosen as (Hkey & Hstart & Hfrom & Hto).
  destruct (renderFade_rotation later chosen) as (Hg & Hk & Ht & Hs & Ho).
  assert (Hstart' : rotationStartTime (renderFade later chosen) = Some now)
    by (rewrite Hs; exact Hstart).
  destruct (renderRotation_view later (renderFade later chosen)) as (Hk' & _).
  destruct (renderRotation_at later now (renderFade later chosen) Hstart')
    as [Hdone Hrunning].
  fold (render later chosen) in Hdone, Hrunning, Hk'. fold turning in Hdone, Hrunning, Hk'.
  rewrite Ht, Ho, Hto, Hfrom in *.
  split; [rewrite Hk', Hk; exact Hkey |].
  split; [apply getKeyIndex_names; exact Hin |].
  split.
  - intros Hbefore. apply Hrunning. lra.
  - intros Hafter. destruct (Hdone Hafter) as [Hrot Hnone].
    repeat split; try assumption.
    unfold midAngle, startAngle. rewrite Hrot. ring.
Qed.

(** [selected_key_turns_to_the_top] for A in a new overlay: 400 ms after
    the change the wheel has turned three segments counter-clockwise. *)
Lemma selected_key_turns_to_the_top_witness :
  let turned := render 1400 (setCurrentKey 1000 "A" (constructedView 800 600)) in
  currentKey turned = "A"
  /\ rotationOffset (geometry turned) = - 3 * segmentAngle.
Proof.
  intros turned.
  destruct (selected_key_turns_to_the_top (constructedView 800 600) 1000 1400 "A")
    as (Hkey & _ & _ & Hdone).
  - cbn. tauto.
  - discriminate.
  - lra.
  - split; [exact Hkey |].
    destruct Hdone as (_ & Hrot & _); [unfold ROTATION_DURATION; lra | exact Hrot].
Defined.

(** *** Fading in and out *)

Lemma gt_0_false : Js.gt 0 0 = false.
Proof. unfold Js.gt. destruct (Rgt_dec 0 0); [lra | reflexivity]. Qed.

Lemma gt_0_true (v : R) : 0 < v -> Js.gt v 0 = true.
Proof. intros H. unfold Js.gt. destruct (Rgt_dec v 0); [reflexivity | lra]. Qed.

(** The fade at [now], [start] being the time it began. *)
Lemma renderFade_at (now start : R) (this : View) :
  fadeStartTime this = Some start ->
  (start + FADE_DURATION <= now ->
   fadeStartTime (renderFade now this) = None
   /\ opacity (renderFade now this) = (if (fadeDirection this >? 0)%Z then 1 else 0)
   /\ visible (renderFade now this) =
      (if (fadeDirection this <? 0)%Z then false else visible this))
  /\ (start <= now < start + FADE_DURATION ->
      fadeStartTime (renderFade now this) = Some start
      /\ opacity (renderFade now this) =
         (if (fadeDirection this >? 0)%Z
          then (now - start) / FADE_DURATION
          else 1 - (now - start) / FADE_DURATION)
      /\ visible (renderFade now this) = visible this).
Proof.
  intros Hstart. unfold renderFade. rewrite Hstart. cbv zeta. split.
  - intros Hdone.
    rewrite progress_done by (unfold FADE_DURATION in *; lra).
    rewrite ge_1 by lra.
    destruct (fadeDirection this >? 0)%Z; view;
      destruct (fadeDirection this <? 0)%Z; repeat split; view; lra.
  - intros [Hafter Hbefore].
    destruct (progress_running (now - start) FADE_DURATION) as [-> Hlt];
      try (unfold FADE_DURATION in *; lra).
    rewrite ge_not_1 by exact Hlt.
    destruct (fadeDirection this >? 0)%Z; repeat split; exact Hstart.
Qed.

(** X15 (fade).  [show()] on an overlay that is hidden or fading out, and
    [hide()] on one that is shown or fading in, start a fade of 200 ms.
    A [render] during the fade sets the opacity to the elapsed fraction
    (counted down for a fade-out), whatever it was before; the first
    [render] from 200 ms on ends the fade with opacity 1 and the overlay
    visible, or with opacity 0 and the overlay neither visible nor
    drawn. *)
Theorem fade_runs_to_its_end (this : View) (now later : R) :
  now <= later ->
  (visible this && (fadeDirection this >=? 0)%Z = false ->
   let fading := render later (show now this) in
   (later < now + FADE_DURATION ->
    opacity fading = (later - now) / FADE_DURATION /\ visible fading = true)
   /\ (now + FADE_DURATION <= later ->
       opacity fading = 1 /\ visible fading = true /\ fadeStartTime fading = None
       /\ drawn fading = true))
  /\ (negb (visible this) && (fadeDirection this <=? 0)%Z = false ->
      let fading := render later (hide now this) in
      (later < now + FADE_DURATION ->
       opacity fading = 1 - (later - now) / FADE_DURATION
       /\ visible fading = visible this)
      /\ (now + FADE_DURATION <= later ->
          opacity fading = 0 /\ visible fading = false /\ fadeStartTime fading = None
          /\ drawn fading = false)).
Proof.
  intros Hle. split.
  - intros Hacts fading.
    set (shown := show now this) in *.
    assert (Hshown : fadeStartTime shown = Some now
                     /\ fadeDirection shown = 1%Z /\ visible shown = true).
    { subst shown. unfold show. rewrite Hacts.
      destruct (hideTimeout this); repeat split. }
    destruct Hshown as (Hstart & Hdir & Hvis).
    destruct (renderRotation_view later (renderFade later shown))
      as (_ & Hv & Ho & Hf & _).
    fold (render later shown) in Hv, Ho, Hf. fold fading in Hv, Ho, Hf.
    destruct (renderFade_at later now shown Hstart) as [Hdone Hrunning].
    rewrite Hdir, Hvis in *. cbn [Z.gtb Z.ltb Z.compare] in *.
    split.
    + intros Hbefore. destruct Hrunning as (_ & Hop & Hvs); [lra |].
      rewrite Ho, Hv. split; assumption.
    + intros Hafter. destruct (Hdone Hafter) as (Hnone & Hop & Hvs).
      unfold drawn. rewrite Ho, Hv, Hf, Hop, Hvs. repeat split. exact Hnone.
  - intros Hacts fading.
    set (hidden := hide now this) in *.
    assert (Hhidden : fadeStartTime hidden = Some now
                      /\ fadeDirection hidden = (-1)%Z /\ visible hidden = visible this).
    { subst hidden. unfold hide. rewrite Hacts. repeat split. }
    destruct Hhidden as (Hstart & Hdir & Hvis).
    destruct (renderRotation_view later (renderFade later hidden))
      as (_ & Hv & Ho & Hf & _).
    fold (render later hidden) in Hv, Ho, Hf. fold fading in Hv, Ho, Hf.
    destruct (renderFade_at later now hidden Hstart) as [Hdone Hrunning].
    rewrite Hdir, Hvis in *. cbn [Z.gtb Z.ltb Z.compare] in *.
    split.
    + intros Hbefore. destruct Hrunning as (_ & Hop & Hvs); [lra |].
      rewrite Ho, Hv. split; assumption.
    + intros Hafter. destruct (Hdone Hafter) as (Hnone & Hop & Hvs).
      unfold drawn. rewrite Ho, Hv, Hf, Hop, Hvs, gt_0_false. repeat split.
      exact Hnone.
Qed.

(** [fade_runs_to_its_end] on a new overlay: half-way through the fade-in
    the opacity is one half. *)
Lemma fade_runs_to_its_end_witness :
  opacity (render 1100 (show 1000 (constructedView 800 600))) = (1100 - 1000) / FADE_DURATION
  /\ opacity (render 1200 (show 1000 (constructedView 800 600))) = 1.
Proof.
  destruct (fade_runs_to_its_end (constructedView 800 600) 1000 1100) as [Hin _]; [lra |].
  destruct (fade_runs_to_its_end (constructedView 800 600) 1000 1200) as [Hend _]; [lra |].
  split.
  - apply Hin; [reflexivity | unfold FADE_DURATION; lra].
  - apply Hend; [reflexivity | unfold FADE_DURATION; lra].
Defined.

(** X16 (a delayed hide outlives [show]).  On an overlay that is shown and
    not fading out, [show()] returns at once: it does not reach the code
    that clears the hide timer, so a hide scheduled by [hideWithDelay]
    stays pending.  When that timer runs out the overlay starts to fade
    out, and a [show()] after that restarts the fade-in from opacity 0. *)
Theorem show_keeps_pending_hide (this : View) (now due fired again : R) :
  visible this = true ->
  (0 <= fadeDirection this)%Z ->
  hideTimeout this = Some due ->
  show now this = this
  /\ let hidden := hideTimeoutCallback fired this in
     fadeDirection hidden = (-1)%Z
     /\ fadeStartTime hidden = Some fired
     /\ hideTimeout hidden = None
     /\ let reshown := show again hidden in
        fadeStartTime reshown = Some again
        /\ fadeDirection reshown = 1%Z
        /\ opacity (render again reshown) = 0.
Proof.
  intros Hvis Hdir Hdue.
  assert (Hge : (fadeDirection this >=? 0)%Z = true) by (apply Z.geb_le; exact Hdir).
  split; [unfold show; rewrite Hvis, Hge; reflexivity |].
  intros hidden.
  assert (Hhidden : hidden = set_hideTimeout None
                               (set_fadeStartTime (Some fired) (set_fadeDirection (-1) this))).
  { subst hidden. unfold hideTimeoutCallback, hide. rewrite Hvis. reflexivity. }
  split; [rewrite Hhidden; reflexivity |].
  split; [rewrite Hhidden; reflexivity |].
  split; [rewrite Hhidden; reflexivity |].
  intros reshown.
  assert (Hreshown : fadeStartTime reshown = Some again
                     /\ fadeDirection reshown = 1%Z).
  { subst reshown. rewrite Hhidden. unfold show. view. rewrite Hvis.
    cbn [andb Z.geb Z.compare]. split; reflexivity. }
  destruct Hreshown as [Hstart Hone].
  split; [exact Hstart |]. split; [exact Hone |].
  destruct (renderRotation_view again (renderFade again reshown)) as (_ & _ & Ho & _).
  fold (render again reshown) in Ho. rewrite Ho.
  destruct (renderFade_at again again reshown Hstart) as [_ Hrunning].
  destruct Hrunning as (_ & Hop & _); [unfold FADE_DURATION; lra |].
  rewrite Hop, Hone. cbn [Z.gtb Z.compare]. unfold FADE_DURATION. field.
Qed.

(** [show_keeps_pending_hide] on an overlay shown at 1000 with a hide due
    at 3500. *)
Lemma show_keeps_pending_hide_witness :
  let this := hideWithDelay 2000 HIDE_DELAY (show 1000 (constructedView 800 600)) in
  show 3000 this = this
  /\ opacity (render 3516 (show 3516 (hideTimeoutCallback 3500 this))) = 0.
Proof.
  intros this.
  destruct (show_keeps_pending_hide this 3000 (2000 + HIDE_DELAY) 3500 3516)
    as (Hshow & _ & _ & _ & _ & _ & Hop).
  - reflexivity.
  - discriminate.
  - reflexivity.
  - split; [exact Hshow | exact Hop].
Defined.

End OverlayMore.

(** ** The gesture callback and the page *)

Section AppMore.

Import HandDetector.
Import Main.

Local Open Scope string_scope.

Ltac page :=
  cbn [asciiRenderer audioEngine keyOverlay currentKey hoveredKey wasPinching
       set_asciiRenderer set_audioEngine set_keyOverlay set_currentKey set_hoveredKey
       set_wasPinching onOverlay appAfter].

Lemma validateRotation_finite (r : R) : validateRotation (Js.num r) = r.
Proof. reflexivity. Qed.

(** The callback on a frame with an active pinch. *)
Lemma onHandResults_pinching (now : R) (results : Event.t) (app : App)
    (overlay : KeyOverlay.View) (position : Point) :
  Event.active (Event.pinch results) = true ->
  Event.position (Event.pinch results) = Some position ->
  keyOverlay app = Some overlay ->
  let flipped := {| x := 1 - x position; y := y position |} in
  let hovered := KeyOverlay.keyAt overlay (Some flipped) in
  onHandResults now results app =
  Done {| asciiRenderer := asciiRenderer app;
          audioEngine := audioEngine app;
          keyOverlay :=
            Some (KeyOverlay.setHoveredKey hovered
                    (KeyOverlay.setPinchPosition (Some flipped)
                       (KeyOverlay.show now overlay)));
          currentKey := currentKey app;
          hoveredKey := hovered;
          wasPinching := true |}.
Proof.
  intros Hactive Hposition Hoverlay flipped hovered.
  unfold onHandResults. rewrite Hactive, Hposition, Hoverlay. cbv zeta.
  assert (Hgeo : KeyOverlay.keyAt
                   (KeyOverlay.setPinchPosition (Some flipped) (KeyOverlay.show now overlay))
                   (Some flipped) = hovered).
  { subst hovered. unfold KeyOverlay.keyAt, KeyOverlay.show.
    destruct (KeyOverlay.visible overlay && _); [reflexivity |].
    destruct (KeyOverlay.hideTimeout overlay); reflexivity. }
  fold flipped. rewrite Hgeo. reflexivity.
Qed.

(** The engine's two setters return on an engine that a program can
    hold. *)
Lemma setters_return (engine : AudioEngine.Engine) (i w : Js.Value) :
  AudioEngine.settled engine ->
  AudioEngine.andThen (AudioEngine.setIntensity i engine) (AudioEngine.setWidth w) =
  AudioEngine.Return
    (AudioEngine.run engine [AudioEngine.CallSetIntensity i; AudioEngine.CallSetWidth w]).
Proof.
  intros Hs.
  pose proof (step_settled (AudioEngine.CallSetIntensity i) engine Hs) as Hs1.
  cbn [AudioEngine.run fold_left AudioEngine.step] in *.
  assert (H1 : AudioEngine.setIntensity i engine =
               AudioEngine.Return (AudioEngine.after (AudioEngine.setIntensity i engine))).
  { destruct (AudioEngine.isInitialized engine) eqn:Hi.
    - destruct (Hs Hi) as [_ Hw]. rewrite setIntensity_applied by assumption. reflexivity.
    - rewrite setIntensity_queued by assumption. reflexivity. }
  rewrite H1 at 1. cbn [AudioEngine.andThen].
  set (engine1 := AudioEngine.after (AudioEngine.setIntensity i engine)) in *.
  destruct (AudioEngine.isInitialized engine1) eqn:Hi.
  - destruct (Hs1 Hi) as [_ Hw]. rewrite setWidth_applied by assumption. reflexivity.
  - rewrite setWidth_queued by assumption. reflexivity.
Qed.

(** The callback on a frame without an active pinch, all three components
    being there. *)
Lemma onHandResults_released (now : R) (results : Event.t) (app : App)
    (renderer : AsciiRenderer.State) (engine : AudioEngine.Engine)
    (overlay : KeyOverlay.View) :
  Event.active (Event.pinch results) = false ->
  asciiRenderer app = Some renderer ->
  audioEngine app = Some engine ->
  keyOverlay app = Some overlay ->
  AudioEngine.settled engine ->
  onHandResults now results app =
  Done {| asciiRenderer :=
            Some (AsciiRenderer.setDrift (Event.rightRotation results)
                    (AsciiRenderer.setSaturation (Event.leftRotation results) renderer));
          audioEngine :=
            Some (AudioEngine.run
                    match keyChange app with
                    | Some key => AudioEngine.setKey key engine
                    | None => engine
                    end
                    [AudioEngine.CallSetIntensity
                       (Js.num (Rabs (Event.leftRotation results) / 90));
                     AudioEngine.CallSetWidth
                       (Js.num (Rabs (Event.rightRotation results) / 90))]);
          keyOverlay :=
            Some (KeyOverlay.setPinchPosition None
                    match keyChange app with
                    | Some key =>
                        KeyOverlay.hideWithDelay now KeyOverlay.HIDE_DELAY
                          (KeyOverlay.setCurrentKey now key overlay)
                    | None =>
                        if wasPinching app then KeyOverlay.hide now overlay else overlay
                    end);
          currentKey :=
            match keyChange app with Some key => key | None => currentKey app end;
          hoveredKey := KeyOverlay.Null;
          wasPinching := false |}.
Proof.
  intros Hactive Hrenderer Hengine Hoverlay Hs.
  pose proof (fun key => step_settled (AudioEngine.CallSetKey key) engine Hs) as Hs'.
  cbn [AudioEngine.step] in Hs'.
  unfold onHandResults. rewrite Hactive, !validateRotation_finite.
  destruct app as [r e o ck hk wp]. page. cbn [asciiRenderer audioEngine keyOverlay] in *.
  subst r e o.
  destruct (keyChange _) as [key |]; unfold onOverlay; page.
  - rewrite setters_return by apply Hs'. reflexivity.
  - destruct wp; page; rewrite setters_return by exact Hs; reflexivity.
Qed.

(** *** What the detector hands over *)

Lemma detected_event (results : Event.t) :
  detected results ->
  -90 <= Event.leftRotation results <= 90
  /\ -90 <= Event.rightRotation results <= 90
  /\ (Event.active (Event.pinch results) = true ->
      exists position, Event.position (Event.pinch results) = Some position).
Proof.
  intros (this & now & hands & Hreach & Hemitted).
  pose proof (reachable_isInitialized this Hreach) as Hinit.
  rewrite (frame_emitted this now hands Hinit) in Hemitted.
  injection Hemitted as <-. cbn [Event.leftRotation Event.rightRotation Event.pinch
                                 Event.active Event.position].
  pose proof (reachable_step this now hands Hreach) as Hnext.
  split; [exact (reachable_rotation_range OnLeft _ Hnext) |].
  split; [exact (reachable_rotation_range OnRight _ Hnext) |].
  intros Hactive. pose proof (frame_pinch_source this now hands Hinit) as Hsrc.
  cbv zeta in Hsrc. rewrite Hactive in Hsrc.
  destruct Hsrc as (h & _ & _ & Hpos & _). eexists. exact Hpos.
Qed.

(** *** The components under the callback *)

Lemma engine_reachable_run (engine : AudioEngine.Engine) (ops : list AudioEngine.Op) :
  AudioEngine.reachable engine -> AudioEngine.reachable (AudioEngine.run engine ops).
Proof.
  intros [before ->]. exists (before ++ ops)%list.
  unfold AudioEngine.run. rewrite fold_left_app. reflexivity.
Qed.

Lemma table_key_known (keyName : string) :
  In keyName (KeyOverlay.MAJOR_KEYS ++ KeyOverlay.MINOR_KEYS)%list ->
  AudioEngine.known keyName = true.
Proof.
  intros Hin. destruct (table_roots_known keyName Hin) as [rootFreq Hroot].
  unfold AudioEngine.known, AudioEngine.rootNameOf. rewrite Hroot. reflexivity.
Qed.

Lemma keyChange_some (app : App) (key : string) :
  keyChange app = Some key ->
  wasPinching app = true
  /\ hoveredKey app = KeyOverlay.Key key
  /\ key <> currentKey app.
Proof.
  unfold keyChange. destruct (wasPinching app); [| discriminate].
  destruct (hoveredKey app) as [| | name]; try discriminate.
  destruct (String.eqb name ""); [discriminate |].
  destruct (String.eqb_spec name (currentKey app)) as [| Hne]; [discriminate |].
  cbn [negb andb]. intros [= <-]. repeat split. exact Hne.
Qed.

Lemma setCurrentKey_key (now : R) (keyName : string) (this : KeyOverlay.View) :
  KeyOverlay.currentKey (KeyOverlay.setCurrentKey now keyName this) = keyName.
Proof.
  unfold KeyOverlay.setCurrentKey.
  destruct (String.eqb_spec keyName (KeyOverlay.currentKey this)) as [-> | _];
    [reflexivity |].
  destruct (negb _); reflexivity.
Qed.

Lemma show_key (now : R) (this : KeyOverlay.View) :
  KeyOverlay.currentKey (KeyOverlay.show now this) = KeyOverlay.currentKey this.
Proof.
  unfold KeyOverlay.show. destruct (KeyOverlay.visible this && _); [reflexivity |].
  destruct (KeyOverlay.hideTimeout this); reflexivity.
Qed.

Lemma hide_key (now : R) (this : KeyOverlay.View) :
  KeyOverlay.currentKey (KeyOverlay.hide now this) = KeyOverlay.currentKey this.
Proof.
  unfold KeyOverlay.hide. destruct (negb (KeyOverlay.visible this) && _); reflexivity.
Qed.

Lemma render_key (now : R) (this : KeyOverlay.View) :
  KeyOverlay.currentKey (KeyOverlay.render now this) = KeyOverlay.currentKey this.
Proof.
  unfold KeyOverlay.render.
  destruct (renderRotation_view now (KeyOverlay.renderFade now this)) as (-> & _).
  apply renderFade_rotation.
Qed.

Lemma engine_run_key (engine : AudioEngine.Engine) (i w : Js.Value) :
  AudioEngine.currentKey
    (AudioEngine.run engine [AudioEngine.CallSetIntensity i; AudioEngine.CallSetWidth w])
  = AudioEngine.currentKey engine.
Proof.
  cbn [AudioEngine.run fold_left].
  pose proof (step_key (AudioEngine.CallSetIntensity i) engine eq_refl) as H1.
  pose proof (step_key (AudioEngine.CallSetWidth w)
                (AudioEngine.step engine (AudioEngine.CallSetIntensity i)) eq_refl) as H2.
  unfold AudioEngine.keyOf in *. congruence.
Qed.

Lemma engine_run_quiet (engine : AudioEngine.Engine) (i w : Js.Value) :
  AudioEngine.settled engine ->
  Forall AudioEngine.quiet (AudioEngine.effects engine) ->
  Forall AudioEngine.quiet
    (AudioEngine.effects
       (AudioEngine.run engine
          [AudioEngine.CallSetIntensity i; AudioEngine.CallSetWidth w])).
Proof.
  intros Hs Hq. cbn [AudioEngine.run fold_left].
  apply step_quiet; [apply step_settled, Hs | exact I |].
  apply step_quiet; [exact Hs | exact I | exact Hq].
Qed.

(** *** The page stays consistent *)

Ltac consistent_in H :=
  destruct H as (renderer & engine & overlay & Hrenderer & Hengine & Hoverlay
                 & Hreach & Hquiet & Hekey & Hokey & Hsteady & Hhover).

Lemma steady_turn (t : R) (overlay : KeyOverlay.View) :
  KeyOverlay.steady t overlay ->
  KeyOverlay.rotationOffset (KeyOverlay.geometry overlay) <= PI * 2.
Proof.
  intros (_ & [_ Hr] & _). pose proof PI_RGT_0. lra.
Qed.

Lemma consistent_intro (t : R) (app : App) (renderer : AsciiRenderer.State)
    (engine : AudioEngine.Engine) (overlay : KeyOverlay.View) :
  asciiRenderer app = Some renderer ->
  audioEngine app = Some engine ->
  keyOverlay app = Some overlay ->
  AudioEngine.reachable engine ->
  Forall AudioEngine.quiet (AudioEngine.effects engine) ->
  AudioEngine.currentKey engine = currentKey app ->
  KeyOverlay.currentKey overlay = currentKey app ->
  KeyOverlay.steady t overlay ->
  KeyOverlay.tableKey (hoveredKey app) ->
  consistent t app.
Proof. intros. exists renderer, engine, overlay. tauto. Qed.

Lemma gesture_consistent (t now : R) (results : Event.t) (app : App) :
  consistent t app -> detected results -> t <= now ->
  consistent now (appAfter (onHandResults now results app)).
Proof.
  intros H Hdet Hle. consistent_in H.
  pose proof (reachable_settled engine Hreach) as Hs.
  destruct (detected_event results Hdet) as (_ & _ & Hpos).
  destruct (Event.active (Event.pinch results)) eqn:Hactive.
  - destruct (Hpos eq_refl) as [position Hposition].
    rewrite (onHandResults_pinching now results app overlay position
               Hactive Hposition Hoverlay).
    cbv zeta. cbn [appAfter].
    eapply consistent_intro;
      cbn [asciiRenderer audioEngine keyOverlay currentKey hoveredKey];
      try (first [reflexivity | eassumption]).
    + cbn [KeyOverlay.currentKey KeyOverlay.setHoveredKey KeyOverlay.set_hoveredKey
           KeyOverlay.setPinchPosition KeyOverlay.set_pinchPosition].
      rewrite show_key. exact Hokey.
    + apply steady_setHoveredKey; [apply steady_setPinchPosition, (steady_show t);
                                   assumption |].
      apply hit_in_tables, (steady_turn t), Hsteady.
    + apply hit_in_tables, (steady_turn t), Hsteady.
  - rewrite (onHandResults_released now results app renderer engine overlay
               Hactive Hrenderer Hengine Hoverlay Hs).
    cbn [appAfter].
    eapply consistent_intro;
      cbn [asciiRenderer audioEngine keyOverlay currentKey hoveredKey];
      try reflexivity; try exact I;
      destruct (keyChange app) as [key |] eqn:Hchange.
    + apply engine_reachable_run.
      exact (engine_reachable_run engine [AudioEngine.CallSetKey key] Hreach).
    + apply engine_reachable_run, Hreach.
    + destruct (keyChange_some app key Hchange) as (_ & Hhovered & _).
      rewrite Hhovered in Hhover. cbn [KeyOverlay.tableKey] in Hhover.
      pose proof (table_key_known key Hhover) as Hknown.
      apply engine_run_quiet;
        [exact (step_settled (AudioEngine.CallSetKey key) engine Hs) |].
      exact (step_quiet (AudioEngine.CallSetKey key) engine Hs Hknown Hquiet).
    + apply engine_run_quiet; assumption.
    + destruct (keyChange_some app key Hchange) as (_ & Hhovered & _).
      rewrite Hhovered in Hhover. cbn [KeyOverlay.tableKey] in Hhover.
      pose proof (table_key_known key Hhover) as Hknown.
      rewrite engine_run_key.
      destruct (setKey_fields key engine) as (_ & _ & _ & _ & -> & _).
      rewrite Hknown. reflexivity.
    + rewrite engine_run_key. exact Hekey.
    + cbn [KeyOverlay.currentKey KeyOverlay.setPinchPosition KeyOverlay.set_pinchPosition
           KeyOverlay.hideWithDelay KeyOverlay.set_hideTimeout].
      apply setCurrentKey_key.
    + cbn [KeyOverlay.currentKey KeyOverlay.setPinchPosition KeyOverlay.set_pinchPosition].
      destruct (wasPinching app); [rewrite hide_key |]; exact Hokey.
    + destruct (keyChange_some app key Hchange) as (_ & Hhovered & _).
      rewrite Hhovered in Hhover. cbn [KeyOverlay.tableKey] in Hhover.
      apply steady_setPinchPosition, steady_hideWithDelay.
      apply (steady_setCurrentKey t); assumption.
    + apply steady_setPinchPosition.
      destruct (wasPinching app);
        [apply (steady_hide t) | apply (steady_later t)]; assumption.
Qed.

Lemma step_consistent (t : R) (app : App) (i : Input) :
  consistent t app -> possible i -> t <= clockAfter t i ->
  consistent (clockAfter t i) (step app i).
Proof.
  intros H Hpossible Hle.
  destruct i as [now results | now | now | w h | | ok];
    cbn [clockAfter clock step possible] in *.
  - apply (gesture_consistent t); assumption.
  - consistent_in H. unfold onOverlay. rewrite Hoverlay.
    eapply consistent_intro;
      cbn [asciiRenderer audioEngine keyOverlay currentKey hoveredKey set_keyOverlay];
      try (first [reflexivity | eassumption]).
    + destruct (KeyOverlay.hideTimeout overlay) as [due |]; [| exact Hokey].
      destruct (Js.ge now due); [| exact Hokey].
      unfold KeyOverlay.hideTimeoutCallback.
      cbn [KeyOverlay.currentKey KeyOverlay.set_hideTimeout].
      rewrite hide_key. exact Hokey.
    + destruct (KeyOverlay.hideTimeout overlay) as [due |];
        [| apply (steady_later t); assumption].
      destruct (Js.ge now due);
        [apply (steady_callback t) | apply (steady_later t)]; assumption.
  - consistent_in H. unfold onOverlay. rewrite Hoverlay.
    eapply consistent_intro;
      cbn [asciiRenderer audioEngine keyOverlay currentKey hoveredKey set_keyOverlay];
      try (first [reflexivity | eassumption]).
    + rewrite render_key. exact Hokey.
    + apply (steady_render t); assumption.
  - consistent_in H. unfold onOverlay. rewrite Hoverlay. destruct Hpossible as [Hw Hh].
    eapply consistent_intro;
      cbn [asciiRenderer audioEngine keyOverlay currentKey hoveredKey set_keyOverlay];
      try (first [reflexivity | eassumption]).
    apply steady_resizeView; assumption.
  - consistent_in H. unfold startAudio. rewrite Hengine.
    destruct (AudioEngine.isInitialized engine);
      [apply (consistent_intro t app renderer engine overlay); assumption |].
    pose proof (reachable_settled engine Hreach) as Hs.
    eapply consistent_intro;
      cbn [asciiRenderer audioEngine keyOverlay currentKey hoveredKey set_audioEngine];
      try (first [reflexivity | eassumption]).
    + exact (engine_reachable_run engine [AudioEngine.CallInit] Hreach).
    + exact (step_quiet AudioEngine.CallInit engine Hs I Hquiet).
    + pose proof (step_key AudioEngine.CallInit engine eq_refl) as Hk.
      unfold AudioEngine.keyOf in Hk. cbn [AudioEngine.step] in Hk. congruence.
  - consistent_in H. rewrite Hengine.
    pose proof (reachable_settled engine Hreach) as Hs.
    eapply consistent_intro;
      cbn [asciiRenderer audioEngine keyOverlay currentKey hoveredKey set_audioEngine];
      try (first [reflexivity | eassumption]).
    + exact (engine_reachable_run engine [AudioEngine.Settle ok] Hreach).
    + exact (step_quiet (AudioEngine.Settle ok) engine Hs I Hquiet).
    + pose proof (step_key (AudioEngine.Settle ok) engine eq_refl) as Hk.
      unfold AudioEngine.keyOf in Hk. cbn [AudioEngine.step] in Hk. congruence.
Qed.

Lemma reachable_consistent (t : R) (app : App) : reachableAt t app -> consistent t app.
Proof.
  intros H. induction H as [t w h Hw Hh | t app i _ IH Hpossible Hle].
  - eapply consistent_intro; try reflexivity.
    + exists []. reflexivity.
    + apply Forall_nil.
    + apply steady_constructed; assumption.
  - apply step_consistent; assumption.
Qed.

(** *** Sample page *)

Lemma idleEvent_detected : detected idleEvent.
Proof.
  exists started, 16, []. split; [exists []; reflexivity |].
  rewrite (frame_emitted started 16 [] eq_refl). reflexivity.
Qed.

Lemma samplePage_reachable : reachableAt 16 samplePage.
Proof.
  apply (at_step 0 _ (Gesture 16 idleEvent)).
  - apply (at_step 0 _ StartAudio).
    + apply at_load; lra.
    + exact I.
    + cbn [clockAfter clock]. lra.
  - exact idleEvent_detected.
  - cbn [clockAfter clock]. lra.
Qed.

(** X17 (one key for the whole page).  On every page that can be
    observed, the three components (renderer, audio engine, overlay) are
    there and the key of main.js, the key of the audio engine and the key
    shown by the overlay are the same key, one of the 24 of the two tables;
    the engine has never warned about an unknown key; and the hovered key
    is a key of the tables or [null], never [undefined]. *)
Theorem page_agrees_on_the_key (app : App) :
  reachable app ->
  exists renderer engine overlay,
    asciiRenderer app = Some renderer
    /\ audioEngine app = Some engine
    /\ keyOverlay app = Some overlay
    /\ AudioEngine.getCurrentKey engine = currentKey app
    /\ KeyOverlay.currentKey overlay = currentKey app
    /\ In (currentKey app) (KeyOverlay.MAJOR_KEYS ++ KeyOverlay.MINOR_KEYS)%list
    /\ Forall AudioEngine.quiet (AudioEngine.effects engine)
    /\ KeyOverlay.tableKey (hoveredKey app)
    /\ KeyOverlay.tableKey (KeyOverlay.hoveredKey overlay).
Proof.
  intros [t Hat]. pose proof (reachable_consistent t app Hat) as H.
  consistent_in H. exists renderer, engine, overlay.
  destruct Hsteady as (_ & _ & _ & _ & _ & _ & _ & Hin & _ & _ & Hhk).
  rewrite Hokey in Hin. repeat split; assumption.
Qed.

(** [page_agrees_on_the_key] on the sample page. *)
Lemma page_agrees_on_the_key_witness :
  exists renderer engine overlay,
    asciiRenderer samplePage = Some renderer
    /\ audioEngine samplePage = Some engine
    /\ keyOverlay samplePage = Some overlay
    /\ AudioEngine.getCurrentKey engine = currentKey samplePage
    /\ KeyOverlay.currentKey overlay = currentKey samplePage.
Proof.
  destruct (page_agrees_on_the_key samplePage)
    as (renderer & engine & overlay & Hr & He & Ho & Hk & Hk' & _).
  - exists 16. exact samplePage_reachable.
  - exists renderer, engine, overlay. repeat split; assumption.
Defined.

(** X18 (the overlay stays in range).  On every page that can be observed,
    with a clock that never runs backwards, whatever the order of gestures,
    renders, timers and resizes: the overlay's opacity is between 0 and 1;
    its rotation offset, the offset it started from and its target are
    between eleven segments counter-clockwise and none; the target is the
    current key's index times one segment; and whenever no rotation is
    running the wheel is on its target, so that the label of the current
    key's segment is drawn straight up from the centre. *)
Theorem overlay_stays_in_range (app : App) :
  reachable app ->
  exists overlay,
    keyOverlay app = Some overlay
    /\ 0 <= KeyOverlay.opacity overlay <= 1
    /\ KeyOverlay.inTurn (KeyOverlay.rotationOffset (KeyOverlay.geometry overlay))
    /\ KeyOverlay.inTurn (KeyOverlay.rotationStartOffset overlay)
    /\ KeyOverlay.targetRotationOffset overlay =
       - IZR (KeyOverlay.getKeyIndex (currentKey app)) * KeyOverlay.segmentAngle
    /\ (KeyOverlay.rotationStartTime overlay = None ->
        KeyOverlay.midAngle overlay (KeyOverlay.getKeyIndex (currentKey app)) = - (PI / 2)).
Proof.
  intros [t Hat]. pose proof (reachable_consistent t app Hat) as H.
  consistent_in H. exists overlay.
  destruct Hsteady as (_ & Hr & _ & Hs & Ho & _ & _ & _ & Htg & Hland & _).
  rewrite Hokey in Htg.
  repeat split; try assumption; try apply Ho; try apply Hr; try apply Hs.
  intros Hnone. unfold KeyOverlay.midAngle, KeyOverlay.startAngle.
  rewrite (Hland Hnone), Htg. unfold KeyOverlay.segmentAngle. field.
Qed.

(** [overlay_stays_in_range] on the sample page. *)
Lemma overlay_stays_in_range_witness :
  exists overlay,
    keyOverlay samplePage = Some overlay
    /\ 0 <= KeyOverlay.opacity overlay <= 1.
Proof.
  destruct (overlay_stays_in_range samplePage) as (overlay & Ho & Hop & _).
  - exists 16. exact samplePage_reachable.
  - exists overlay. split; assumption.
Defined.

(** *** The callback on the detector's events *)

(** X19 (the callback returns).  On every page that can be observed and
    every event that a started detector hands over, the gesture callback
    returns: the pinch position it dereferences is there whenever the pinch
    is active, and the two engine setters it calls find their nodes. *)
Theorem callback_never_throws (app : App) (now : R) (results : Event.t) :
  reachable app ->
  detected results ->
  exists app', onHandResults now results app = Done app'.
Proof.
  intros [t Hat] Hdet. pose proof (reachable_consistent t app Hat) as H.
  consistent_in H.
  destruct (detected_event results Hdet) as (_ & _ & Hpos).
  destruct (Event.active (Event.pinch results)) eqn:Hactive.
  - destruct (Hpos eq_refl) as [position Hposition].
    rewrite (onHandResults_pinching now results app overlay position
               Hactive Hposition Hoverlay).
    eexists. reflexivity.
  - rewrite (onHandResults_released now results app renderer engine overlay
               Hactive Hrenderer Hengine Hoverlay (reachable_settled engine Hreach)).
    eexists. reflexivity.
Qed.

(** [callback_never_throws] on the sample page and the idle event. *)
Lemma callback_never_throws_witness :
  exists app', onHandResults 33 idleEvent samplePage = Done app'.
Proof.
  apply callback_never_throws.
  - exists 16. exact samplePage_reachable.
  - exact idleEvent_detected.
Defined.

Lemma unit_of_rotation (rotation : R) :
  -90 <= rotation <= 90 -> 0 <= Rabs rotation / 90 <= 1.
Proof.
  intros H. assert (Habs : 0 <= Rabs rotation <= 90).
  { split; [apply Rabs_pos | apply Rabs_le; lra]. }
  lra.
Qed.

(** The two setters of the callback, as the engine sees them. *)
Lemma setters_applied (engine : AudioEngine.Engine) (i w : R) :
  AudioEngine.settled engine ->
  let engine' :=
    AudioEngine.run engine [AudioEngine.CallSetIntensity (Js.num i);
                            AudioEngine.CallSetWidth (Js.num w)] in
  AudioEngine.lastValidIntensity engine' = i
  /\ AudioEngine.lastValidWidth engine' = w
  /\ AudioEngine.effects engine' =
     if AudioEngine.isInitialized engine
     then (AudioEngine.effects engine
           ++ AudioEngine.intensityMapping (AudioEngine._clamp i 0 1)
           ++ AudioEngine.widthMapping (AudioEngine.nodes engine)
                (AudioEngine._clamp w 0 1))%list
     else AudioEngine.effects engine.
Proof.
  intros Hs engine'. subst engine'. cbn [AudioEngine.run fold_left AudioEngine.step].
  destruct (AudioEngine.isInitialized engine) eqn:Hi.
  - destruct (Hs Hi) as [_ Hw].
    rewrite (setIntensity_applied (Js.num i) engine Hi Hw). cbv zeta.
    cbn [AudioEngine.after AudioEngine._validateNumber Js.num Js.isNaN Js.isFinite
         orb negb].
    rewrite setWidth_applied by assumption. cbv zeta.
    cbn [AudioEngine.after AudioEngine._validateNumber Js.num Js.isNaN Js.isFinite
         orb negb].
    repeat split. cbn [AudioEngine.effects AudioEngine.emit AudioEngine.nodes
                       AudioEngine.set_lastValidIntensity AudioEngine.set_lastValidWidth].
    rewrite <- app_assoc. reflexivity.
  - rewrite (setIntensity_queued (Js.num i) engine Hi). cbv zeta.
    cbn [AudioEngine.after AudioEngine._validateNumber Js.num Js.isNaN Js.isFinite
         orb negb].
    rewrite setWidth_queued by exact Hi. repeat split.
Qed.

(** X20 (the pinch freezes sound and picture; the rotations drive them).
    For a page that can be observed and an event of the detector: while the
    pinch is active the callback leaves the renderer, the engine and the key
    as they are, whatever the rotations in the event.  Otherwise the
    renderer's saturation is the left rotation's magnitude over 45 and its
    drift the base plus the right one's over 3.6, and the engine receives
    the two magnitudes over 90, both already within 0 and 1: on an
    initialized engine the intensity and width mappings are applied at
    exactly these values, with no clamping, after the glide of a key
    change if there is one. *)
Theorem pinch_freezes_rotations_drive (app : App) (now : R) (results : Event.t) :
  reachable app ->
  detected results ->
  let app' := appAfter (onHandResults now results app) in
  let intensity := Rabs (Event.leftRotation results) / 90 in
  let width := Rabs (Event.rightRotation results) / 90 in
  (Event.active (Event.pinch results) = true ->
   asciiRenderer app' = asciiRenderer app
   /\ audioEngine app' = audioEngine app
   /\ currentKey app' = currentKey app)
  /\ (Event.active (Event.pinch results) = false ->
      exists renderer engine engine',
        asciiRenderer app = Some renderer
        /\ audioEngine app = Some engine
        /\ audioEngine app' = Some engine'
        /\ asciiRenderer app' =
           Some {| AsciiRenderer.saturationMultiplier :=
                     Rabs (Event.leftRotation results) / 45;
                   AsciiRenderer.baseDrift := AsciiRenderer.baseDrift renderer;
                   AsciiRenderer.driftAmount :=
                     AsciiRenderer.baseDrift renderer
                     + Rabs (Event.rightRotation results) / 3.6 |}
        /\ 0 <= intensity <= 1
        /\ 0 <= width <= 1
        /\ AudioEngine.lastValidIntensity engine' = intensity
        /\ AudioEngine.lastValidWidth engine' = width
        /\ (AudioEngine.isInitialized engine = true ->
            let keyed := match keyChange app with
                         | Some key => AudioEngine.setKey key engine
                         | None => engine
                         end in
            AudioEngine.effects engine' =
            (AudioEngine.effects keyed
             ++ AudioEngine.intensityMapping intensity
             ++ AudioEngine.widthMapping (AudioEngine.nodes engine) width)%list)).
Proof.
  intros [t Hat] Hdet app' intensity width. subst intensity width.
  pose proof (reachable_consistent t app Hat) as H. consistent_in H.
  pose proof (reachable_settled engine Hreach) as Hs.
  destruct (detected_event results Hdet) as (Hleft & Hright & Hpos).
  split; intros Hactive.
  - destruct (Hpos Hactive) as [position Hposition]. subst app'.
    rewrite (onHandResults_pinching now results app overlay position
               Hactive Hposition Hoverlay).
    repeat split.
  - subst app'.
    rewrite (onHandResults_released now results app renderer engine overlay
               Hactive Hrenderer Hengine Hoverlay Hs).
    cbn [appAfter asciiRenderer audioEngine].
    set (keyed := match keyChange app with
                  | Some key => AudioEngine.setKey key engine
                  | None => engine
                  end).
    assert (Hkeyed : AudioEngine.settled keyed
                     /\ AudioEngine.isInitialized keyed = AudioEngine.isInitialized engine
                     /\ AudioEngine.nodes keyed = AudioEngine.nodes engine).
    { subst keyed. destruct (keyChange app) as [key |];
        [| split; [exact Hs | split; reflexivity]].
      split; [exact (step_settled (AudioEngine.CallSetKey key) engine Hs) |].
      destruct (setKey_keeps key engine) as (Hst & _ & Hn & _).
      unfold AudioEngine.isInitialized. rewrite Hst, Hn. split; reflexivity. }
    destruct Hkeyed as (Hs' & Hi' & Hn').
    destruct (setters_applied keyed (Rabs (Event.leftRotation results) / 90)
                (Rabs (Event.rightRotation results) / 90) Hs') as (Hli & Hlw & Heff).
    exists renderer, engine. eexists.
    split; [exact Hrenderer |]. split; [exact Hengine |]. split; [reflexivity |].
    split; [reflexivity |].
    pose proof (unit_of_rotation _ Hleft) as Hi01.
    pose proof (unit_of_rotation _ Hright) as Hw01.
    split; [exact Hi01 |]. split; [exact Hw01 |].
    split; [exact Hli |]. split; [exact Hlw |].
    intros Hinit. cbv zeta. fold keyed.
    rewrite Heff, Hi', Hinit, Hn', !clamp_inside by assumption. reflexivity.
Qed.

(** [pinch_freezes_rotations_drive] on the sample page and the idle
    event. *)
Lemma pinch_freezes_rotations_drive_witness :
  exists engine',
    audioEngine (appAfter (onHandResults 33 idleEvent samplePage)) = Some engine'
    /\ AudioEngine.lastValidIntensity engine' = Rabs 0 / 90.
Proof.
  destruct (pinch_freezes_rotations_drive samplePage 33 idleEvent) as [_ Hreleased].
  - exists 16. exact samplePage_reachable.
  - exact idleEvent_detected.
  - destruct (Hreleased eq_refl) as (_ & _ & engine' & _ & _ & He & _ & _ & _ & Hli & _).
    exists engine'. split; assumption.
Defined.

(** *** From the gesture to the key *)

Lemma deliver_frame (later : R) (f : Frame) (this : HandDetector.State) (app : App) :
  isInitialized this = true ->
  deliver later f (this, app) =
  (frame this f,
   appAfter (onHandResults later (published (frame this f) (List.length (hands f))) app)).
Proof.
  intros Hinit. unfold deliver. cbn [fst snd].
  rewrite (frame_emitted this (time f) (hands f) Hinit). reflexivity.
Qed.

Lemma published_detected (f : Frame) (this : HandDetector.State) :
  HandDetector.reachable this ->
  detected (published (frame this f) (List.length (hands f))).
Proof.
  intros Hreach. exists this, (time f), (hands f). split; [exact Hreach |].
  rewrite (frame_emitted this (time f) (hands f) (reachable_isInitialized this Hreach)).
  reflexivity.
Qed.

Lemma table_key_not_empty (keyName : string) :
  In keyName (KeyOverlay.MAJOR_KEYS ++ KeyOverlay.MINOR_KEYS)%list ->
  String.eqb keyName "" = false.
Proof.
  intros Hin. cbn in Hin.
  repeat (destruct Hin as [<- | Hin]; [reflexivity |]). contradiction.
Qed.

Lemma lastHand_raw (p : Hand -> bool) (results : list Hand) (h : Hand) :
  lastHand p results = Some h -> existsb p results = true.
Proof.
  intros Hlast. destruct (existsb p results) eqn:Hex; [reflexivity |].
  exfalso. revert h Hlast.
  induction results as [| h' results IH] using rev_ind; intros h Hlast.
  - discriminate Hlast.
  - rewrite existsb_snoc in Hex. apply orb_false_iff in Hex. destruct Hex as [Hrest Hh'].
    rewrite lastHand_snoc, Hh' in Hlast. exact (IH Hrest h Hlast).
Qed.

Lemma show_visible (now : R) (this : KeyOverlay.View) :
  KeyOverlay.visible (KeyOverlay.show now this) = true.
Proof.
  unfold KeyOverlay.show.
  destruct (KeyOverlay.visible this) eqn:Hv; cbn [andb].
  - destruct (KeyOverlay.fadeDirection this >=? 0)%Z; [exact Hv |].
    destruct (KeyOverlay.hideTimeout this); reflexivity.
  - destruct (KeyOverlay.hideTimeout this); reflexivity.
Qed.

Lemma setCurrentKey_visible (now : R) (keyName : string) (this : KeyOverlay.View) :
  KeyOverlay.visible (KeyOverlay.setCurrentKey now keyName this) = KeyOverlay.visible this.
Proof.
  unfold KeyOverlay.setCurrentKey.
  destruct (String.eqb keyName (KeyOverlay.currentKey this)); [reflexivity |].
  destruct (negb _); reflexivity.
Qed.

(** The detector over a pinch that starts on an idle slot, is held for the
    hold duration and is then released. *)
Lemma pinch_then_release (this : HandDetector.State) (f1 f2 f3 : Frame) (h : Hand) :
  HandDetector.reachable this ->
  pinchHoldStart this = None ->
  rawPresent Pinch (hands f1) = true ->
  lastHand isPinching (hands f2) = Some h ->
  rawPresent Pinch (hands f3) = false ->
  time f1 + HOLD_DURATION_MS <= time f2 ->
  let d1 := frame this f1 in
  let d2 := frame d1 f2 in
  let d3 := frame d2 f3 in
  pinchActive d1 = false
  /\ pinchActive d2 = true
  /\ pinchPosition d2 = Some (getPinchPosition (handLandmarks h))
  /\ pinchActive d3 = false.
Proof.
  intros Hreach Hidle Hraw1 Hlast Hraw3 Hheld d1 d2 d3.
  pose proof (reachable_isInitialized this Hreach) as Hinit.
  assert (Hinit1 : isInitialized d1 = true) by (apply frame_isInitialized; exact Hinit).
  assert (Hinit2 : isInitialized d2 = true) by (apply frame_isInitialized; exact Hinit1).
  assert (Hraw2 : rawPresent Pinch (hands f2) = true) by exact (lastHand_raw _ _ _ Hlast).
  assert (Hstart1 : pinchHoldStart d1 = Some (time f1)).
  { pose proof (frame_holdStart this (time f1) (hands f1) Hinit Pinch) as H.
    cbn [holdStartOf] in H. fold (frame this f1) in H. fold d1 in H.
    rewrite H, Hraw1, Hidle. reflexivity. }
  assert (Hactive1 : pinchActive d1 = false).
  { subst d1. unfold frame. rewrite frame_pinchActive by exact Hinit.
    pose proof (frame_confirmed this (time f1) (hands f1) Hinit Pinch) as H.
    cbn [confirmedOf holdStartOf] in H. rewrite H, Hraw1, Hidle. reflexivity. }
  assert (Hactive2 : pinchActive d2 = true).
  { subst d2. unfold frame. rewrite frame_pinchActive by exact Hinit1.
    pose proof (frame_confirmed d1 (time f2) (hands f2) Hinit1 Pinch) as H.
    cbn [confirmedOf holdStartOf] in H. rewrite H, Hraw2, Hstart1.
    rewrite ge_true by lra. apply orb_true_r. }
  assert (Hactive3 : pinchActive d3 = false).
  { subst d3. unfold frame. rewrite frame_pinchActive by exact Hinit2.
    pose proof (frame_confirmed d2 (time f3) (hands f3) Hinit2 Pinch) as H.
    cbn [confirmedOf] in H. rewrite H, Hraw3. reflexivity. }
  repeat split; try assumption.
  pose proof (frame_pinchPosition d1 (time f2) (hands f2) Hinit1) as Hpos.
  fold (frame d1 f2) in Hpos. fold d2 in Hpos.
  rewrite Hactive2, Hlast in Hpos. exact Hpos.
Qed.

(** X21 (from the gesture to the key).  The detector and the page
    together: a pinch that starts on an idle detector, is still there
    450 ms later over a key of the wheel other than the current one, and is
    gone in the next frame, changes the key.  The first two frames leave
    the key alone; the second one makes the key under the mirrored pinch
    position the hovered key; the third one makes it the key of main.js,
    of the audio engine and of the overlay, and schedules the overlay to
    hide 1500 ms later while it is still shown. *)
Theorem held_pinch_selects_key (this : HandDetector.State) (app : App)
    (overlay : KeyOverlay.View) (f1 f2 f3 : Frame) (c1 c2 c3 : R) (h : Hand)
    (key : string) :
  HandDetector.reachable this ->
  pinchHoldStart this = None ->
  reachable app ->
  wasPinching app = false ->
  rawPresent Pinch (hands f1) = true ->
  lastHand isPinching (hands f2) = Some h ->
  rawPresent Pinch (hands f3) = false ->
  time f1 + HOLD_DURATION_MS <= time f2 ->
  keyOverlay app = Some overlay ->
  KeyOverlay.keyAt overlay (Some (flipped (getPinchPosition (handLandmarks h))))
  = KeyOverlay.Key key ->
  key <> currentKey app ->
  let held := deliver c2 f2 (deliver c1 f1 (this, app)) in
  let released := deliver c3 f3 held in
  currentKey (snd held) = currentKey app
  /\ hoveredKey (snd held) = KeyOverlay.Key key
  /\ currentKey (snd released) = key
  /\ exists engine' overlay',
       audioEngine (snd released) = Some engine'
       /\ keyOverlay (snd released) = Some overlay'
       /\ AudioEngine.getCurrentKey engine' = key
       /\ KeyOverlay.currentKey overlay' = key
       /\ KeyOverlay.visible overlay' = true
       /\ KeyOverlay.hideTimeout overlay' = Some (c3 + KeyOverlay.HIDE_DELAY).
Proof.
  intros Hreach Hidle [t Hat] Hwas Hraw1 Hlast Hraw3 Hheld Hoverlay Hhit Hne held released.
  pose proof (reachable_isInitialized this Hreach) as Hinit.
  destruct (pinch_then_release this f1 f2 f3 h Hreach Hidle Hraw1 Hlast Hraw3 Hheld)
    as (Hactive1 & Hactive2 & Hposition2 & Hactive3).
  destruct (reachable_consistent t app Hat)
    as (renderer & engine & overlay0 & Hrenderer & Hengine & Hoverlay0 & Hreach0
        & _ & _ & _ & Hsteady & _).
  rewrite Hoverlay in Hoverlay0. injection Hoverlay0 as <-.
  pose proof (reachable_settled engine Hreach0) as Hs.
  assert (Hkey : In key (KeyOverlay.MAJOR_KEYS ++ KeyOverlay.MINOR_KEYS)%list).
  { pose proof (hit_in_tables (KeyOverlay.geometry overlay)
                  (Some (flipped (getPinchPosition (handLandmarks h))))
                  (steady_turn t overlay Hsteady)) as Hin.
    unfold KeyOverlay.keyAt in Hhit. rewrite Hhit in Hin. exact Hin. }
  (* first frame: the pinch is not confirmed yet *)
  set (d1 := frame this f1) in *. set (d2 := frame d1 f2) in *.
  assert (Hinit1 : isInitialized d1 = true) by (apply frame_isInitialized; exact Hinit).
  assert (Hinit2 : isInitialized d2 = true) by (apply frame_isInitialized; exact Hinit1).
  assert (Hchange : keyChange app = None) by (unfold keyChange; rewrite Hwas; reflexivity).
  set (e1 := published d1 (List.length (hands f1))).
  set (a1 := appAfter (onHandResults c1 e1 app)).
  assert (Ha1 : a1 = {| asciiRenderer := asciiRenderer a1;
                        audioEngine :=
                          Some (AudioEngine.run engine
                                  [AudioEngine.CallSetIntensity
                                     (Js.num (Rabs (Event.leftRotation e1) / 90));
                                   AudioEngine.CallSetWidth
                                     (Js.num (Rabs (Event.rightRotation e1) / 90))]);
                        keyOverlay := Some (KeyOverlay.setPinchPosition None overlay);
                        currentKey := currentKey app;
                        hoveredKey := KeyOverlay.Null;
                        wasPinching := false |}).
  { subst a1.
    rewrite (onHandResults_released c1 e1 app renderer engine overlay
               Hactive1 Hrenderer Hengine Hoverlay Hs).
    rewrite Hchange, Hwas. reflexivity. }
  (* second frame: the pinch is confirmed over the key *)
  set (e2 := published d2 (List.length (hands f2))).
  set (a2 := appAfter (onHandResults c2 e2 a1)).
  set (overlay2 := KeyOverlay.setHoveredKey (KeyOverlay.Key key)
                     (KeyOverlay.setPinchPosition
                        (Some (flipped (getPinchPosition (handLandmarks h))))
                        (KeyOverlay.show c2 (KeyOverlay.setPinchPosition None overlay)))).
  assert (Ha2 : a2 = {| asciiRenderer := asciiRenderer a1;
                        audioEngine := audioEngine a1;
                        keyOverlay := Some overlay2;
                        currentKey := currentKey app;
                        hoveredKey := KeyOverlay.Key key;
                        wasPinching := true |}).
  { subst a2.
    rewrite (onHandResults_pinching c2 e2 a1 (KeyOverlay.setPinchPosition None overlay)
               (getPinchPosition (handLandmarks h)) Hactive2 Hposition2)
      by (rewrite Ha1; reflexivity).
    cbv zeta. fold (flipped (getPinchPosition (handLandmarks h))).
    change (KeyOverlay.keyAt (KeyOverlay.setPinchPosition None overlay)
              (Some (flipped (getPinchPosition (handLandmarks h)))))
      with (KeyOverlay.keyAt overlay (Some (flipped (getPinchPosition (handLandmarks h))))).
    rewrite Hhit. rewrite Ha1 at 3. reflexivity. }
  assert (Hheld' : held = (d2, a2)).
  { subst held. rewrite (deliver_frame c1 f1 this app Hinit).
    fold d1 e1 a1. rewrite (deliver_frame c2 f2 d1 a1 Hinit1). reflexivity. }
  (* third frame: the release commits the key *)
  set (e3 := published (frame d2 f3) (List.length (hands f3))).
  set (engine1 := AudioEngine.run engine
                    [AudioEngine.CallSetIntensity
                       (Js.num (Rabs (Event.leftRotation e1) / 90));
                     AudioEngine.CallSetWidth
                       (Js.num (Rabs (Event.rightRotation e1) / 90))]) in *.
  assert (Hs1 : AudioEngine.settled engine1) by (apply run_settled; exact Hs).
  assert (Hchange2 : keyChange a2 = Some key).
  { rewrite Ha2. unfold keyChange. cbn [wasPinching hoveredKey currentKey].
    rewrite (table_key_not_empty key Hkey).
    destruct (String.eqb_spec key (currentKey app)) as [Heq | _]; [contradiction |].
    reflexivity. }
  assert (Hrenderer1 : exists renderer1, asciiRenderer a1 = Some renderer1).
  { subst a1.
    rewrite (onHandResults_released c1 e1 app renderer engine overlay
               Hactive1 Hrenderer Hengine Hoverlay Hs).
    eexists. reflexivity. }
  destruct Hrenderer1 as [renderer1 Hrenderer1].
  assert (Hreleased : released =
                      (frame d2 f3, appAfter (onHandResults c3 e3 a2))).
  { subst released. rewrite Hheld'. apply deliver_frame. exact Hinit2. }
  rewrite Hheld', Hreleased. cbn [snd].
  split; [rewrite Ha2; reflexivity |].
  split; [rewrite Ha2; reflexivity |].
  rewrite (onHandResults_released c3 e3 a2 renderer1 engine1 overlay2 Hactive3)
    by (first [exact Hs1
              | rewrite Ha2; cbn [asciiRenderer audioEngine keyOverlay];
                first [exact Hrenderer1 | reflexivity | rewrite Ha1; reflexivity]]).
  rewrite Hchange2. cbn [appAfter currentKey audioEngine keyOverlay].
  split; [reflexivity |].
  eexists. eexists. split; [reflexivity |]. split; [reflexivity |].
  split; [| split; [| split]].
  - unfold AudioEngine.getCurrentKey. rewrite engine_run_key.
    destruct (setKey_fields key engine1) as (_ & _ & _ & _ & -> & _).
    rewrite (table_key_known key Hkey). reflexivity.
  - cbn [KeyOverlay.currentKey KeyOverlay.setPinchPosition KeyOverlay.set_pinchPosition
         KeyOverlay.hideWithDelay KeyOverlay.set_hideTimeout].
    apply setCurrentKey_key.
  - cbn [KeyOverlay.visible KeyOverlay.setPinchPosition KeyOverlay.set_pinchPosition
         KeyOverlay.hideWithDelay KeyOverlay.set_hideTimeout].
    rewrite setCurrentKey_visible. subst overlay2.
    cbn [KeyOverlay.visible KeyOverlay.setHoveredKey KeyOverlay.set_hoveredKey
         KeyOverlay.setPinchPosition KeyOverlay.set_pinchPosition].
    apply show_visible.
  - reflexivity.
Qed.

(** In an 800 by 600 window, before any rotation, the mirrored position
    of a pinch at (0.5, 1/3) is straight up in the inner ring. *)
Lemma sample_hit :
  KeyOverlay.keyAt (KeyOverlay.constructedView 800 600)
    (Some (flipped {| x := 0.5; y := 200 / 600 |})) = KeyOverlay.Key "Am".
Proof.
  unfold KeyOverlay.keyAt, KeyOverlay.constructedView, flipped.
  cbn [KeyOverlay.geometry x y].
  rewrite getKeyAtPosition_unfold, constructed_minDim.
  rewrite (distanceOf_up _ _ 100), (segmentIndexOf_up _ _);
    try reflexivity;
    try (cbn [x y KeyOverlay.canvasWidth KeyOverlay.canvasHeight KeyOverlay.centerX
              KeyOverlay.centerY KeyOverlay.constructed KeyOverlay.resize]; lra).
  unfold KeyOverlay.CENTER_RADIUS, KeyOverlay.INNER_RADIUS.
  rewrite lt_false, lt_true by lra. reflexivity.
Qed.

(** [held_pinch_selects_key] on a new page in an 800 by 600 window: a
    right-hand pinch at (0.5, 1/3) held for 450 ms and released selects
    A minor. *)
Lemma held_pinch_selects_key_witness :
  let pinch := [handOf "Right" (pinchingAt {| x := 0.5; y := 200 / 600 |})] in
  let released :=
    deliver 467 {| time := 466; hands := [] |}
      (deliver 451 {| time := 450; hands := pinch |}
         (deliver 1 {| time := 0; hands := pinch |} (started, loaded 800 600))) in
  currentKey (snd released) = "Am".
Proof.
  intros pinch released. subst released pinch.
  set (pinch := [handOf "Right" (pinchingAt {| x := 0.5; y := 200 / 600 |})]).
  assert (Hraw : rawPresent Pinch pinch = true).
  { subst pinch. unfold rawPresent. cbn [existsb rawOn]. rewrite pinching_raw. reflexivity. }
  assert (Hlast : lastHand isPinching pinch
                  = Some (handOf "Right" (pinchingAt {| x := 0.5; y := 200 / 600 |}))).
  { subst pinch. unfold lastHand. cbn [fold_left]. rewrite pinching_raw. reflexivity. }
  destruct (held_pinch_selects_key started (loaded 800 600)
              (KeyOverlay.constructedView 800 600)
              {| time := 0; hands := pinch |} {| time := 450; hands := pinch |}
              {| time := 466; hands := [] |} 1 451 467
              (handOf "Right" (pinchingAt {| x := 0.5; y := 200 / 600 |})) "Am")
    as (_ & _ & Hkey & _).
  - exists []. reflexivity.
  - reflexivity.
  - exists 0. apply at_load; lra.
  - reflexivity.
  - exact Hraw.
  - exact Hlast.
  - reflexivity.
  - cbn [time]. unfold HOLD_DURATION_MS. lra.
  - reflexivity.
  - cbn [handOf handLandmarks]. rewrite pinchingAt_position. exact sample_hit.
  - discriminate.
  - exact Hkey.
Defined.

(** *** From the fist to the sound *)

(** X27 (from the fist to the sound).  The detector and the page together:
    a left fist that starts on an idle slot and is still there 450 ms
    later, with no hand pinching in that second frame, reaches the picture
    and the sound in that frame: the renderer's saturation is the
    magnitude of the fist's rotation over 45 and the intensity that the
    engine records is its magnitude over 90, the rotation being the
    classifier's for the last left fist of the frame, within -90 and
    90. *)
Theorem held_fist_drives_the_sound (this : HandDetector.State) (app : App) (t : R)
    (f1 f2 : Frame) (c1 c2 : R) :
  HandDetector.reachable this ->
  holdStartOf LeftFist this = None ->
  reachableAt t app ->
  t <= c1 ->
  rawPresent LeftFist (hands f1) = true ->
  rawPresent LeftFist (hands f2) = true ->
  rawPresent Pinch (hands f2) = false ->
  time f1 + HOLD_DURATION_MS <= time f2 ->
  let driven := snd (deliver c2 f2 (deliver c1 f1 (this, app))) in
  exists h renderer' engine',
    lastHand isLeftFist (hands f2) = Some h
    /\ asciiRenderer driven = Some renderer'
    /\ audioEngine driven = Some engine'
    /\ -90 <= calculateHandRotation (handLandmarks h) <= 90
    /\ AsciiRenderer.saturationMultiplier renderer'
       = Rabs (calculateHandRotation (handLandmarks h)) / 45
    /\ AudioEngine.lastValidIntensity engine'
       = Rabs (calculateHandRotation (handLandmarks h)) / 90.
Proof.
  intros Hdetector Hidle Hat Hclock Hraw1 Hraw2 Hnopinch Hheld driven.
  pose proof (reachable_isInitialized this Hdetector) as Hinit.
  set (d1 := frame this f1). set (d2 := frame d1 f2).
  assert (Hinit1 : isInitialized d1 = true) by (apply frame_isInitialized; exact Hinit).
  (* the detector: the rotation is published, the pinch is not active *)
  destruct (fist_hold_rotation OnLeft this f1 [f2] Hdetector Hidle) as [_ Hpublished].
  { repeat constructor; assumption. }
  { cbn [ascending]. split; [unfold HOLD_DURATION_MS in Hheld; lra | exact I]. }
  destruct Hpublished as (h & Hlast & Hrotation).
  { cbn [lastTime fold_left]. lra. }
  cbn [lastHands fold_left fistSlot rawOn] in Hlast.
  change (frames this [f1; f2]) with d2 in Hrotation. cbn [publishedRotation] in Hrotation.
  assert (Hinactive : pinchActive d2 = false).
  { subst d2. unfold frame. rewrite frame_pinchActive by exact Hinit1.
    pose proof (frame_confirmed d1 (time f2) (hands f2) Hinit1 Pinch) as H.
    cbn [confirmedOf] in H. rewrite H, Hnopinch. reflexivity. }
  (* the page after the first frame *)
  set (e1 := published d1 (List.length (hands f1))).
  set (a1 := appAfter (onHandResults c1 e1 app)).
  assert (Hconsistent : consistent c1 a1).
  { apply (gesture_consistent t); [apply reachable_consistent; exact Hat | | exact Hclock].
    apply published_detected. exact Hdetector. }
  consistent_in Hconsistent.
  pose proof (reachable_settled engine Hreach) as Hs.
  (* the second frame *)
  set (e2 := published d2 (List.length (hands f2))).
  assert (Hdriven : driven = appAfter (onHandResults c2 e2 a1)).
  { subst driven. rewrite (deliver_frame c1 f1 this app Hinit).
    fold d1 e1 a1. rewrite (deliver_frame c2 f2 d1 a1 Hinit1). reflexivity. }
  rewrite Hdriven.
  rewrite (onHandResults_released c2 e2 a1 renderer engine overlay
             Hinactive Hrenderer Hengine Hoverlay Hs).
  cbn [appAfter asciiRenderer audioEngine].
  set (keyed := match keyChange a1 with
                | Some key => AudioEngine.setKey key engine
                | None => engine
                end).
  assert (Hs' : AudioEngine.settled keyed).
  { subst keyed. destruct (keyChange a1) as [key |]; [| exact Hs].
    exact (step_settled (AudioEngine.CallSetKey key) engine Hs). }
  destruct (setters_applied keyed (Rabs (Event.leftRotation e2) / 90)
              (Rabs (Event.rightRotation e2) / 90) Hs') as (Hintensity & _).
  exists h. eexists. eexists.
  split; [exact Hlast |]. split; [reflexivity |]. split; [reflexivity |].
  split; [apply calculateHandRotation_range |].
  change (Event.leftRotation e2) with (lastLeftRotation d2) in *.
  rewrite <- Hrotation. split; [reflexivity | exact Hintensity].
Qed.

(** [held_fist_drives_the_sound] on a new page: a left fist held below the
    wrist for 450 ms gives full saturation and full intensity. *)
Lemma held_fist_drives_the_sound_witness :
  let fist := [handOf "Left" fistDown] in
  let driven :=
    snd (deliver 451 {| time := 450; hands := fist |}
           (deliver 1 {| time := 0; hands := fist |} (started, loaded 800 600))) in
  exists renderer' engine',
    asciiRenderer driven = Some renderer'
    /\ audioEngine driven = Some engine'
    /\ AsciiRenderer.saturationMultiplier renderer' = Rabs 90 / 45
    /\ AudioEngine.lastValidIntensity engine' = Rabs 90 / 90.
Proof.
  intros fist driven. subst driven fist.
  set (fist := [handOf "Left" fistDown]).
  assert (Hraw : rawPresent LeftFist fist = true).
  { subst fist. unfold rawPresent. cbn [existsb rawOn]. rewrite left_fistDown_raw.
    reflexivity. }
  assert (Hnopinch : rawPresent Pinch fist = false).
  { subst fist. unfold rawPresent. cbn [existsb rawOn]. unfold isPinching, handOf.
    cbn [handLandmarks]. rewrite fistDown_isPinch. reflexivity. }
  destruct (held_fist_drives_the_sound started (loaded 800 600) 0
              {| time := 0; hands := fist |} {| time := 450; hands := fist |} 1 451)
    as (h & renderer' & engine' & Hlast & Hr & He & _ & Hsat & Hint).
  - exists []. reflexivity.
  - reflexivity.
  - apply at_load; lra.
  - lra.
  - exact Hraw.
  - exact Hraw.
  - exact Hnopinch.
  - cbn [time]. unfold HOLD_DURATION_MS. lra.
  - exists renderer', engine'.
    assert (Hh : h = handOf "Left" fistDown).
    { cbn [hands] in Hlast. subst fist. unfold lastHand in Hlast. cbn [fold_left] in Hlast.
      rewrite left_fistDown_raw in Hlast. injection Hlast as <-. reflexivity. }
    rewrite Hh in Hsat, Hint. cbn [handOf handLandmarks] in Hsat, Hint.
    rewrite fistDown_rotation in Hsat, Hint.
    repeat split; assumption.
Defined.

End AppMore.

(** ** The wheel as drawn and as hit *)

Section WheelMore.

Import KeyOverlay.

Lemma floor_between (v : R) (n : Z) : IZR n <= v < IZR n + 1 -> Js.floor v = n.
Proof. intros H. unfold Js.floor. symmetry. apply Int_part_spec. lra. Qed.

Lemma rem_between (a b : R) (n : Z) :
  0 < b -> 0 <= a -> IZR n * b <= a < (IZR n + 1) * b -> Js.rem a b = a - b * IZR n.
Proof.
  intros Hb Ha [Hlo Hhi]. unfold Js.rem, Js.trunc.
  assert (Hinv : 0 < / b) by (apply Rinv_0_lt_compat; exact Hb).
  assert (Hbb : b * / b = 1) by (field; lra).
  assert (Hq : IZR n <= a / b < IZR n + 1) by (unfold Rdiv; split; nra).
  destruct (Rle_dec 0 (a / b)) as [_ | Hneg]; [| exfalso; apply Hneg; unfold Rdiv; nra].
  rewrite <- (Int_part_spec (a / b) n) by lra. reflexivity.
Qed.

(** The two coordinates of a point one step counter-clockwise of straight
    up. *)
Lemma up_minus (delta : R) :
  cos (- (PI / 2) - delta) = - sin delta /\ sin (- (PI / 2) - delta) = - cos delta.
Proof.
  replace (- (PI / 2) - delta) with (- (PI / 2 + delta)) by ring.
  rewrite cos_neg, sin_neg. split.
  - rewrite (sin_cos delta). ring.
  - rewrite (cos_sin delta). reflexivity.
Qed.

Lemma atan2_up_minus (delta r : R) :
  0 < r -> 0 < delta < PI / 2 ->
  Js.atan2 (- sin delta * r) (- (- cos delta * r)) = - delta.
Proof.
  intros Hr Hdelta.
  assert (Hcos : 0 < cos delta) by (apply cos_gt_0; lra).
  unfold Js.atan2.
  destruct (Rlt_dec 0 (- (- cos delta * r))) as [_ | Hn]; [| exfalso; apply Hn; nra].
  replace (- sin delta * r / - (- cos delta * r)) with (- tan delta)
    by (unfold tan; field; lra).
  rewrite atan_opp, atan_tan by lra. reflexivity.
Qed.

(** The hit test on a point of the wheel given by its angle from straight
    up, [delta] counter-clockwise, when the wheel rests on key [k]. *)
Lemma hit_left_of_top (g : State) (pos : Point) (k : Z) (delta r : R) :
  (0 <= k < 12)%Z ->
  rotationOffset g = - IZR k * segmentAngle ->
  0 < r ->
  0 < delta <= segmentAngle / 2 ->
  x pos * canvasWidth g - centerX g = - sin delta * r ->
  y pos * canvasHeight g - centerY g = - cos delta * r ->
  distanceOf g pos = r
  /\ segmentIndexOf g pos = ((k + 11) mod 12)%Z.
Proof.
  intros Hk Hrot Hr Hdelta Hdx Hdy. pose proof PI_RGT_0 as Hpi.
  pose proof segmentAngle_pos as Hseg.
  assert (Hturn : PI * 2 = 12 * segmentAngle) by (unfold segmentAngle; field).
  split.
  - unfold distanceOf. rewrite Hdx, Hdy.
    replace (- sin delta * r * (- sin delta * r) + - cos delta * r * (- cos delta * r))
      with (r * r * (Rsqr (sin delta) + Rsqr (cos delta))) by (unfold Rsqr; ring).
    rewrite sin2_cos2, Rmult_1_r. apply sqrt_square. lra.
  - unfold segmentIndexOf. rewrite Hdx, Hdy, Hrot.
    rewrite atan2_up_minus by (unfold segmentAngle in *; lra).
    rewrite lt_true by lra.
    fold segmentAngle. rewrite Hturn.
    set (s := segmentAngle) in *. set (K := IZR k).
    assert (HK : 0 <= K <= 11).
    { subst K. split; [apply (IZR_le 0); lia | apply (IZR_le _ 11); lia]. }
    assert (Hinv : 0 < / s) by (apply Rinv_0_lt_compat; exact Hseg).
    assert (Hss : s * / s = 1) by (field; lra).
    assert (Hfrac : 0 < delta / s <= 1 / 2) by (unfold Rdiv; split; nra).
    destruct (Z.eq_dec k 0) as [-> | Hpos].
    + subst K. replace (- delta + 12 * s - - 0 * s + 12 * s) with (24 * s - delta) by ring.
      rewrite (rem_between _ _ 1) by (first [lra | split; lra]).
      replace ((24 * s - delta - 12 * s * 1) / s) with (12 - delta / s) by (field; lra).
      change ((0 + 11) mod 12)%Z with 11%Z. apply floor_between. split; lra.
    + assert (HK1 : 1 <= K) by (subst K; apply (IZR_le 1); lia).
      assert (HKs : s <= K * s <= 11 * s) by nra.
      replace (- delta + 12 * s - - K * s + 12 * s) with (24 * s - delta + K * s) by ring.
      rewrite (rem_between _ _ 2) by (first [lra | split; lra]).
      replace ((24 * s - delta + K * s - 12 * s * 2) / s) with (K - delta / s)
        by (field; lra).
      replace ((k + 11) mod 12)%Z with (k - 1)%Z.
      * apply floor_between. rewrite minus_IZR. fold K. split; lra.
      * replace (k + 11)%Z with (k - 1 + 1 * 12)%Z by ring.
        rewrite Z_mod_plus_full. symmetry. apply Z.mod_small. lia.
Qed.

(** X23 (the wedge as drawn and as hit).  When the wheel rests on key
    number [k] of the circle, [drawRing] draws that key's wedge centred
    straight up, half a segment to either side of its label.  The hit test
    counts its segments from straight up: every point of that wedge
    counter-clockwise of the label, in either ring, selects the previous
    key of the circle (number [k - 1], or the last one for the first), not
    the key drawn there. *)
Theorem wedge_left_of_label_hits_previous_key (this : View) (k : Z) (delta r : R) :
  (0 <= k < 12)%Z ->
  rotationOffset (geometry this) = - IZR k * segmentAngle ->
  0 < canvasWidth (geometry this) ->
  0 < canvasHeight (geometry this) ->
  0 < r ->
  CENTER_RADIUS * minDim (geometry this) <= r < OUTER_RADIUS * minDim (geometry this) ->
  0 < delta <= segmentAngle / 2 ->
  let a := midAngle this k - delta in
  startAngle this k <= a < midAngle this k
  /\ keyAt this (Some (wheelPoint this a r)) =
     index (if Js.lt r (INNER_RADIUS * minDim (geometry this))
            then MINOR_KEYS else MAJOR_KEYS)
           ((k + 11) mod 12).
Proof.
  intros Hk Hrot Hw Hh Hr [Hlo Hhi] Hdelta a.
  assert (Hmid : midAngle this k = - (PI / 2)).
  { unfold midAngle, startAngle. rewrite Hrot. ring. }
  split; [unfold midAngle in *; subst a; lra |].
  assert (Ha : a = - (PI / 2) - delta) by (subst a; rewrite Hmid; reflexivity).
  destruct (up_minus delta) as [Hcos Hsin].
  destruct (hit_left_of_top (geometry this) (wheelPoint this a r) k delta r)
    as [Hdist Hindex]; try assumption.
  - unfold wheelPoint. cbn [x]. rewrite Ha, Hcos. field. lra.
  - unfold wheelPoint. cbn [y]. rewrite Ha, Hsin. field. lra.
  - unfold keyAt. rewrite getKeyAtPosition_unfold, Hdist, Hindex.
    rewrite (lt_false _ _ Hlo).
    destruct (Js.lt r (INNER_RADIUS * minDim (geometry this))); [reflexivity |].
    rewrite (lt_true _ _ Hhi). reflexivity.
Qed.

(** [wedge_left_of_label_hits_previous_key] on a new overlay in an 800 by
    600 window: the counter-clockwise edge of the wedge drawn for C, 200
    pixels from the centre, selects F. *)
Lemma wedge_left_of_label_hits_previous_key_witness :
  let this := constructedView 800 600 in
  keyAt this (Some (wheelPoint this (midAngle this 0 - segmentAngle / 2) 200))
  = Key "F".
Proof.
  intros this. pose proof segmentAngle_pos as Hseg.
  assert (Hdim : minDim (geometry this) = 600) by exact constructed_minDim.
  destruct (wedge_left_of_label_hits_previous_key this 0 (segmentAngle / 2) 200)
    as [_ Hhit].
  - lia.
  - cbn [this constructedView geometry constructed resize rotationOffset]. ring.
  - cbn [this constructedView geometry constructed resize canvasWidth]. lra.
  - cbn [this constructedView geometry constructed resize canvasHeight]. lra.
  - lra.
  - rewrite Hdim. unfold CENTER_RADIUS, OUTER_RADIUS. lra.
  - lra.
  - rewrite Hhit, Hdim, lt_false by (unfold INNER_RADIUS; lra). reflexivity.
Defined.

End WheelMore.

(** ** The colour of a character *)

Section ColourMore.

Import AsciiRenderer.

Lemma div_unit (a b : R) : 0 <= a <= b -> 0 < b -> 0 <= a / b <= 1.
Proof.
  intros [H0 H1] Hb.
  assert (Hinv : 0 < / b) by (apply Rinv_0_lt_compat; exact Hb).
  assert (Hbb : b * / b = 1) by (field; lra).
  unfold Rdiv. split; nra.
Qed.

Lemma div_between (a d : R) : - d <= a <= d -> 0 < d -> -1 <= a / d <= 1.
Proof.
  intros [H0 H1] Hd.
  assert (Hinv : 0 < / d) by (apply Rinv_0_lt_compat; exact Hd).
  assert (Hdd : d * / d = 1) by (field; lra).
  unfold Rdiv. split; nra.
Qed.

Lemma div_negative (a d : R) : a < 0 -> 0 < d -> a / d < 0.
Proof.
  intros Ha Hd.
  assert (Hinv : 0 < / d) by (apply Rinv_0_lt_compat; exact Hd).
  unfold Rdiv. nra.
Qed.

Lemma div_not_negative (a d : R) : 0 <= a -> 0 < d -> 0 <= a / d.
Proof.
  intros Ha Hd.
  assert (Hinv : 0 < / d) by (apply Rinv_0_lt_compat; exact Hd).
  unfold Rdiv. nra.
Qed.

Lemma same_true (a : R) : same a a = true.
Proof. unfold same. destruct (Req_dec_T a a); [reflexivity | contradiction]. Qed.

Lemma same_spec (a b : R) : same a b = true <-> a = b.
Proof.
  unfold same. destruct (Req_dec_T a b); split; intros; try assumption;
    try reflexivity; try discriminate; contradiction.
Qed.

Lemma unit_of_channel (v : R) : channel v -> 0 <= v / 255 <= 1.
Proof. unfold channel. intros H. lra. Qed.

(** The three components that [rgbToHsl] returns. *)
Lemma rgbToHsl_facts (r g b : R) :
  channel r -> channel g -> channel b ->
  let '(h, s, l) := rgbToHsl r g b in
  0 <= h < 1 /\ 0 <= s <= 1 /\ 0 <= l <= 1
  /\ (r = g -> g = b -> h = 0 /\ s = 0 /\ l = r / 255).
Proof.
  intros Hr Hg Hb.
  apply unit_of_channel in Hr, Hg, Hb.
  unfold rgbToHsl.
  set (rn := r / 255) in *. set (gn := g / 255) in *. set (bn := b / 255) in *.
  set (mx := Rmax (Rmax rn gn) bn). set (mn := Rmin (Rmin rn gn) bn).
  assert (Hmx : rn <= mx /\ gn <= mx /\ bn <= mx /\ mx <= 1).
  { subst mx. pose proof (Rmax_l (Rmax rn gn) bn). pose proof (Rmax_r (Rmax rn gn) bn).
    pose proof (Rmax_l rn gn). pose proof (Rmax_r rn gn).
    repeat split; try lra. repeat apply Rmax_lub; lra. }
  assert (Hmn : mn <= rn /\ mn <= gn /\ mn <= bn /\ 0 <= mn).
  { subst mn. pose proof (Rmin_l (Rmin rn gn) bn). pose proof (Rmin_r (Rmin rn gn) bn).
    pose proof (Rmin_l rn gn). pose proof (Rmin_r rn gn).
    repeat split; try lra. repeat apply Rmin_glb; lra. }
  destruct Hmx as (Hmr & Hmg & Hmb & Hm1). destruct Hmn as (Hnr & Hng & Hnb & Hn0).
  destruct (same mx mn) eqn:Hsame.
  - apply same_spec in Hsame.
    repeat split; lra.
  - assert (Hd : 0 < mx - mn).
    { destruct (Req_dec_T mx mn) as [Heq | Hne];
        [rewrite Heq, same_true in Hsame; discriminate | lra]. }
    split; [| split; [| split]].
    + destruct (same mx rn) eqn:Hcase; [| destruct (same mx gn) eqn:Hcase'].
      * apply same_spec in Hcase.
        pose proof (div_between (gn - bn) (mx - mn)) as Hq.
        unfold Js.lt. destruct (Rlt_dec gn bn) as [Hlt | Hge].
        -- pose proof (div_negative (gn - bn) (mx - mn)). lra.
        -- pose proof (div_not_negative (gn - bn) (mx - mn)). lra.
      * pose proof (div_between (bn - rn) (mx - mn)). lra.
      * pose proof (div_between (rn - gn) (mx - mn)). lra.
    + unfold Js.gt. destruct (Rgt_dec ((mx + mn) / 2) 0.5).
      * apply div_unit; lra.
      * apply div_unit; lra.
    + lra.
    + intros Hrg Hgb. exfalso.
      assert (rn = gn) by (subst rn gn; rewrite Hrg; reflexivity).
      assert (gn = bn) by (subst gn bn; rewrite Hgb; reflexivity).
      assert (mx = rn).
      { subst mx. rewrite (Rmax_left rn gn) by lra. apply Rmax_left. lra. }
      assert (mn = rn).
      { subst mn. rewrite (Rmin_left rn gn) by lra. apply Rmin_left. lra. }
      lra.
Qed.

Lemma divide_by (a b : R) : b <> 0 -> divide a b = Some (a / b).
Proof.
  intros Hb. unfold divide, same.
  destruct (Req_dec_T b 0); [contradiction | reflexivity].
Qed.

(** On the channels of a pixel every divisor that [rgbToHsl] meets is
    different from zero: 255, 2 and 6 are; the chroma [max - min] is
    divided by only after the test [max === min] has failed; and then
    [min < max <= 1] and [0 <= min < max] keep [2 - max - min] and
    [max + min] away from zero. *)
Lemma rgbToHslFinite_facts (r g b : R) :
  channel r -> channel g -> channel b ->
  rgbToHslFinite r g b = Some (rgbToHsl r g b).
Proof.
  intros Hr Hg Hb.
  apply unit_of_channel in Hr, Hg, Hb.
  unfold rgbToHslFinite, rgbToHsl.
  rewrite !(divide_by _ 255) by lra. cbn [finite].
  set (rn := r / 255) in *. set (gn := g / 255) in *. set (bn := b / 255) in *.
  set (mx := Rmax (Rmax rn gn) bn). set (mn := Rmin (Rmin rn gn) bn).
  assert (Hmx : mx <= 1) by (subst mx; repeat apply Rmax_lub; lra).
  assert (Hmn : 0 <= mn) by (subst mn; repeat apply Rmin_glb; lra).
  assert (Hle : mn <= mx).
  { subst mx mn. pose proof (Rmax_r (Rmax rn gn) bn).
    pose proof (Rmin_r (Rmin rn gn) bn). lra. }
  rewrite (divide_by _ 2) by lra. cbn [finite].
  destruct (same mx mn) eqn:Hsame; [reflexivity |].
  assert (Hd : mn < mx).
  { destruct (Req_dec_T mx mn) as [Heq | Hne];
      [rewrite Heq, same_true in Hsame; discriminate | lra]. }
  rewrite (divide_by _ (2 - mx - mn)), (divide_by _ (mx + mn)) by lra.
  rewrite !(divide_by _ (mx - mn)) by lra. cbn [finite].
  rewrite !(divide_by _ 6) by lra.
  destruct (Js.gt ((mx + mn) / 2) 0.5), (same mx rn), (same mx gn); reflexivity.
Qed.

(** X24 (hue, saturation, lightness).  For the three channels of a pixel,
    each between 0 and 255, no division that [rgbToHsl] evaluates is by
    zero, so that it returns three numbers; they are a hue in [0, 1), a
    saturation and a lightness in [0, 1], with hue and saturation 0 for a
    gray pixel. *)
Theorem rgbToHsl_ranges (r g b : R) :
  channel r -> channel g -> channel b ->
  rgbToHslFinite r g b = Some (rgbToHsl r g b)
  /\ (let '(h, s, l) := rgbToHsl r g b in
      0 <= h < 1 /\ 0 <= s <= 1 /\ 0 <= l <= 1
      /\ (r = g -> g = b -> h = 0 /\ s = 0 /\ l = r / 255)).
Proof.
  intros Hr Hg Hb. split.
  - apply rgbToHslFinite_facts; assumption.
  - apply rgbToHsl_facts; assumption.
Qed.

(** [rgbToHsl_ranges] on pure red, where the chroma is divided by, and on
    mid gray, where it is zero and is not. *)
Lemma rgbToHsl_ranges_witness :
  (rgbToHslFinite 255 0 0 = Some (rgbToHsl 255 0 0)
   /\ let '(h, s, l) := rgbToHsl 255 0 0 in 0 <= h < 1 /\ 0 <= s <= 1 /\ 0 <= l <= 1)
  /\ (rgbToHslFinite 128 128 128 = Some (rgbToHsl 128 128 128)
      /\ let '(h, s, l) := rgbToHsl 128 128 128 in h = 0 /\ s = 0 /\ l = 128 / 255).
Proof.
  split.
  - pose proof (rgbToHsl_ranges 255 0 0) as H.
    destruct H as [Hfinite H]; [unfold channel; lra .. |].
    split; [exact Hfinite |].
    destruct (rgbToHsl 255 0 0) as [[h s] l].
    destruct H as (Hh & Hs & Hl & _).
    repeat split; lra.
  - pose proof (rgbToHsl_ranges 128 128 128) as H.
    destruct H as [Hfinite H]; [unfold channel; lra .. |].
    split; [exact Hfinite |].
    destruct (rgbToHsl 128 128 128) as [[h s] l].
    destruct H as (_ & _ & _ & Hgray).
    apply Hgray; reflexivity.
Defined.

(** *** From the pixel to the span *)

Lemma floor_range (v : R) (lo hi : Z) :
  IZR lo <= v < IZR hi + 1 -> (lo <= Js.floor v <= hi)%Z.
Proof.
  intros [Hlo Hhi]. unfold Js.floor.
  destruct (base_Int_part v) as [Hle Hgt]. split.
  - apply Z.lt_succ_r, lt_IZR. rewrite succ_IZR. lra.
  - apply Z.lt_succ_r, lt_IZR. rewrite succ_IZR. lra.
Qed.

Lemma round_byte (v : R) : 0 <= v <= 1 -> byte (round (v * 255)).
Proof.
  intros Hv. unfold byte, round. apply floor_range. split; lra.
Qed.

Lemma round_integer (n : Z) : round (IZR n) = n.
Proof.
  unfold round, Js.floor. symmetry. apply Int_part_spec. lra.
Qed.

Lemma hue2rgb_between (p q t : R) :
  p <= q -> -1 <= t <= 2 -> p <= hue2rgb p q t <= q.
Proof.
  intros Hpq Ht. unfold hue2rgb.
  set (t1 := if Js.lt t 0 then t + 1 else t).
  assert (Ht1 : 0 <= t1 <= 2).
  { subst t1. unfold Js.lt. destruct (Rlt_dec t 0); lra. }
  set (t2 := if Js.gt t1 1 then t1 - 1 else t1).
  assert (Ht2 : 0 <= t2 <= 1).
  { subst t2. unfold Js.gt. destruct (Rgt_dec t1 1); lra. }
  unfold Js.lt.
  destruct (Rlt_dec t2 (1 / 6)); [split; nra |].
  destruct (Rlt_dec t2 (1 / 2)); [lra |].
  destruct (Rlt_dec t2 (2 / 3)); [split; nra | lra].
Qed.

Lemma hslToRgb_bytes (h s l : R) :
  0 <= h <= 1 -> 0 <= s <= 1 -> 0 <= l <= 1 ->
  let '(r, g, b) := hslToRgb h s l in byte r /\ byte g /\ byte b.
Proof.
  intros Hh Hs Hl. unfold hslToRgb.
  destruct (same s 0); [repeat split; apply round_byte; exact Hl |].
  set (q := if Js.lt l 0.5 then l * (1 + s) else l + s - l * s).
  assert (Hq : 0 <= 2 * l - q /\ 2 * l - q <= q /\ q <= 1).
  { subst q. unfold Js.lt. destruct (Rlt_dec l 0.5); repeat split; nra. }
  destruct Hq as (Hp0 & Hpq & Hq1).
  pose proof (hue2rgb_between (2 * l - q) q (h + 1 / 3) Hpq) as H1.
  pose proof (hue2rgb_between (2 * l - q) q h Hpq) as H2.
  pose proof (hue2rgb_between (2 * l - q) q (h - 1 / 3) Hpq) as H3.
  repeat split; apply round_byte; lra.
Qed.

Lemma adjustSaturation_bytes (r g b multiplier : R) :
  channel r -> channel g -> channel b -> 0 <= multiplier ->
  let '(r', g', b') := adjustSaturation r g b multiplier in
  byte r' /\ byte g' /\ byte b'.
Proof.
  intros Hr Hg Hb Hm. unfold adjustSaturation.
  pose proof (rgbToHsl_facts r g b Hr Hg Hb) as H.
  destruct (rgbToHsl r g b) as [[h s] l]. destruct H as (Hh & Hs & Hl & _).
  apply hslToRgb_bytes; try lra.
  split; [apply Rmin_glb; nra | apply Rmin_l].
Qed.

Lemma chars_length : String.length chars = 69%nat.
Proof. reflexivity. Qed.

Lemma brightness_unit (r g b : R) :
  channel r -> channel g -> channel b -> 0 <= brightnessOf r g b <= 1.
Proof. unfold channel, brightnessOf. intros Hr Hg Hb. lra. Qed.

(** X25 (every pixel can be drawn).  For a pixel with channels between 0
    and 255 and a saturation multiplier that is not negative, as
    [setSaturation] leaves it, [render] picks a character inside the
    ramp of 69 and a colour whose three channels are integers between 0 and
    255; with the multiplier at 0 the three are the same gray. *)
Theorem every_pixel_is_drawable (this : State) (r g b : R) :
  channel r -> channel g -> channel b ->
  0 <= saturationMultiplier this ->
  let '(charIndex, (r', g', b')) := renderPixel this r g b in
  (0 <= charIndex < Z.of_nat (String.length chars))%Z
  /\ byte r' /\ byte g' /\ byte b'
  /\ (saturationMultiplier this = 0 -> r' = g' /\ g' = b').
Proof.
  intros Hr Hg Hb Hm. unfold renderPixel.
  pose proof (brightness_unit r g b Hr Hg Hb) as Hbright.
  rewrite chars_length.
  assert (Hindex : (0 <= Js.floor (brightnessOf r g b * (INR 69 - 1)) <= 68)%Z).
  { apply floor_range. replace (INR 69) with 69 by (simpl; ring). split; nra. }
  destruct (same (saturationMultiplier this) 0) eqn:Hzero.
  - pose proof (round_byte _ Hbright) as Hgray.
    repeat split; try apply Hgray; lia.
  - pose proof (adjustSaturation_bytes r g b _ Hr Hg Hb Hm) as Hbytes.
    destruct (adjustSaturation r g b (saturationMultiplier this)) as [[r' g'] b'].
    destruct Hbytes as (Hr' & Hg' & Hb').
    split; [lia |]. split; [exact Hr' |]. split; [exact Hg' |]. split; [exact Hb' |].
    intros Habs. rewrite Habs, same_true in Hzero. discriminate Hzero.
Qed.

(** [every_pixel_is_drawable] on a white pixel in grayscale: the last
    character of the ramp, in white. *)
Lemma every_pixel_is_drawable_witness :
  let '(charIndex, (r', g', b')) := renderPixel constructed 255 255 255 in
  (0 <= charIndex < 69)%Z /\ byte r'.
Proof.
  pose proof (every_pixel_is_drawable constructed 255 255 255) as H.
  destruct (renderPixel constructed 255 255 255) as [charIndex [[r' g'] b']].
  destruct H as (Hi & Hr & _); [unfold channel; lra .. | cbn; lra |].
  split; [exact Hi | exact Hr].
Defined.

(** X26 (gray stays gray).  Whatever the multiplier, [adjustSaturation]
    returns a gray pixel as it is: the channels of the canvas are integers,
    and for three equal ones the saturation is 0 before and after the
    scaling. *)
Theorem gray_stays_gray (n : Z) (multiplier : R) :
  adjustSaturation (IZR n) (IZR n) (IZR n) multiplier = (n, n, n).
Proof.
  unfold adjustSaturation, rgbToHsl.
  set (v := IZR n / 255).
  assert (Hmax : Rmax (Rmax v v) v = v)
    by (rewrite (Rmax_left v v) by lra; apply Rmax_left; lra).
  assert (Hmin : Rmin (Rmin v v) v = v)
    by (rewrite (Rmin_left v v) by lra; apply Rmin_left; lra).
  rewrite Hmax, Hmin, same_true.
  replace (0 * multiplier) with 0 by ring.
  rewrite Rmin_right by lra.
  unfold hslToRgb. rewrite same_true.
  replace ((v + v) / 2 * 255) with (IZR n) by (subst v; field).
  rewrite round_integer. reflexivity.
Qed.

End ColourMore.
